(** * otel-cloudflare: trace context codec, span engine, exporter, adapters

    A shallow embedding of the parts of the TypeScript sources that the
    specification's testable properties talk about, followed by the
    properties themselves.

    - [Codec]       src/provider.ts: parseTraceparent, toTraceparent
    - [JsObject]    ordinary objects used as string-keyed bags
    - [Effects]     completions, promises, a state-and-exception monad
    - [SpanEngine]  src/provider.ts: CloudflareSpan, CloudflareTracer, id
                    generation; src/trace.ts: withTrace
    - [Exporter]    src/otlp.ts: attributesToOTLP, exportTraces, exportLogs
    - [Adapters]    src/instrument.ts: shouldIgnoreUrl, instrument,
                    traceHandler; src/flush.ts: initOTLP
    - [ErrorChain]  src/error.ts: TracedError[Symbol.hasInstance]

    Conventions. JavaScript strings are [string]s (sequences of 8-bit
    characters); every string the properties constrain is ASCII. Numbers
    are idealised: timestamps are rationals, so there is no [NaN] and no
    rounding. Where the code fails on a number that is none (the request
    builders of the exporter) the failure is an explicit completion, and
    where it rounds ([parseInt]) the rounding is a parameter. Objects with
    identity (spans, errors) live on a heap and are named by their index.
    What the runtime decides (random bytes, the clock, the network) is an
    explicit input. *)

From stdpp Require Import base list strings sorting.
From Stdlib Require Import ZArith NArith QArith Qround Lia Ascii String DecimalString DecimalZ.

Set Warnings "-register-all,-abstract-large-number".
Local Close Scope Q_scope.
Local Open Scope string_scope.
Local Open Scope list_scope.

(* ===================================================================== *)
(** * Trace context codec (src/provider.ts)                               *)
(* ===================================================================== *)

Module Codec.

(** [TraceContext]: the parsed form of a W3C traceparent header. *)
Record TraceContext := mkTraceContext {
  version : string;
  traceId : string;
  spanId : string;
  flags : string
}.

(** The argument of [toTraceparent]: any object with a [traceId] and a
    [spanId]. Callers pass a SpanContext, so the record also carries the
    trace flags and the remote marker, which [toTraceparent] never reads. *)
Record SpanContext := mkSpanContext {
  sc_traceId : string;
  sc_spanId : string;
  sc_traceFlags : N;
  sc_isRemote : bool
}.

(** [s.split(sep)] for a one-character separator: always at least one
    field; the empty string splits into one empty field. *)
Fixpoint split (sep : ascii) (s : string) : list string :=
  match s with
  | EmptyString => [EmptyString]
  | String c rest =>
      if Ascii.eqb c sep then EmptyString :: split sep rest
      else match split sep rest with
           | [] => [String c EmptyString]
           | field :: fields => String c field :: fields
           end
  end.

(** One character of the class [[0-9a-f]] under the [i] flag. *)
Definition is_hex_char (c : ascii) : bool :=
  let n := N_of_ascii c in
  ((48 <=? n) && (n <=? 57) || (97 <=? n) && (n <=? 102) || (65 <=? n) && (n <=? 70))%N.

Fixpoint all_hex (s : string) : bool :=
  match s with
  | EmptyString => true
  | String c rest => is_hex_char c && all_hex rest
  end.

(** [/^[0-9a-f]+$/i.test(s)]: one or more characters, all of them hex. *)
Definition hex_re_test (s : string) : bool :=
  match s with
  | EmptyString => false
  | String _ _ => all_hex s
  end.

(** [parseTraceparent]: [None] is the source's [null]. *)
Definition parseTraceparent (traceparent : string) : option TraceContext :=
  let parts := split "-" traceparent in
  if negb (Nat.eqb (List.length parts) 4) then None
  else match parts with
       | [version; traceId; spanId; flags] =>
           if negb (String.eqb version "00") then None
           else if negb (Nat.eqb (String.length traceId) 32) || negb (hex_re_test traceId) then None
           else if negb (Nat.eqb (String.length spanId) 16) || negb (hex_re_test spanId) then None
           else if negb (Nat.eqb (String.length flags) 2) || negb (hex_re_test flags) then None
           else Some (mkTraceContext version traceId spanId flags)
       | _ => None
       end.

(** [toTraceparent]: the template literal [`00-${traceId}-${spanId}-01`]. *)
Definition toTraceparent (ctx : SpanContext) : string :=
  "00-" ++ sc_traceId ctx ++ "-" ++ sc_spanId ctx ++ "-01".

(** ** The specification's vocabulary *)

(** "exactly [n] hex chars (lowercase or uppercase)". *)
Definition hex_chars (n : nat) (s : string) : Prop :=
  String.length s = n /\ Forall (fun c => is_hex_char c = true) (list_ascii_of_string s).

(** The malformed wire strings as the specification lists them. *)
Definition malformed (s : string) : Prop :=
  List.length (split "-" s) <> 4 \/
  exists v t sp f, split "-" s = [v; t; sp; f] /\
    (v <> "00" \/ ~ hex_chars 32 t \/ ~ hex_chars 16 sp \/ ~ hex_chars 2 f).

End Codec.

(* ===================================================================== *)
(** * Ordinary objects used as string-keyed bags                          *)
(* ===================================================================== *)

Module JsObject.

Section Props.
Context {A : Type}.

(** Own properties in creation order. *)
Definition props : Type := list (string * A).

(** [o[k] = v]: an existing key keeps its place, a new key goes last. *)
Fixpoint obj_set (k : string) (v : A) (o : props) : props :=
  match o with
  | [] => [(k, v)]
  | (k', v') :: rest =>
      if String.eqb k' k then (k', v) :: rest else (k', v') :: obj_set k v rest
  end.

Fixpoint obj_get (k : string) (o : props) : option A :=
  match o with
  | [] => None
  | (k', v') :: rest => if String.eqb k' k then Some v' else obj_get k rest
  end.

Definition digit_of (c : ascii) : option N :=
  let n := N_of_ascii c in
  if ((48 <=? n) && (n <=? 57))%N then Some (n - 48)%N else None.

Fixpoint digits_value (s : string) (acc : N) : option N :=
  match s with
  | EmptyString => Some acc
  | String c rest =>
      match digit_of c with
      | Some d => digits_value rest (10 * acc + d)%N
      | None => None
      end
  end.

(** A key that is a canonical array index (["0"], ["17"], not ["017"]):
    such keys enumerate first, in ascending numeric order. *)
Definition array_index (k : string) : option N :=
  match k with
  | EmptyString => None
  | String c rest =>
      if Ascii.eqb c "0" then (if String.eqb rest "" then Some 0%N else None)
      else match digits_value k 0 with
           | Some n => if (n <=? 4294967294)%N then Some n else None
           | None => None
           end
  end.

Fixpoint insert_by_index (e : N * (string * A)) (l : list (N * (string * A)))
  : list (N * (string * A)) :=
  match l with
  | [] => [e]
  | e' :: rest => if (fst e <=? fst e')%N then e :: l else e' :: insert_by_index e rest
  end.

Definition indexed (o : props) : list (N * (string * A)) :=
  List.fold_right
    (fun kv acc => match array_index (fst kv) with
                   | Some n => insert_by_index (n, kv) acc
                   | None => acc
                   end) [] o.

Definition named (o : props) : props :=
  List.filter (fun kv => match array_index (fst kv) with Some _ => false | None => true end) o.

(** [Object.entries(o)], also the order in which a spread or
    [Object.assign] reads its source. *)
Definition Object_entries (o : props) : list (string * A) :=
  List.map snd (indexed o) ++ named o.

(** [{ ...target, ...source }]: each own entry of the source is defined on
    the target. [Object.assign(target, source)] does the same when the
    source has no own key [__proto__]. *)
Definition Object_assign (target source : props) : props :=
  List.fold_left (fun t kv => obj_set (fst kv) (snd kv) t) (Object_entries source) target.

Definition has_own (k : string) (o : props) : bool :=
  existsb (fun kv => String.eqb (fst kv) k) o.

(** [o[k] = v], the assignment, on an object whose prototype chain reaches
    [Object.prototype]. Under the key [__proto__], unless the object has
    an own property of that name, the assignment reaches the inherited
    setter and makes no property: the setter replaces the prototype of [o]
    when [v] is an object or [null] and does nothing otherwise. Properties
    go by [props] only; the prototype is not part of it. *)
Definition obj_assign (k : string) (v : A) (o : props) : props :=
  if String.eqb k "__proto__" && negb (has_own k o) then o else obj_set k v o.

(** [Object.assign(target, source)]: each own entry of the source is
    assigned to the target. *)
Definition Object_assign_each (target source : props) : props :=
  List.fold_left (fun t kv => obj_assign (fst kv) (snd kv) t) (Object_entries source) target.

End Props.

Arguments props : clear implicits.

End JsObject.

(* ===================================================================== *)
(** * Completions, promises, and a state-and-exception monad              *)
(* ===================================================================== *)

Module Effects.

(** What a [throw] can carry: a string, an [Error] (name, message and
    possibly a stack), or anything else. *)
Inductive Thrown :=
| ThrownString (s : string)
| ThrownError (name message : string) (stack : option string)
| ThrownOther (tag : N).

(** A call either completes normally or throws. A promise is represented
    by how it settles; its reactions run after everything the promised work
    did, so [promise_then] and [promise_catch] run the reaction on the
    state as it is at settlement. *)
Inductive Completion (T : Type) :=
| Normal (v : T)
| Throw (e : Thrown).
Arguments Normal {T} v.
Arguments Throw {T} e.

Inductive Settled (T : Type) :=
| Fulfilled (v : T)
| Rejected (e : Thrown).
Arguments Fulfilled {T} v.
Arguments Rejected {T} e.

(** What a callback hands back: a [Promise] ([result instanceof Promise])
    or anything else, which is then a plain value to the caller, an
    awaitable of another class included. *)
Inductive Returned (T : Type) :=
| Plain (v : T)
| Promise (p : Settled T).
Arguments Plain {T} v.
Arguments Promise {T} p.

Definition ST (S T : Type) : Type := S -> S * Completion T.

Section Monad.
Context {S : Type}.

Definition ret {T} (v : T) : ST S T := fun s => (s, Normal v).
Definition throw {T} (e : Thrown) : ST S T := fun s => (s, Throw e).
Definition bind {T U} (m : ST S T) (k : T -> ST S U) : ST S U :=
  fun s => match m s with
           | (s', Normal v) => k v s'
           | (s', Throw e) => (s', Throw e)
           end.
Definition lift (f : S -> S) : ST S unit := fun s => (f s, Normal tt).

Definition try_catch {T} (body : ST S T) (handler : Thrown -> ST S T) : ST S T :=
  fun s => match body s with
           | (s', Normal v) => (s', Normal v)
           | (s', Throw e) => handler e s'
           end.

Definition settle_of {T} (c : Completion T) : Settled T :=
  match c with
  | Normal v => Fulfilled v
  | Throw e => Rejected e
  end.

(** [p.then(f)] *)
Definition promise_then {T U} (p : Settled T) (f : T -> ST S U) : ST S (Settled U) :=
  fun s => match p with
           | Fulfilled v => let '(s', c) := f v s in (s', Normal (settle_of c))
           | Rejected e => (s, Normal (Rejected e))
           end.

(** [p.catch(g)] *)
Definition promise_catch {T} (p : Settled T) (g : Thrown -> ST S T) : ST S (Settled T) :=
  fun s => match p with
           | Fulfilled v => (s, Normal (Fulfilled v))
           | Rejected e => let '(s', c) := g e s in (s', Normal (settle_of c))
           end.

(** [await p] inside an [async] function: a rejection is thrown there. *)
Definition await {T} (p : Settled T) : ST S T :=
  fun s => match p with
           | Fulfilled v => (s, Normal v)
           | Rejected e => (s, Throw e)
           end.

(** A call into the environment whose completion is given. *)
Definition call {T} (c : Completion T) : ST S T := fun s => (s, c).

(** An [async] function: its completion settles the promise it returns. *)
Definition async {T} (body : ST S T) : S -> S * Settled T :=
  fun s => let '(s', c) := body s in (s', settle_of c).

End Monad.

Notation "'let*' x ':=' m 'in' k" := (bind m (fun x => k))
  (at level 10, x name, k at level 200).
Notation "m ;;; k" := (bind m (fun _ => k))
  (at level 100, right associativity).

End Effects.

(* ===================================================================== *)
(** * Span engine (src/provider.ts)                                       *)
(* ===================================================================== *)

Module SpanEngine.
Import JsObject.
Export Codec.
Export Effects.

Inductive SpanKind := INTERNAL | SERVER | CLIENT | PRODUCER | CONSUMER.

Inductive SpanStatusCode := UNSET | OK | ERROR.

Record SpanStatus := mkStatus {
  code : SpanStatusCode;
  message : option string
}.

(** Attribute values of the tracing API; numbers are idealised as
    rationals. *)
Inductive AttributeValue :=
| AString (s : string)
| ANumber (n : Q)
| ABoolean (b : bool)
| AUndefined
| AArray (items : list AttributeValue).

Definition Attributes : Type := props AttributeValue.

Record Link := mkLink {
  link_context : SpanContext;
  link_attributes : option Attributes
}.

(** [TimeInput]: a number of milliseconds, a [Date] (given by its
    [getTime()]), or an [HrTime] pair of seconds and nanoseconds. *)
Inductive TimeInput :=
| TNumber (n : Q)
| TDate (getTime : Q)
| THrTime (seconds nanos : Q).

Record SpanEvent := mkEvent {
  ev_name : string;
  ev_timestamp : Q;
  ev_attributes : option Attributes
}.

(** The fields of [class CloudflareSpan]. *)
Record CloudflareSpan := mkSpan {
  _spanContext : SpanContext;
  _parentSpanId : option string;
  _kind : SpanKind;
  _name : string;
  _startTime : Q;
  _endTime : option Q;
  _ended : bool;
  _status : SpanStatus;
  _attributes : Attributes;
  _events : list SpanEvent;
  _links : list Link
}.

Definition set_name (v : string) (s : CloudflareSpan) : CloudflareSpan :=
  mkSpan (_spanContext s) (_parentSpanId s) (_kind s) v (_startTime s) (_endTime s)
         (_ended s) (_status s) (_attributes s) (_events s) (_links s).
Definition set_endTime (v : option Q) (s : CloudflareSpan) : CloudflareSpan :=
  mkSpan (_spanContext s) (_parentSpanId s) (_kind s) (_name s) (_startTime s) v
         (_ended s) (_status s) (_attributes s) (_events s) (_links s).
Definition set_ended (v : bool) (s : CloudflareSpan) : CloudflareSpan :=
  mkSpan (_spanContext s) (_parentSpanId s) (_kind s) (_name s) (_startTime s) (_endTime s)
         v (_status s) (_attributes s) (_events s) (_links s).
Definition set_status (v : SpanStatus) (s : CloudflareSpan) : CloudflareSpan :=
  mkSpan (_spanContext s) (_parentSpanId s) (_kind s) (_name s) (_startTime s) (_endTime s)
         (_ended s) v (_attributes s) (_events s) (_links s).
Definition set_attributes (v : Attributes) (s : CloudflareSpan) : CloudflareSpan :=
  mkSpan (_spanContext s) (_parentSpanId s) (_kind s) (_name s) (_startTime s) (_endTime s)
         (_ended s) (_status s) v (_events s) (_links s).
Definition set_events (v : list SpanEvent) (s : CloudflareSpan) : CloudflareSpan :=
  mkSpan (_spanContext s) (_parentSpanId s) (_kind s) (_name s) (_startTime s) (_endTime s)
         (_ended s) (_status s) (_attributes s) v (_links s).
Definition set_links (v : list Link) (s : CloudflareSpan) : CloudflareSpan :=
  mkSpan (_spanContext s) (_parentSpanId s) (_kind s) (_name s) (_startTime s) (_endTime s)
         (_ended s) (_status s) (_attributes s) (_events s) v.

(** ** The world a span lives in

    Spans are objects with identity: the heap holds them, a reference is an
    index into it. [activeSpanProcessor] is the module-level slot; when set
    it holds the [spans] array of the registered [SimpleSpanProcessor], as
    references. [entropy] is what [crypto.getRandomValues] will deliver and
    [clock] what successive [Date.now()] calls will answer. *)
Record World := mkWorld {
  heap : list CloudflareSpan;
  activeSpanProcessor : option (list nat);
  entropy : nat -> Byte.byte;
  entropy_pos : nat;
  clock : nat -> Q;
  clock_pos : nat
}.

Definition set_heap (h : list CloudflareSpan) (w : World) : World :=
  mkWorld h (activeSpanProcessor w) (entropy w) (entropy_pos w) (clock w) (clock_pos w).
Definition setSpanProcessor (p : option (list nat)) (w : World) : World :=
  mkWorld (heap w) p (entropy w) (entropy_pos w) (clock w) (clock_pos w).
Definition getSpanProcessor (w : World) : option (list nat) := activeSpanProcessor w.

Definition Date_now (w : World) : Q * World :=
  (clock w (clock_pos w),
   mkWorld (heap w) (activeSpanProcessor w) (entropy w) (entropy_pos w) (clock w) (S (clock_pos w))).

(** [crypto.getRandomValues(new Uint8Array(n))]. *)
Definition getRandomValues (n : nat) (w : World) : list Byte.byte * World :=
  (List.map (entropy w) (List.seq (entropy_pos w) n),
   mkWorld (heap w) (activeSpanProcessor w) (entropy w) (entropy_pos w + n) (clock w) (clock_pos w)).

(** ** Identifier generation *)

Definition hex_digit (n : N) : ascii :=
  if (n <? 10)%N then ascii_of_N (48 + n) else ascii_of_N (87 + n).

(** [b.toString(16)] for a byte. *)
Definition toString16 (n : N) : string :=
  if (n <? 16)%N then String (hex_digit n) EmptyString
  else String (hex_digit (n / 16)) (String (hex_digit (n mod 16)) EmptyString).

(** [s.padStart(2, "0")]. *)
Definition padStart2 (s : string) : string :=
  match String.length s with
  | 0 => "00"
  | 1 => String "0" s
  | _ => s
  end.

Definition byte_hex (b : Byte.byte) : string := padStart2 (toString16 (Byte.to_N b)).

Definition join (parts : list string) : string :=
  List.fold_right String.append EmptyString parts.

Definition generateTraceId (w : World) : string * World :=
  let '(bytes, w') := getRandomValues 16 w in (join (List.map byte_hex bytes), w').

Definition generateSpanId (w : World) : string * World :=
  let '(bytes, w') := getRandomValues 8 w in (join (List.map byte_hex bytes), w').

(** ** Span handles and the active context

    A [Span] of the tracing API is either one of this module's spans or the
    API's non-recording wrapper around a span context
    ([trace.wrapSpanContext]), whose mutators all do nothing. A [Context]
    is reduced to its span entry: [None] is [ROOT_CONTEXT]. The context
    that [context.active()] answers is passed along explicitly. *)
Inductive Span :=
| Recording (ref : nat)
| NonRecording (sc : SpanContext).

Definition Context : Type := option Span.
Definition ROOT_CONTEXT : Context := None.
Definition getSpan (ctx : Context) : option Span := ctx.
Definition setSpan (ctx : Context) (span : Span) : Context := Some span.
Definition wrapSpanContext (sc : SpanContext) : Span := NonRecording sc.

Definition spanContext (w : World) (sp : Span) : option SpanContext :=
  match sp with
  | Recording r => _spanContext <$> heap w !! r
  | NonRecording sc => Some sc
  end.

Definition isRecording (w : World) (sp : Span) : bool :=
  match sp with
  | Recording r => match heap w !! r with Some s => negb (_ended s) | None => false end
  | NonRecording _ => false
  end.

(** Dispatch of a method call on a span handle. *)
Definition method (sp : Span) (body : nat -> CloudflareSpan -> World -> World)
  (w : World) : World :=
  match sp with
  | NonRecording _ => w
  | Recording r =>
      match heap w !! r with
      | Some this => body r this w
      | None => w
      end
  end.

Definition store (r : nat) (s : CloudflareSpan) (w : World) : World :=
  set_heap (<[r := s]> (heap w)) w.

(** ** [CloudflareSpan] methods *)

Definition hrTimeToMs (seconds nanos : Q) : Q :=
  (seconds * inject_Z 1000 + nanos / inject_Z 1000000)%Q.

Definition _timeInputToMs (time : option TimeInput) : option Q :=
  match time with
  | None => None
  | Some (TNumber n) => Some n
  | Some (TDate t) => Some t
  | Some (THrTime s n) => Some (hrTimeToMs s n)
  end.

Definition setAttribute (sp : Span) (key : string) (value : AttributeValue) : World -> World :=
  method sp (fun r this w =>
    if _ended this then w
    else store r (set_attributes (obj_assign key value (_attributes this)) this) w).

Definition setAttributes (sp : Span) (attributes : Attributes) : World -> World :=
  method sp (fun r this w =>
    if _ended this then w
    else store r (set_attributes (Object_assign_each (_attributes this) attributes) this) w).

(** The second argument of [addEvent]: attributes or a time. *)
Inductive AttributesOrTime :=
| GivenAttributes (a : Attributes)
| GivenTime (t : TimeInput).

Definition addEvent (sp : Span) (name : string)
  (attributesOrStartTime : option AttributesOrTime) (startTime : option TimeInput)
  : World -> World :=
  method sp (fun r this w =>
    if _ended this then w
    else
      let '(timestamp, attributes, w1) :=
        match attributesOrStartTime with
        | Some (GivenTime (TNumber n)) => (n, None, w)
        | Some (GivenTime (TDate t)) => (t, None, w)
        | Some (GivenTime (THrTime s n)) => (hrTimeToMs s n, None, w)
        | other =>
            let attributes :=
              match other with Some (GivenAttributes a) => Some a | _ => None end in
            match startTime with
            | Some (TNumber n) => (n, attributes, w)
            | Some (TDate t) => (t, attributes, w)
            | Some (THrTime s n) => (hrTimeToMs s n, attributes, w)
            | None => let '(now, w') := Date_now w in (now, attributes, w')
            end
        end in
      store r (set_events (_events this ++ [mkEvent name timestamp attributes]) this) w1).

Definition addLink (sp : Span) (link : Link) : World -> World :=
  method sp (fun r this w =>
    if _ended this then w else store r (set_links (_links this ++ [link]) this) w).

Definition addLinks (sp : Span) (links : list Link) : World -> World :=
  method sp (fun r this w =>
    if _ended this then w else store r (set_links (_links this ++ links) this) w).

Definition setStatus (sp : Span) (status : SpanStatus) : World -> World :=
  method sp (fun r this w =>
    if _ended this then w else store r (set_status status this) w).

Definition updateName (sp : Span) (name : string) : World -> World :=
  method sp (fun r this w =>
    if _ended this then w else store r (set_name name this) w).

(** [SimpleSpanProcessor.onEnd], through the module-level slot. *)
Definition notifyProcessor (r : nat) (w : World) : World :=
  match activeSpanProcessor w with
  | Some spans => setSpanProcessor (Some (spans ++ [r])) w
  | None => w
  end.

(** [end(endTime?)]. An [HrTime] argument falls to the [Date.now()] branch. *)
Definition span_end (sp : Span) (endTime : option TimeInput) : World -> World :=
  method sp (fun r this w =>
    if _ended this then w
    else
      let this1 := set_ended true this in
      let '(t, w1) :=
        match endTime with
        | Some (TNumber n) => (n, w)
        | Some (TDate d) => (d, w)
        | _ => Date_now w
        end in
      notifyProcessor r (store r (set_endTime (Some t) this1) w1)).

Definition exception_attributes (exception : Thrown) : Attributes :=
  match exception with
  | ThrownString s => obj_set "exception.message" (AString s) []
  | ThrownError name msg stack =>
      let a := obj_set "exception.type" (AString name) [] in
      let a := obj_set "exception.message" (AString msg) a in
      match stack with
      | Some st => if String.eqb st "" then a else obj_set "exception.stacktrace" (AString st) a
      | None => a
      end
  | ThrownOther _ => []
  end.

Definition recordException (sp : Span) (exception : Thrown) (time : option TimeInput)
  : World -> World :=
  method sp (fun r this w =>
    if _ended this then w
    else addEvent sp "exception" (Some (GivenAttributes (exception_attributes exception))) time w).

(** The span engine runs in the state-and-exception monad over [World]. *)
Definition M (T : Type) : Type := ST World T.

(** [context.with(ctx, fn)]: [fn] runs with [ctx] as the active context. *)
Definition context_with {T} (ctx : Context) (fn : Context -> M T) : M T := fn ctx.

(** A callback receives the span and runs under an active context. *)
Definition Callback (T : Type) : Type := Span -> Context -> M (Returned T).

(** ** [CloudflareTracer] *)

Record SpanOptions := mkSpanOptions {
  opt_kind : option SpanKind;
  opt_startTime : option TimeInput;
  opt_attributes : option Attributes;
  opt_links : option (list Link)
}.

Definition SAMPLED : N := 1%N.

(** [new CloudflareSpan(...)]: the new object goes to the end of the heap. *)
Definition new_CloudflareSpan (name : string) (sc : SpanContext) (kind : SpanKind)
  (parentSpanId : option string) (startTime : option TimeInput)
  (attributes : option Attributes) (links : option (list Link)) (w : World)
  : Span * World :=
  let '(start, w1) :=
    match _timeInputToMs startTime with
    | Some t => (t, w)
    | None => Date_now w
    end in
  let this :=
    mkSpan sc parentSpanId kind name start None false (mkStatus UNSET None)
      (match attributes with Some a => Object_assign [] a | None => [] end)
      [] (match links with Some l => l | None => [] end) in
  (Recording (List.length (heap w1)), set_heap (heap w1 ++ [this]) w1).

Definition startSpan (name : string) (options : option SpanOptions) (ctx : option Context)
  (active : Context) (w : World) : Span * World :=
  let parentContext := default active ctx in
  let parentSpan := getSpan parentContext in
  let parentSpanContext := parentSpan ≫= spanContext w in
  let '(traceId, w1) :=
    match parentSpanContext with
    | Some psc => (sc_traceId psc, w)
    | None => generateTraceId w
    end in
  let '(spanId, w2) := generateSpanId w1 in
  let parentSpanId := sc_spanId <$> parentSpanContext in
  let sc := mkSpanContext traceId spanId SAMPLED false in
  let kind := default INTERNAL (options ≫= opt_kind) in
  new_CloudflareSpan name sc kind parentSpanId
    (options ≫= opt_startTime) (options ≫= opt_attributes) (options ≫= opt_links) w2.

(** The handler shared by the rejection reaction and the [catch] block. *)
Definition record_and_rethrow {T} (span : Span) (error : Thrown) : M T :=
  lift (recordException span error None) ;;;
  lift (setStatus span (mkStatus ERROR None)) ;;;
  lift (span_end span None) ;;;
  throw error.

(** The function handed to [context.with] by [startActiveSpan]. *)
Definition settle_and_end {T} (fn : Callback T) (span : Span) (active' : Context)
  : M (Returned T) :=
  try_catch
    (let* result := fn span active' in
     match result with
     | Promise p =>
         let* p1 := promise_then p (fun value => lift (span_end span None) ;;; ret value) in
         let* p2 := promise_catch p1 (fun error => record_and_rethrow span error) in
         ret (Promise p2)
     | Plain v =>
         lift (span_end span None) ;;; ret (Plain v)
     end)
    (fun error => record_and_rethrow span error).

Definition startActiveSpan {T} (name : string) (options : option SpanOptions)
  (ctx : option Context) (fn : Callback T) (active : Context) : M (Returned T) :=
  fun w =>
    let parentContext := default active ctx in
    let '(span, w1) := startSpan name options (Some parentContext) active w in
    let newContext := setSpan parentContext span in
    context_with newContext (settle_and_end fn span) w1.

(** ** [withTrace] (src/trace.ts) *)

Definition parse_hex (s : string) : N :=
  List.fold_left
    (fun acc c =>
       let n := N_of_ascii c in
       (16 * acc +
        (if (48 <=? n) && (n <=? 57) then n - 48
         else if (97 <=? n) && (n <=? 102) then n - 87
         else n - 55))%N)
    (list_ascii_of_string s) 0%N.

(** [toSpanContext]: [parseInt(flags, 16)] on two hex characters. *)
Definition toSpanContext (ctx : TraceContext) : SpanContext :=
  mkSpanContext (traceId ctx) (spanId ctx) (parse_hex (flags ctx)) true.

Definition spanContextFromTraceparent (traceparent : string) : option SpanContext :=
  toSpanContext <$> parseTraceparent traceparent.

Inductive Parent :=
| ParentTraceparent (s : string)
| ParentSpanContext (sc : SpanContext).

(** The caller location in force ([opts.caller], else the captured stack
    frame), reduced to what [withTrace] reads of it. *)
Record CallerInfo := mkCallerInfo {
  caller_function : string;
  caller_toAttributes : Attributes
}.

Record WithTraceOptions := mkWithTraceOptions {
  wt_name : option string;
  wt_parent : option Parent;
  wt_span : SpanOptions
}.

(** The span options [withTrace] passes on: the caller's [code.*]
    attributes first, the given attributes over them. *)
Definition withTrace_spanOptions (caller : CallerInfo) (opts : WithTraceOptions) : SpanOptions :=
  mkSpanOptions (opt_kind (wt_span opts)) (opt_startTime (wt_span opts))
    (Some (Object_assign (Object_assign [] (caller_toAttributes caller))
             (default [] (opt_attributes (wt_span opts)))))
    (opt_links (wt_span opts)).

(** "Determine parent context". *)
Definition withTrace_parentContext (opts : WithTraceOptions) (active : Context) : Context :=
  match wt_parent opts with
  | Some parent =>
      let parentSpanContext :=
        match parent with
        | ParentTraceparent s => spanContextFromTraceparent s
        | ParentSpanContext sc => Some sc
        end in
      match parentSpanContext with
      | Some psc => setSpan active (wrapSpanContext psc)
      | None => active
      end
  | None => active
  end.

(** The callback [withTrace] hands to [startActiveSpan]: it ends the span
    itself, and on failure records the exception but sets no status. *)
Definition withTrace_callback {T} (fn : Callback T) : Callback T :=
  fun span active'' =>
    try_catch
      (let* result := fn span active'' in
       match result with
       | Promise p =>
           let* p1 := promise_then p (fun value => lift (span_end span None) ;;; ret value) in
           let* p2 := promise_catch p1
                        (fun error =>
                           lift (recordException span error None) ;;;
                           lift (span_end span None) ;;;
                           throw error) in
           ret (Promise p2)
       | Plain v => lift (span_end span None) ;;; ret (Plain v)
       end)
      (fun error =>
         lift (recordException span error None) ;;;
         lift (span_end span None) ;;;
         throw error).

Definition withTrace {T} (fn : Callback T) (caller : CallerInfo) (opts : WithTraceOptions)
  (active : Context) : M (Returned T) :=
  let spanName := default (caller_function caller) (wt_name opts) in
  let spanOptions := withTrace_spanOptions caller opts in
  let parentContext := withTrace_parentContext opts active in
  context_with parentContext (fun active' =>
    startActiveSpan spanName (Some spanOptions) None (withTrace_callback fn) active').

(** ** Callbacks as programs over their span

    What application code can do with the span it is handed: any sequence
    of calls of the span's methods, and then settle. *)
Inductive SpanOp :=
| OpSetAttribute (key : string) (value : AttributeValue)
| OpSetAttributes (attributes : Attributes)
| OpAddEvent (name : string) (attributesOrStartTime : option AttributesOrTime)
             (startTime : option TimeInput)
| OpAddLink (link : Link)
| OpAddLinks (links : list Link)
| OpSetStatus (status : SpanStatus)
| OpUpdateName (name : string)
| OpRecordException (exception : Thrown) (time : option TimeInput)
| OpEnd (endTime : option TimeInput).

Definition apply_op (sp : Span) (op : SpanOp) : World -> World :=
  match op with
  | OpSetAttribute k v => setAttribute sp k v
  | OpSetAttributes a => setAttributes sp a
  | OpAddEvent n a t => addEvent sp n a t
  | OpAddLink l => addLink sp l
  | OpAddLinks ls => addLinks sp ls
  | OpSetStatus st => setStatus sp st
  | OpUpdateName n => updateName sp n
  | OpRecordException e t => recordException sp e t
  | OpEnd t => span_end sp t
  end.

Definition apply_ops (sp : Span) (ops : list SpanOp) (w : World) : World :=
  List.fold_left (fun w op => apply_op sp op w) ops w.

Record UserFn (T : Type) := mkUserFn {
  fn_ops : list SpanOp;
  fn_completion : Completion (Returned T)
}.
Arguments mkUserFn {T} fn_ops fn_completion.
Arguments fn_ops {T} u.
Arguments fn_completion {T} u.

Definition run_user {T} (u : UserFn T) : Callback T :=
  fun span _ w => (apply_ops span (fn_ops u) w, fn_completion u).

(** ** Vocabulary for the properties *)

Definition is_end (op : SpanOp) : bool :=
  match op with OpEnd _ => true | _ => false end.

Definition is_setStatus (op : SpanOp) : bool :=
  match op with OpSetStatus _ => true | _ => false end.

(** What [startActiveSpan] does to the span once the callback has settled,
    as a sequence of calls. *)
Definition tracer_reaction {T} (c : Completion (Returned T)) : list SpanOp :=
  match c with
  | Normal (Plain _) | Normal (Promise (Fulfilled _)) => [OpEnd None]
  | Normal (Promise (Rejected e)) | Throw e =>
      [OpRecordException e None; OpSetStatus (mkStatus ERROR None); OpEnd None]
  end.

(** What [withTrace]'s own wrapper does before handing the settlement on. *)
Definition withTrace_reaction {T} (c : Completion (Returned T)) : list SpanOp :=
  match c with
  | Normal (Plain _) | Normal (Promise (Fulfilled _)) => [OpEnd None]
  | Normal (Promise (Rejected e)) | Throw e => [OpRecordException e None; OpEnd None]
  end.

(** ** Concrete inputs *)

Definition sample_world : World :=
  mkWorld [] (Some []) (fun _ => Byte.x2a) 0 (fun n => inject_Z (Z.of_nat n)) 0.

Definition sample_error : Thrown := ThrownError "TypeError" "bad input" (Some "at handler").

(** A callback that does what [withTrace]'s wrapper does on rejection:
    records the exception, ends the span, and rejects. *)
Definition self_ending_callback : Callback unit :=
  run_user (mkUserFn [OpRecordException sample_error None; OpEnd None]
              (Normal (Promise (Rejected sample_error)))).

(** A callback that ends its span and then rejects. *)
Definition end_then_reject : Callback unit :=
  run_user (mkUserFn [OpEnd None] (Normal (Promise (Rejected sample_error)))).

(** An awaitable that is not a [Promise]: an object with a [then] method
    of its own, given by how it settles. [result instanceof Promise] is
    false of it. *)
Inductive Thenable (T : Type) :=
| mkThenable (settles : Settled T).
Arguments mkThenable {T} settles.

(** A callback that leaves its span alone and returns an awaitable of that
    kind, which rejects. *)
Definition rejecting_thenable : Callback (Thenable unit) :=
  run_user (mkUserFn [] (Normal (Plain (mkThenable (Rejected sample_error))))).

End SpanEngine.

(* ===================================================================== *)
(** * OTLP exporter (src/otlp.ts)                                         *)
(* ===================================================================== *)

Module Exporter.
Import JsObject.
Import SpanEngine.

(** ** Attribute encoding

    The runtime's own types and built-ins are parameters: numbers with
    [Number.isInteger] and [toString], dates with [toISOString], the values
    whose [typeof] is none of the tested ones (functions, symbols, bigints)
    with [String(value)], and [JSON.stringify]. *)
Section Encoding.

Variable Number : Type.
Variable Number_isInteger : Number -> bool.
Variable Number_toString : Number -> string.
Variable Date : Type.
Variable toISOString : Date -> string.
Variable Other : Type.
Variable String_of : Other -> string.

(** An attribute value as the encoder sees it. An object that is neither
    an array nor a [Date], whether a plain object or an instance of some
    class (a [Map], an [Error]), is given by its [Object.entries] list:
    its own enumerable string-keyed properties, of which a [Map] or an
    [Error] has none. *)
Inductive value :=
| VNull
| VUndefined
| VString (s : string)
| VNumber (n : Number)
| VBoolean (b : bool)
| VArray (items : list value)
| VDate (d : Date)
| VObject (entries : list (string * value))
| VOther (o : Other).

Variable JSON_stringify : value -> string.

(** The fields of [OTLPAnyValue] the encoder sets. *)
Inductive OTLPAnyValue :=
| stringValue (s : string)
| intValue (s : string)
| doubleValue (n : Number)
| boolValue (b : bool).

Record OTLPKeyValue := mkKeyValue {
  key : string;
  kv_value : OTLPAnyValue
}.

(** [prefix ? `${prefix}.${key}` : key] *)
Definition newKey (prefix key : string) : string :=
  if String.eqb prefix "" then key else (prefix ++ "." ++ key)%string.

(** [value !== null && typeof value === "object" && !Array.isArray(value)
    && !(value instanceof Date)] *)
Definition is_nested (v : value) : bool :=
  match v with
  | VObject _ => true
  | _ => false
  end.

(** [result[newKey] = value] on [result], which [flattenAttributes] made
    with [{}]. Under the key [__proto__] this is no own property: the
    assignment reaches the setter inherited from [Object.prototype], which
    replaces the prototype of [result] when the value is an object or
    [null] and does nothing otherwise. A key is assigned this way at most
    once per [result] (a new key is [__proto__] only when it is a key of
    the object being flattened), so the setter is always the one reached
    and [result] never has an own property [__proto__]. The prototype is
    not part of [props]: nothing downstream reads it, as
    [Object.entries] and [Object.assign] go by own properties. Later
    assignments to [result] are ordinary whatever the new prototype,
    unless it holds a read-only property of the same name (a frozen array,
    or a function with its [name] and [length]); such a value under an own
    key [__proto__] is outside this embedding. *)
Definition assign (k : string) (v : value) (result : props value) : props value :=
  if String.eqb k "__proto__" then result else obj_set k v result.

(** One turn of the loop of [flattenAttributes] on an entry whose new key
    is already computed; the object case is the recursive call
    [Object.assign(result, flattenAttributes(value, newKey))], whose
    source never has an own property [__proto__]. *)
Fixpoint flattenEntry (k : string) (v : value) (result : props value) : props value :=
  match v with
  | VObject entries =>
      Object_assign result
        ((fix loop (es : list (string * value)) (acc : props value) : props value :=
            match es with
            | [] => acc
            | (key, v') :: rest => loop rest (flattenEntry (newKey k key) v' acc)
            end) entries [])
  | _ => assign k v result
  end.

Definition flattenAttributes (obj : list (string * value)) (prefix : string) : props value :=
  List.fold_left (fun result kv => flattenEntry (newKey prefix (fst kv)) (snd kv) result) obj [].

Definition toOTLPValue (v : value) : OTLPAnyValue :=
  match v with
  | VNull | VUndefined => stringValue ""
  | VString s => stringValue s
  | VNumber n => if Number_isInteger n then intValue (Number_toString n) else doubleValue n
  | VBoolean b => boolValue b
  | VArray _ => stringValue (JSON_stringify v)
  | VDate d => stringValue (toISOString d)
  | VObject _ => stringValue (JSON_stringify v)
  | VOther o => stringValue (String_of o)
  end.

Definition attributesToOTLP (attrs : list (string * value)) : list OTLPKeyValue :=
  List.map (fun kv => mkKeyValue (fst kv) (toOTLPValue (snd kv)))
    (Object_entries (flattenAttributes attrs "")).

(** ** The specification's vocabulary: dot-joined key paths

    The leaves of a value, each with the path of keys that leads to it
    joined by dots. Arrays, dates and [null] are leaves. *)
Fixpoint leaves (path : string) (v : value) : list (string * value) :=
  match v with
  | VObject entries =>
      (fix each (es : list (string * value)) : list (string * value) :=
         match es with
         | [] => []
         | (key, v') :: rest => leaves (newKey path key) v' ++ each rest
         end) entries
  | _ => [(path, v)]
  end.

Definition leaf_paths (obj : list (string * value)) (prefix : string) : list (string * value) :=
  List.flat_map (fun kv => leaves (newKey prefix (fst kv)) (snd kv)) obj.

(** The value a list of bindings gives a key when later bindings win. *)
Definition last_binding {A} (k : string) (l : list (string * A)) : option A :=
  List.fold_left (fun acc kv => if String.eqb (fst kv) k then Some (snd kv) else acc) l None.

End Encoding.

Arguments VNull {Number Date Other}.
Arguments VUndefined {Number Date Other}.
Arguments VString {Number Date Other} s.
Arguments VNumber {Number Date Other} n.
Arguments VBoolean {Number Date Other} b.
Arguments VArray {Number Date Other} items.
Arguments VDate {Number Date Other} d.
Arguments VObject {Number Date Other} entries.
Arguments VOther {Number Date Other} o.
Arguments stringValue {Number} s.
Arguments intValue {Number} s.
Arguments doubleValue {Number} n.
Arguments boolValue {Number} b.
Arguments mkKeyValue {Number} key kv_value.

(** ** Export transport

    The request body is built by [buildTraceExportRequest] /
    [buildLogExportRequest] and serialised by [JSON.stringify]. Both can
    throw ([BigInt(NaN)] for a timestamp that is not a number, an attribute
    array that [JSON.stringify] refuses), and where they are called decides
    what becomes of that: the builders run before the [try] block, the
    serialisation inside it. What they produce plays no part in how
    failures are handled, so they are parameters here, given by how they
    complete, as are the exportable span and log entry types. The transport
    [fetchFn] ([getOriginalFetch() ?? globalThis.fetch]) is the
    environment: for a URL and a request it either throws at the call or
    returns a promise, and then says how that promise settles.
    [console.error] appends to the console. *)

Record OTLPExporterConfig := mkConfig {
  endpoint : string;
  headers : props string;
  serviceName : option string;
  resourceAttributes : option (props string)
}.

Record RequestInit := mkRequestInit {
  init_method : string;
  init_headers : props string;
  init_body : string
}.

(** A response: its status line and how [response.text()] settles. *)
Record Response := mkResponse {
  status : Z;
  statusText : string;
  text : Settled string
}.

(** [response.ok]: the status is in the range 200-299. *)
Definition ok (r : Response) : bool := ((200 <=? status r) && (status r <=? 299))%Z.

Inductive ConsoleArg :=
| Text (s : string)
| Caught (e : Thrown).

(** The calls of [console.error] so far, oldest first. *)
Definition Console : Type := list (list ConsoleArg).

Definition console_error (args : list ConsoleArg) : ST Console unit :=
  lift (fun console => console ++ [args]).

Section Transport.

Variable ExportableSpan : Type.
Variable LogEntry : Type.
Variable Body : Type.
Variable buildTraceExportRequest :
  list ExportableSpan -> string -> option (props string) -> Completion Body.
Variable buildLogExportRequest :
  list LogEntry -> string -> option (props string) -> Completion Body.
Variable JSON_stringify : Body -> Completion string.
Variable status_toString : Z -> string.
Variable fetchFn : string -> RequestInit -> Completion (Settled Response).

(** [{ "Content-Type": "application/json", ...config.headers }] *)
Definition request_headers (config : OTLPExporterConfig) : props string :=
  Object_assign (obj_set "Content-Type" "application/json" []) (headers config).

(** The second argument of [fetchFn], once the body is serialised. *)
Definition export_request (config : OTLPExporterConfig) (body : string) : RequestInit :=
  mkRequestInit "POST" (request_headers config) body.

Definition exportTraces (config : OTLPExporterConfig) (spans : list ExportableSpan)
  (serviceName' : string) : Console -> Console * Settled unit :=
  async
    (if Nat.eqb (List.length spans) 0 then ret tt
     else
       let url := (endpoint config ++ "/v1/traces")%string in
       let* body :=
         call (buildTraceExportRequest spans (default serviceName' (serviceName config))
                 (resourceAttributes config)) in
       try_catch
         (let* serialised := call (JSON_stringify body) in
          let* pending := call (fetchFn url (export_request config serialised)) in
          let* response := await pending in
          if negb (ok response)
          then console_error
                 [Text ("OTLP trace export failed: " ++ status_toString (status response)
                        ++ " " ++ statusText response)%string]
          else ret tt)
         (fun error => console_error [Text "OTLP trace export error:"; Caught error])).

Definition exportLogs (config : OTLPExporterConfig) (logs : list LogEntry)
  (serviceName' : string) : Console -> Console * Settled unit :=
  async
    (if Nat.eqb (List.length logs) 0 then ret tt
     else
       let url := (endpoint config ++ "/v1/logs")%string in
       let effectiveServiceName := default serviceName' (serviceName config) in
       let* body :=
         call (buildLogExportRequest logs effectiveServiceName (resourceAttributes config)) in
       try_catch
         (let* serialised := call (JSON_stringify body) in
          let* pending := call (fetchFn url (export_request config serialised)) in
          let* response := await pending in
          if negb (ok response)
          then
            let* text := await (text response) in
            console_error
              [Text ("[otel-cloudflare] OTLP log export failed: "
                     ++ status_toString (status response) ++ " " ++ statusText response)%string;
               Text text]
          else ret tt)
         (fun error =>
            console_error [Text "[otel-cloudflare] OTLP log export error:"; Caught error])).

End Transport.

(** ** Concrete inputs *)

(** What [msToNanoString] throws, and the request builders with it, for a
    span whose start or end time is [NaN]: [BigInt(Math.floor(NaN))]. *)
Definition nan_time_error : Thrown :=
  ThrownError "RangeError"
    "The number NaN cannot be converted to a BigInt because it is not an integer" None.

(** What [JSON.stringify] throws inside [toOTLPValue], and the request
    builders with it, for an attribute that is an array containing itself. *)
Definition circular_array_error : Thrown :=
  ThrownError "TypeError" "Converting circular structure to JSON" None.

(** A transport that always answers 200. *)
Definition answering_fetch : string -> RequestInit -> Completion (Settled Response) :=
  fun _ _ => Normal (Fulfilled (mkResponse 200 "OK" (Fulfilled ""))).

End Exporter.


(* ===================================================================== *)
(** * Request adapters (src/instrument.ts, src/flush.ts)                  *)
(* ===================================================================== *)

Module Adapters.
Import JsObject.
Import SpanEngine.
Import Exporter (Response, mkResponse).

(** An entry of an ignore list: a string, or a [RegExp]. A [RegExp] is an
    object with a state: with the [g] or [y] flag its [test] starts the
    search at [lastIndex] and moves it, without them it leaves it alone.
    The entry is the object as it stands when the list is used: its
    [lastIndex], and its [test] as a function of that index and the text,
    answering with the result and the index it leaves. *)
Inductive Pattern :=
| PString (s : string)
| PRegExp (lastIndex : nat) (test : nat -> string -> bool * nat).

Definition DEFAULT_IGNORE_URLS : list Pattern :=
  [PString "/health"; PString "/healthz"; PString "/ready"; PString "/readyz";
   PString "/live"; PString "/livez"; PString "/ping"].

(** An inbound request, with the [pathname] that [new URL(request.url)]
    gives and its [traceparent] header. Responses are the exporter's
    [Response]. *)
Record Request := mkRequest {
  req_method : string;
  req_url : string;
  req_pathname : string;
  req_traceparent : option string
}.

Definition shouldIgnoreUrl (request : Request) (ignoreUrls : option (list Pattern)) : bool :=
  let patterns := default DEFAULT_IGNORE_URLS ignoreUrls in
  if Nat.eqb (List.length patterns) 0 then false
  else
    let pathname := req_pathname request in
    existsb (fun pattern =>
               match pattern with
               | PString s => String.eqb pathname s
               | PRegExp lastIndex test => fst (test lastIndex pathname)
               end) patterns.

(** The list as [shouldIgnoreUrl] leaves it: [some] stops at the first
    entry that answers [true], and each [RegExp] it has tested keeps the
    [lastIndex] its [test] left. *)
Fixpoint tested (pathname : string) (patterns : list Pattern) : list Pattern :=
  match patterns with
  | [] => []
  | PString s :: rest =>
      PString s :: (if String.eqb pathname s then rest else tested pathname rest)
  | PRegExp lastIndex test :: rest =>
      PRegExp (snd (test lastIndex pathname)) test
      :: (if fst (test lastIndex pathname) then rest else tested pathname rest)
  end.

(** The specification's wording of a match. *)
Definition matches (pathname : string) (pattern : Pattern) : Prop :=
  match pattern with
  | PString s => pathname = s
  | PRegExp lastIndex test => fst (test lastIndex pathname) = true
  end.

(** The span engine's world together with the exporter's outbox: the
    batches of spans handed to [exportTraces], oldest first. *)
Record Runtime := mkRuntime {
  world : World;
  traceExports : list (list nat)
}.

Definition with_world (w : World) (rt : Runtime) : Runtime :=
  mkRuntime w (traceExports rt).

(** A handler's promise: the state it leaves and how it settles. *)
Definition Async (T : Type) : Type := Runtime -> Runtime * Settled T.

(** [initOTLP], as far as spans go: a processor is registered unless one
    already is. *)
Definition initOTLP (rt : Runtime) : Runtime :=
  match getSpanProcessor (world rt) with
  | Some _ => rt
  | None => with_world (setSpanProcessor (Some []) (world rt)) rt
  end.

(** [spanProcessor.clear()] *)
Definition spanProcessor_clear (rt : Runtime) : Runtime :=
  match getSpanProcessor (world rt) with
  | Some _ => with_world (setSpanProcessor (Some []) (world rt)) rt
  | None => rt
  end.

(** [flushCtx.flush()], as far as spans go, for a flush context whose
    processor is still the registered one and for a program that ends no
    span while the export is awaited: without a configuration the buffer is
    dropped; with one, a non-empty buffer is handed to [exportTraces] and
    the buffer is cleared whatever the export did. The general case is
    [Lifecycle.context_flush]. *)
Definition flush (config : option Exporter.OTLPExporterConfig) (rt : Runtime) : Runtime :=
  match config with
  | None => spanProcessor_clear rt
  | Some _ =>
      let spans := default [] (getSpanProcessor (world rt)) in
      let rt' :=
        if Nat.ltb 0 (List.length spans)
        then mkRuntime (world rt) (traceExports rt ++ [spans])
        else rt in
      spanProcessor_clear rt'
  end.

Section Wrappers.

(** The traced branches of the two adapters (SERVER span, body capture,
    request log, response header) are not what the ignore list is about;
    they are parameters. *)
Variable traced_fetch :
  (Request -> Context -> Async Response) -> Request -> Context -> Async Response.
Variable traced_handler :
  option Exporter.OTLPExporterConfig ->
  Request -> (Span -> Context -> Async Response) -> Context -> Async Response.

(** [instrument(handler, options).fetch]: the ignore test comes first, an
    ignored request goes straight to the original handler. *)
Definition instrumented_fetch (originalFetch : Request -> Context -> Async Response)
  (ignoreUrls : option (list Pattern)) (request : Request) (active : Context)
  : Async Response :=
  if shouldIgnoreUrl request ignoreUrls
  then originalFetch request active
  else traced_fetch originalFetch request active.

(** [traceHandler(ctx, request, handler, options)]: [initOTLP] first; for
    an ignored request a span named ["noop"] is started through the tracer
    and ended at once, then handed to the handler; [finally] flushes. *)
Definition traceHandler (config : option Exporter.OTLPExporterConfig) (request : Request)
  (handler : Span -> Context -> Async Response) (ignoreUrls : option (list Pattern))
  (active : Context) : Async Response :=
  fun rt =>
    let rt1 := initOTLP rt in
    let '(rt2, result) :=
      if shouldIgnoreUrl request ignoreUrls
      then
        let '(noopSpan, w1) := startSpan "noop" None None active (world rt1) in
        let w2 := span_end noopSpan None w1 in
        handler noopSpan active (with_world w2 rt1)
      else traced_handler config request handler active rt1 in
    (flush config rt2, result).

End Wrappers.

(** ** Concrete inputs *)

Definition health_check : Request := mkRequest "GET" "https://example.com/health" "/health" None.

Definition sample_config : Exporter.OTLPExporterConfig :=
  Exporter.mkConfig "https://otlp.example.com" [("Authorization", "Basic abc")] None None.

(** A handler that answers 200 and does nothing with its span. *)
Definition ok_handler : Span -> Context -> Async Response :=
  fun _ _ rt => (rt, Fulfilled (mkResponse 200 "OK" (Fulfilled "OK"))).

(** [/^\/internal\//], which has no flag and no use for [lastIndex], and
    [/^\/internal\//y], which matches at [lastIndex] only and leaves it
    behind the match, or at 0 after a failure. *)
Definition internal_prefix : Pattern :=
  PRegExp 0 (fun lastIndex s => (String.prefix "/internal/" s, lastIndex)).

Definition internal_prefix_sticky : Pattern :=
  PRegExp 0 (fun lastIndex s =>
               if Nat.eqb lastIndex 0 && String.prefix "/internal/" s then (true, 10)
               else (false, 0)).

(** A fresh invocation: nothing on the heap, no processor registered yet,
    nothing exported. *)
Definition fresh_runtime : Runtime :=
  mkRuntime (mkWorld [] None (fun _ => Byte.x2a) 0 (fun n => inject_Z (Z.of_nat n)) 0) [].

End Adapters.

(* ===================================================================== *)
(** * [TracedError[Symbol.hasInstance]] (src/error.ts)                     *)
(* ===================================================================== *)

Module ErrorChain.

(** The prototype objects that matter, by identity. *)
Inductive Prototype :=
| ObjectPrototype
| ErrorPrototype
| TracedErrorPrototype
| OtherPrototype (id : nat).

Definition Prototype_eqb (p q : Prototype) : bool :=
  match p, q with
  | ObjectPrototype, ObjectPrototype => true
  | ErrorPrototype, ErrorPrototype => true
  | TracedErrorPrototype, TracedErrorPrototype => true
  | OtherPrototype i, OtherPrototype j => Nat.eqb i j
  | _, _ => false
  end.

(** A value: a primitive, or a reference to an object on the heap. *)
Inductive JsValue :=
| JsUndefined
| JsNull
| JsPrimitive (truthy : bool)
| JsRef (address : nat).

(** An object: whether it is callable ([typeof] is ["function"]), its
    prototype chain (nearest first), and its [cause] property
    ([JsUndefined] when it has none). *)
Record HeapObject := mkObject {
  callable : bool;
  protoChain : list Prototype;
  cause : JsValue
}.

Definition Heap : Type := list HeapObject.

(** [!instance || typeof instance !== "object"] *)
Definition not_an_object (h : Heap) (instance : JsValue) : bool :=
  match instance with
  | JsUndefined | JsNull => true
  | JsPrimitive _ => true
  | JsRef a => match h !! a with Some o => callable o | None => true end
  end.

(** [current instanceof Error]: [Error.prototype] is on the prototype
    chain. *)
Definition instanceof_Error (h : Heap) (current : JsValue) : bool :=
  match current with
  | JsRef a =>
      match h !! a with
      | Some o => existsb (Prototype_eqb ErrorPrototype) (protoChain o)
      | None => false
      end
  | _ => false
  end.

(** [Object.getPrototypeOf(current) === TracedError.prototype] *)
Definition is_direct_TracedError (o : HeapObject) : bool :=
  match protoChain o with
  | p :: _ => Prototype_eqb p TracedErrorPrototype
  | [] => false
  end.

(** The [while] loop, with fuel: [None] when the fuel runs out. *)
Fixpoint walk (fuel : nat) (h : Heap) (current : JsValue) : option bool :=
  match fuel with
  | 0 => None
  | S fuel' =>
      if instanceof_Error h current then
        match current with
        | JsRef a =>
            match h !! a with
            | Some o =>
                if is_direct_TracedError o then Some true
                else walk fuel' h (cause o)
            | None => Some false
            end
        | _ => Some false
        end
      else Some false
  end.

Definition hasInstance (fuel : nat) (h : Heap) (instance : JsValue) : option bool :=
  if not_an_object h instance then Some false else walk fuel h instance.

(** ** The specification's vocabulary *)

Definition is_object (h : Heap) (e : JsValue) : Prop :=
  exists a o, e = JsRef a /\ h !! a = Some o /\ callable o = false.

Definition is_Error (o : HeapObject) : Prop := In ErrorPrototype (protoChain o).

Definition direct_prototype (o : HeapObject) : option Prototype := head (protoChain o).

(** Following [e], [e.cause], [e.cause.cause], ... while each element is an
    [Error], an object whose direct prototype is [TracedError.prototype] is
    reached. *)
Inductive reaches_TracedError (h : Heap) : JsValue -> Prop :=
| reaches_here (a : nat) (o : HeapObject) :
    h !! a = Some o -> is_Error o ->
    direct_prototype o = Some TracedErrorPrototype ->
    reaches_TracedError h (JsRef a)
| reaches_through_cause (a : nat) (o : HeapObject) :
    h !! a = Some o -> is_Error o ->
    reaches_TracedError h (cause o) ->
    reaches_TracedError h (JsRef a).

(** Causes are set when an error is constructed, so a cause is an older
    object: heaps built that way have no cycle of causes. *)
Definition causes_are_older (h : Heap) : Prop :=
  forall a o b, h !! a = Some o -> cause o = JsRef b -> b < a.

(** ** Concrete inputs *)

(** [new Error("outer", { cause: TracedError.fail("inner") })]: a plain
    [Error] at address 1 whose cause, at address 0, was constructed as a
    [TracedError]. *)
Definition wrapped_heap : Heap :=
  [mkObject false [TracedErrorPrototype; ErrorPrototype; ObjectPrototype] JsUndefined;
   mkObject false [ErrorPrototype; ObjectPrototype] (JsRef 0)].

End ErrorChain.

(* ===================================================================== *)
(** * Context propagation (src/provider.ts, src/instrument.ts)            *)
(* ===================================================================== *)

Module Propagation.
Import JsObject.
Import SpanEngine.

(** [getTraceparent]: the wire string of the active span, [None] (the
    source's [null]) when no span is active. *)
Definition getTraceparent (active : Context) (w : World) : option string :=
  match getSpan active with
  | None => None
  | Some span => toTraceparent <$> spanContext w span
  end.

(** [withParentTrace(parent, fn)]: [fn] takes no argument; it runs under
    the context it is given. *)
Definition withParentTrace {T} (parent : Parent) (fn : Context -> M T) (active : Context)
  : M T :=
  let spanContext :=
    match parent with
    | ParentTraceparent s => spanContextFromTraceparent s
    | ParentSpanContext sc => Some sc
    end in
  match spanContext with
  | None => fn active
  | Some sc =>
      let parentSpan := wrapSpanContext sc in
      let parentContext := setSpan active parentSpan in
      context_with parentContext fn
  end.

(** ** Queue messages (src/instrument.ts) *)

(** A property value of a message body: a string, or anything else. *)
Inductive BodyValue :=
| BString (s : string)
| BOther (tag : nat).

(** A message body as the consumer receives it: an object, or a value that
    is no object ([null], a primitive). *)
Inductive Body :=
| BodyObject (o : props BodyValue)
| BodyNotObject (tag : nat).

Definition TRACE_CONTEXT_KEY : string := "_traceparent".

(** [withTraceContext(body)]: [{ ...body, _traceparent }] under an active
    span, the body itself otherwise. *)
Definition withTraceContext (body : props BodyValue) (active : Context) (w : World)
  : props BodyValue :=
  match getTraceparent active w with
  | Some traceparent =>
      obj_set TRACE_CONTEXT_KEY (BString traceparent) (Object_assign [] body)
  | None => body
  end.

Definition extractSpanContextFromMessage (body : Body) : option SpanContext :=
  match body with
  | BodyObject o =>
      match obj_get TRACE_CONTEXT_KEY o with
      | Some (BString s) => spanContextFromTraceparent s
      | _ => None
      end
  | BodyNotObject _ => None
  end.

(** ** Application code for the properties *)

(** A function that starts a span under the context it runs in, as
    [tracer.startSpan(name, options)] in application code does. *)
Definition start_span (name : string) (options : option SpanOptions) : Context -> M Span :=
  fun active w =>
    let '(span, w') := startSpan name options None active w in (w', Normal span).

(** A callback for [startActiveSpan] that starts a span of its own and
    returns it. *)
Definition start_inner (name : string) (options : option SpanOptions) : Callback Span :=
  fun _ active => let* inner := start_span name options active in ret (Plain inner).

(** A world holding one recording span with well-formed ids, for concrete
    runs. *)
Definition world_with_span : World :=
  snd (startSpan "producer" None None ROOT_CONTEXT sample_world).

End Propagation.

(* ===================================================================== *)
(** * Collecting and flushing (src/flush.ts, src/provider.ts)             *)
(* ===================================================================== *)

Module Lifecycle.
Import JsObject.
Import SpanEngine.
Import Adapters.

(** [flushTraces(config, serviceName)]: the processor is read from the
    module-level slot at the call; nothing happens without one or with an
    empty buffer. The export is awaited inside [try], so [clear()] is
    reached however it settles. *)
Definition flushTraces (config : Exporter.OTLPExporterConfig) (rt : Runtime) : Runtime :=
  match getSpanProcessor (world rt) with
  | None => rt
  | Some spans =>
      if Nat.eqb (List.length spans) 0 then rt
      else spanProcessor_clear (mkRuntime (world rt) (traceExports rt ++ [spans]))
  end.

(** [flushCtx.shutdown()], for a flush context whose processor is the one
    registered: [flush()], then the slot is emptied. *)
Definition shutdown (config : option Exporter.OTLPExporterConfig) (rt : Runtime) : Runtime :=
  let rt1 := flush config rt in
  with_world (setSpanProcessor None (world rt1)) rt1.

(** ** The flush context of [initOTLP]

    The context keeps the processor that [initOTLP] found in the
    module-level slot or put there, and its [flush()] works on that object
    whatever the slot holds by then. The engine's world carries the buffer
    of the registered processor only, so the captured processor is given by
    where its buffer is: in the slot, or with the context once the slot has
    been given another processor or none. Processors are
    [SimpleSpanProcessor]s. *)
Inductive Captured :=
| InSlot
| Replaced (spans : list nat).

(** [spanProcessor.getSpans()] *)
Definition captured_spans (p : Captured) (rt : Runtime) : list nat :=
  match p with
  | InSlot => default [] (getSpanProcessor (world rt))
  | Replaced spans => spans
  end.

(** [spanProcessor.clear()] *)
Definition captured_clear (p : Captured) (rt : Runtime) : Captured * Runtime :=
  match p with
  | InSlot => (InSlot, spanProcessor_clear rt)
  | Replaced _ => (Replaced [], rt)
  end.

(** Calls on spans, made by the rest of the program. *)
Definition apply_calls (calls : list (Span * SpanOp)) (w : World) : World :=
  List.fold_left (fun w c => apply_op (fst c) (snd c) w) calls w.

(** [flushCtx.flush()], as far as spans go. Without a configuration the
    captured processor is cleared at once. With one, its buffer is copied
    and, when not empty, handed to [exportTraces], which builds its request
    from it before it first waits; the processor is cleared after the
    [await], and [calls] is what the rest of the program does to spans in
    between. *)
Definition context_flush (config : option Exporter.OTLPExporterConfig) (p : Captured)
  (calls : list (Span * SpanOp)) (rt : Runtime) : Captured * Runtime :=
  match config with
  | None => captured_clear p rt
  | Some _ =>
      let spans := captured_spans p rt in
      let rt1 :=
        if Nat.ltb 0 (List.length spans)
        then mkRuntime (world rt) (traceExports rt ++ [spans])
        else rt in
      captured_clear p (with_world (apply_calls calls (world rt1)) rt1)
  end.

(** ** Vocabulary for the properties *)

(** The buffer of the registered processor holds no span twice, and every
    span in it is on the heap, ended, with its end time set. *)
Definition collected_are_ended (w : World) : Prop :=
  forall spans, getSpanProcessor w = Some spans ->
    NoDup spans /\
    forall r, r ∈ spans ->
      exists this, heap w !! r = Some this /\ _ended this = true /\ is_Some (_endTime this).

(** The attribute writes a call makes on a span that is still recording. *)
Definition attribute_writes (op : SpanOp) : list (string * AttributeValue) :=
  match op with
  | OpSetAttribute key value => [(key, value)]
  | OpSetAttributes attributes => Object_entries attributes
  | _ => []
  end.

(** ** Concrete inputs *)

(** A processor is registered and holds span 0, which has ended; span 1 is
    still recording. *)
Definition one_collected_one_open : Runtime :=
  let rt := initOTLP fresh_runtime in
  let '(first, w1) := startSpan "first" None None ROOT_CONTEXT (world rt) in
  let w2 := span_end first None w1 in
  let '(_, w3) := startSpan "second" None None ROOT_CONTEXT w2 in
  with_world w3 rt.

End Lifecycle.

(* ===================================================================== *)
(** * OTLP timestamps and enum values (src/otlp.ts)                       *)
(* ===================================================================== *)

Module Timestamps.
Import SpanEngine.

(** [BigInt.prototype.toString()]: decimal digits, a leading minus sign for
    a negative value. *)
Definition BigInt_toString (z : Z) : string := NilZero.string_of_int (Z.to_int z).

(** Milliseconds are finite numbers, here rationals; [BigInt] of a floored
    number is that integer. *)
Definition msToNanoString (ms : Q) : string :=
  BigInt_toString (Qfloor ms * 1000000).

(** The offset is the index of a log entry in its batch. *)
Definition msToNanoStringWithOffset (ms : Q) (offsetMicros : nat) : string :=
  let nanos := (Qfloor ms * 1000000 + Z.of_nat offsetMicros * 1000)%Z in
  BigInt_toString nanos.

Definition spanKindToOTLP (kind : SpanKind) : Z :=
  match kind with
  | INTERNAL => 1
  | SERVER => 2
  | CLIENT => 3
  | PRODUCER => 4
  | CONSUMER => 5
  end.

Definition statusCodeToOTLP (code : SpanStatusCode) : Z :=
  match code with
  | OK => 1
  | ERROR => 2
  | UNSET => 0
  end.

End Timestamps.

(* ===================================================================== *)
(** * Caller locations (src/caller.ts)                                    *)
(* ===================================================================== *)

Module Caller.
Import JsObject.
Import SpanEngine.

(** [class CallerInfo]: every field may be [undefined]; [line] and
    [column] come from [parseInt] and are integers. *)
Inductive CallerFrame := mkCaller {
  file : option string;
  _function : option string;
  line : option Z;
  column : option Z;
  parent : option CallerFrame
}.

(** Truthiness of an optional string and of an optional number. *)
Definition truthy_string (s : option string) : bool :=
  match s with
  | Some s => negb (String.eqb s "")
  | None => false
  end.

Definition truthy_number (n : option Z) : bool :=
  match n with
  | Some n => negb (Z.eqb n 0)
  | None => false
  end.

(** [get function()]: the frame's own name unless it is missing, empty or
    ["<anonymous>"]; else the parent's; else the empty string. *)
Fixpoint function (this : CallerFrame) : string :=
  match this with
  | mkCaller _ fn _ _ parent =>
      let own :=
        match fn with
        | Some name =>
            if negb (String.eqb name "") && negb (String.eqb name "<anonymous>")
            then Some name else None
        | None => None
        end in
      match own with
      | Some name => name
      | None =>
          match parent with
          | Some p => function p
          | None => ""
          end
      end
  end.

Definition isEmpty (this : CallerFrame) : bool :=
  negb (truthy_string (file this)) && negb (truthy_string (_function this))
  && negb (truthy_number (line this)).

(** [toAttributes()]: the [code.*] attributes, set in this order. *)
Definition toAttributes (this : CallerFrame) : Attributes :=
  let attrs : Attributes := [] in
  let attrs :=
    match file this with
    | Some f => if truthy_string (Some f) then obj_set "code.filepath" (AString f) attrs else attrs
    | None => attrs
    end in
  let attrs :=
    match line this with
    | Some l =>
        if truthy_number (Some l) then obj_set "code.lineno" (ANumber (inject_Z l)) attrs
        else attrs
    | None => attrs
    end in
  let attrs :=
    match column this with
    | Some c =>
        if truthy_number (Some c) then obj_set "code.column" (ANumber (inject_Z c)) attrs
        else attrs
    | None => attrs
    end in
  if negb (String.eqb (function this) "")
  then obj_set "code.function" (AString (function this)) attrs
  else attrs.

(** What [withTrace] reads of a caller. *)
Definition as_CallerInfo (this : CallerFrame) : CallerInfo :=
  mkCallerInfo (function this) (toAttributes this).

(** ** Vocabulary for the properties *)

(** The frame and its ancestors, nearest first. *)
Fixpoint ancestry (this : CallerFrame) : list CallerFrame :=
  match this with
  | mkCaller _ _ _ _ parent =>
      this :: match parent with
              | Some p => ancestry p
              | None => []
              end
  end.

(** A frame that carries a usable name of its own. *)
Definition named_frame (c : CallerFrame) : bool :=
  match _function c with
  | Some name => negb (String.eqb name "") && negb (String.eqb name "<anonymous>")
  | None => false
  end.

(** An anonymous callback at [handler.ts:10:5] called from [handleOrder]. *)
Definition sample_caller : CallerFrame :=
  mkCaller (Some "/src/handler.ts") (Some "<anonymous>") (Some 10%Z) (Some 5%Z)
    (Some (mkCaller (Some "/src/handler.ts") (Some "handleOrder") (Some 3%Z) (Some 1%Z) None)).

End Caller.

(* ===================================================================== *)
(** * Log records (src/otlp.ts, src/logger.ts)                            *)
(* ===================================================================== *)

Module Logs.
Import JsObject.
Import Exporter.
Import Timestamps.

Inductive LogLevel := LogTrace | LogDebug | LogInfo | LogWarn | LogError | LogFatal.

(** The string a level is in the source. *)
Definition level_text (level : LogLevel) : string :=
  match level with
  | LogTrace => "trace"
  | LogDebug => "debug"
  | LogInfo => "info"
  | LogWarn => "warn"
  | LogError => "error"
  | LogFatal => "fatal"
  end.

Definition logLevelToSeverity (level : LogLevel) : Z :=
  match level with
  | LogTrace => 1
  | LogDebug => 5
  | LogInfo => 9
  | LogWarn => 13
  | LogError => 17
  | LogFatal => 21
  end.

(** [String.prototype.toUpperCase] on the letters a to z. *)
Definition toUpperCase (s : string) : string :=
  string_of_list_ascii
    (List.map (fun c => let n := nat_of_ascii c in
                        if (97 <=? n)%nat && (n <=? 122)%nat then ascii_of_nat (n - 32) else c)
       (list_ascii_of_string s)).

Section LogEncoding.

Variable Number : Type.
Variable Number_isInteger : Number -> bool.
Variable Number_toString : Number -> string.
Variable Date : Type.
Variable toISOString : Date -> string.
Variable Other : Type.
Variable String_of : Other -> string.
Variable JSON_stringify : value Number Date Other -> string.

(** [interface LogEntry]; [timestamp] is given by its [getTime()], a finite
    number of milliseconds. *)
Record LogEntry := mkLogEntry {
  level : LogLevel;
  log_message : string;
  timestamp : Q;
  log_attributes : list (string * value Number Date Other);
  log_traceId : option string;
  log_spanId : option string;
  caller : option Caller.CallerFrame
}.

Record OTLPLogRecord := mkLogRecord {
  timeUnixNano : string;
  severityNumber : Z;
  severityText : string;
  body : OTLPAnyValue Number;
  record_attributes : list (OTLPKeyValue Number);
  droppedAttributesCount : Z;
  record_traceId : option string;
  record_spanId : option string
}.

(** [logToOTLP(entry, offsetMicros)]; an integer line number prints as its
    decimal digits. *)
Definition logToOTLP (entry : LogEntry) (offsetMicros : nat) : OTLPLogRecord :=
  let attrs :=
    attributesToOTLP Number Number_isInteger Number_toString Date toISOString Other String_of
      JSON_stringify (log_attributes entry) in
  let attrs :=
    match caller entry with
    | Some c =>
        if negb (Caller.isEmpty c) then
          let attrs :=
            attrs ++ [mkKeyValue "code.filepath" (stringValue (default "" (Caller.file c)))] in
          let attrs :=
            match Caller.line c with
            | Some l =>
                if Caller.truthy_number (Some l)
                then attrs ++ [mkKeyValue "code.lineno" (intValue (BigInt_toString l))]
                else attrs
            | None => attrs
            end in
          if negb (String.eqb (Caller.function c) "")
          then attrs ++ [mkKeyValue "code.function" (stringValue (Caller.function c))]
          else attrs
        else attrs
    | None => attrs
    end in
  mkLogRecord
    (msToNanoStringWithOffset (timestamp entry) offsetMicros)
    (logLevelToSeverity (level entry))
    (toUpperCase (level_text (level entry)))
    (stringValue (log_message entry))
    attrs
    0
    (log_traceId entry)
    (log_spanId entry).

Record Scope := mkScope {
  scope_name : string;
  scope_version : string
}.

Record ScopeLogs := mkScopeLogs {
  scope : Scope;
  logRecords : list OTLPLogRecord
}.

Record ResourceLogs := mkResourceLogs {
  resource_attributes : list (OTLPKeyValue Number);
  scopeLogs : list ScopeLogs
}.

Record ExportLogsServiceRequest := mkLogsRequest {
  resourceLogs : list ResourceLogs
}.

(** [buildLogExportRequest(logs, serviceName, resourceAttributes, version)];
    the default of [version] is ["5.3.0"]. *)
Definition buildLogExportRequest (logs : list LogEntry) (serviceName : string)
  (resourceAttributes : option (props string)) (version : option string)
  : ExportLogsServiceRequest :=
  let attrs := [mkKeyValue "service.name" (stringValue serviceName)] in
  let attrs :=
    match resourceAttributes with
    | Some ra =>
        List.fold_left (fun attrs kv => attrs ++ [mkKeyValue (fst kv) (stringValue (snd kv))])
          (Object_entries ra) attrs
    | None => attrs
    end in
  mkLogsRequest
    [mkResourceLogs attrs
       [mkScopeLogs (mkScope "otel-cloudflare" (default "5.3.0" version))
          (imap (fun index log => logToOTLP log index) logs)]].

End LogEncoding.

Arguments level {Number Date Other} l.
Arguments log_message {Number Date Other} l.
Arguments timestamp {Number Date Other} l.
Arguments log_attributes {Number Date Other} l.
Arguments log_traceId {Number Date Other} l.
Arguments log_spanId {Number Date Other} l.
Arguments caller {Number Date Other} l.
Arguments timeUnixNano {Number} o.
Arguments severityNumber {Number} o.
Arguments severityText {Number} o.
Arguments body {Number} o.
Arguments record_attributes {Number} o.
Arguments record_traceId {Number} o.
Arguments record_spanId {Number} o.
Arguments mkScopeLogs {Number} scope logRecords.
Arguments logRecords {Number} s.
Arguments mkResourceLogs {Number} resource_attributes scopeLogs.
Arguments resource_attributes {Number} r.
Arguments scopeLogs {Number} r.
Arguments resourceLogs {Number} e.

End Logs.

(* ===================================================================== *)
(** * Configuration from the environment (src/otlp.ts)                    *)
(* ===================================================================== *)

Module Environment.
Import JsObject.
Import Codec.

(** White space and line terminators among the characters below 256. *)
Definition is_whitespace (c : ascii) : bool :=
  let n := nat_of_ascii c in
  Nat.eqb n 9 || Nat.eqb n 10 || Nat.eqb n 11 || Nat.eqb n 12 || Nat.eqb n 13
  || Nat.eqb n 32 || Nat.eqb n 160.

Fixpoint trimStart (s : string) : string :=
  match s with
  | EmptyString => EmptyString
  | String c rest => if is_whitespace c then trimStart rest else s
  end.

Definition reverse (s : string) : string :=
  string_of_list_ascii (List.rev (list_ascii_of_string s)).

Definition trimEnd (s : string) : string := reverse (trimStart (reverse s)).

(** [s.trim()] *)
Definition trim (s : string) : string := trimEnd (trimStart s).

(** [parts.join(sep)] *)
Fixpoint join_with (sep : string) (parts : list string) : string :=
  match parts with
  | [] => ""
  | [part] => part
  | part :: rest => part ++ sep ++ join_with sep rest
  end.

(** [result[key] = value] on an object made by [{}], for a string value:
    an assignment to ["__proto__"] reaches the setter inherited from
    [Object.prototype], which ignores a value that is no object, and makes
    no property. *)
Definition assign (key value : string) (result : props string) : props string :=
  if String.eqb key "__proto__" then result else obj_set key value result.

Definition parseResourceAttributes (attrString : option string) : props string :=
  match attrString with
  | None => []
  | Some s =>
      if String.eqb s "" then []
      else
        List.fold_left
          (fun result pair =>
             match split "=" pair with
             | key :: valueParts =>
                 if negb (String.eqb key "") && Nat.ltb 0 (List.length valueParts)
                 then assign (trim key) (trim (join_with "=" valueParts)) result
                 else result
             | [] => result
             end)
          (split "," s) []
  end.

(** ** Vocabulary for the properties *)

(** The pieces of an [OTEL_RESOURCE_ATTRIBUTES] string between commas: a
    key with a value, or text without an equals sign. *)
Inductive Segment :=
| Pair (key value : string)
| Junk (text : string).

Definition render (seg : Segment) : string :=
  match seg with
  | Pair key value => key ++ "=" ++ value
  | Junk text => text
  end.

Definition contains (c : ascii) (s : string) : bool :=
  existsb (Ascii.eqb c) (list_ascii_of_string s).

(** A key is not empty and has neither comma nor equals sign, and is not
    ["__proto__"] once trimmed; a value has no comma; other text has
    neither. *)
Definition well_formed (seg : Segment) : bool :=
  match seg with
  | Pair key value =>
      negb (String.eqb key "") && negb (contains "," key) && negb (contains "=" key)
      && negb (String.eqb (trim key) "__proto__") && negb (contains "," value)
  | Junk text => negb (contains "," text) && negb (contains "=" text)
  end.

Definition bindings (segs : list Segment) : list (string * string) :=
  List.flat_map (fun seg => match seg with
                            | Pair key value => [(trim key, trim value)]
                            | Junk _ => []
                            end) segs.

End Environment.

(* ===================================================================== *)
(** * Body capture for request logs (src/instrument.ts)                   *)
(* ===================================================================== *)

Module BodyCapture.
Import Codec.
Import Effects.
Import Environment.

Definition MAX_BODY_LOG_SIZE : nat := 8192.

Definition LOGGABLE_CONTENT_TYPES : list string :=
  ["application/json"; "application/x-www-form-urlencoded"; "text/plain"; "text/xml";
   "application/xml"].

(** [String.prototype.toLowerCase] on the letters A to Z. *)
Definition toLowerCase (s : string) : string :=
  string_of_list_ascii
    (List.map (fun c => let n := nat_of_ascii c in
                        if (65 <=? n)%nat && (n <=? 90)%nat then ascii_of_nat (n + 32) else c)
       (list_ascii_of_string s)).

Definition isLoggableContentType (contentType : option string) : bool :=
  match contentType with
  | None => false
  | Some ct =>
      if String.eqb ct "" then false
      else
        let base := toLowerCase (trim (List.hd "" (split ";" ct))) in
        existsb (String.eqb base) LOGGABLE_CONTENT_TYPES
  end.

(** What [reader.read()] settles to while the stream has something to
    give: a chunk, given by the text the streaming decoder makes of it, or
    a failure of the stream. After the last one the reader reports
    [done]. *)
Inductive Read :=
| Chunk (text : string)
| Failed (error : Thrown).

(** A [ReadableStream] that is not locked, by what its source will yield
    to a reader that reads it to the end. *)
Definition ReadableStream : Type := list Read.

(** The stream handed back with the text: the body itself, which nobody
    has read, or the second branch of [body.tee()], whose first branch has
    been read for the text and cancelled. The branch is given by its
    source. What it still yields is the engine's business (chunks queued
    for it are discarded when the source fails before they are read), and
    is not modelled. *)
Inductive ReturnedStream :=
| Untouched (body : ReadableStream)
| SecondBranch (source : ReadableStream).

(** [s.slice(0, n)] *)
Fixpoint slice_to (n : nat) (s : string) : string :=
  match n, s with
  | S n', String c rest => String c (slice_to n' rest)
  | _, _ => EmptyString
  end.

(** The [while] loop, for any bound. *)
Fixpoint read_loop (max : nat) (reads : ReadableStream) (result : string) : Completion string :=
  if Nat.ltb (String.length result) max then
    match reads with
    | [] => Normal result
    | Chunk text :: rest => read_loop max rest (result ++ text)
    | Failed error :: _ => Throw error
    end
  else Normal result.

(** [readBodyWithTruncate(body, contentType)]. The reader of the first
    branch of [body.tee()] sees the reads of the source in order;
    [finally] only cancels that reader. *)
Definition readBodyWithTruncate (body : option ReadableStream) (contentType : option string)
  : Settled (string * option ReturnedStream) :=
  match body with
  | None => Fulfilled ("", None)
  | Some stream =>
      if negb (isLoggableContentType contentType) then Fulfilled ("", Some (Untouched stream))
      else
        match read_loop MAX_BODY_LOG_SIZE stream "" with
        | Normal result =>
            let result :=
              if Nat.ltb MAX_BODY_LOG_SIZE (String.length result)
              then (slice_to MAX_BODY_LOG_SIZE result ++ "...[truncated]")%string
              else result in
            Fulfilled (result, Some (SecondBranch stream))
        | Throw error => Rejected error
        end
  end.

(** ** Vocabulary for the properties *)

(** The text of the first chunks of a stream, up to the first failure. *)
Fixpoint text_of (reads : ReadableStream) : string :=
  match reads with
  | Chunk text :: rest => (text ++ text_of rest)%string
  | _ => EmptyString
  end.

Definition fails (reads : ReadableStream) : bool :=
  existsb (fun r => match r with Failed _ => true | Chunk _ => false end) reads.

End BodyCapture.

(* ===================================================================== *)
(** * Constructing and inspecting [TracedError] (src/error.ts)            *)
(* ===================================================================== *)

Module ErrorOps.
Import ErrorChain.

(** [new TracedError(message, cause, options, callerDepth)], as far as the
    cause chain goes: a new object, not callable, whose prototype is set to
    [TracedError.prototype] and whose [cause] is the given value. *)
Definition new_TracedError (cause : JsValue) (h : Heap) : JsValue * Heap :=
  (JsRef (List.length h),
   h ++ [mkObject false [TracedErrorPrototype; ErrorPrototype; ObjectPrototype] cause]).

Definition fail (h : Heap) : JsValue * Heap := new_TracedError JsUndefined h.

Definition wrap (cause : JsValue) (h : Heap) : JsValue * Heap := new_TracedError cause h.

(** [current.cause], read only from an [Error]. *)
Definition get_cause (h : Heap) (current : JsValue) : JsValue :=
  match current with
  | JsRef a => match h !! a with Some o => cause o | None => JsUndefined end
  | _ => JsUndefined
  end.

Definition is_undefined (v : JsValue) : bool :=
  match v with
  | JsUndefined => true
  | _ => false
  end.

(** [rootCause()], with fuel for the loop. *)
Fixpoint rootCause (fuel : nat) (h : Heap) (current : JsValue) : option JsValue :=
  match fuel with
  | 0 => None
  | S fuel' =>
      if instanceof_Error h current && negb (is_undefined (get_cause h current))
      then rootCause fuel' h (get_cause h current)
      else Some current
  end.

(** The argument of [is]: [TracedError] itself, whose [instanceof] is the
    static [Symbol.hasInstance], or a class whose [instanceof] looks for
    its prototype on the prototype chain. *)
Inductive ErrorClass :=
| TracedErrorClass
| OrdinaryClass (prototype : Prototype).

Definition has_prototype (h : Heap) (current : JsValue) (p : Prototype) : bool :=
  match current with
  | JsRef a =>
      match h !! a with
      | Some o => existsb (Prototype_eqb p) (protoChain o)
      | None => false
      end
  | _ => false
  end.

(** [current instanceof ErrorClass] *)
Definition instanceof (fuel : nat) (h : Heap) (current : JsValue) (C : ErrorClass)
  : option bool :=
  match C with
  | TracedErrorClass => hasInstance fuel h current
  | OrdinaryClass p => Some (has_prototype h current p)
  end.

(** The loop of [is], with fuel for itself and for the [instanceof] tests
    it makes. *)
Fixpoint is_loop (inner fuel : nat) (h : Heap) (C : ErrorClass) (current : JsValue)
  : option bool :=
  match fuel with
  | 0 => None
  | S fuel' =>
      if instanceof_Error h current then
        match instanceof inner h current C with
        | Some true => Some true
        | Some false => is_loop inner fuel' h C (get_cause h current)
        | None => None
        end
      else Some false
  end.

(** [this.is(ErrorClass)] *)
Definition TracedError_is (fuel : nat) (h : Heap) (this : JsValue) (C : ErrorClass)
  : option bool :=
  is_loop fuel fuel h C this.

(** ** Vocabulary for the properties *)

(** A value that is no reference, or refers to an object of the heap. *)
Definition in_heap (h : Heap) (v : JsValue) : Prop :=
  forall b, v = JsRef b -> b < List.length h.

(** Following [e], [e.cause], ... while each element is an [Error], an
    object with [p] on its prototype chain is reached. *)
Inductive found_in_chain (h : Heap) (p : Prototype) : JsValue -> Prop :=
| found_here (a : nat) (o : HeapObject) :
    h !! a = Some o -> is_Error o -> In p (protoChain o) ->
    found_in_chain h p (JsRef a)
| found_in_cause (a : nat) (o : HeapObject) :
    h !! a = Some o -> is_Error o ->
    found_in_chain h p (cause o) ->
    found_in_chain h p (JsRef a).

(** [TracedError.wrap(new TypeError("bad"), "context")], with
    [TypeError.prototype] as prototype 1 and [RangeError.prototype] as 2. *)
Definition wrapped_TypeError : JsValue * Heap :=
  wrap (JsRef 0) [mkObject false [OtherPrototype 1; ErrorPrototype; ObjectPrototype] JsUndefined].

End ErrorOps.

(* ===================================================================== *)
(** * Stack frame parsing (src/caller.ts)                                 *)
(* ===================================================================== *)

Module StackFrames.
Import Environment.
Import BodyCapture.
Import Timestamps.
Import Caller.

(** ** String built-ins, on indices as the integers they are *)

Definition startsWith (s searchString : string) : bool := String.prefix searchString s.

Fixpoint drop_chars (n : nat) (s : string) : string :=
  match n, s with
  | S n', String _ rest => drop_chars n' rest
  | _, _ => s
  end.

(** [s.slice(start, end)]: a negative index counts from the end. *)
Definition slice (s : string) (start finish : Z) : string :=
  let len := Z.of_nat (String.length s) in
  let from := if (start <? 0)%Z then Z.max (len + start) 0 else Z.min start len in
  let to := if (finish <? 0)%Z then Z.max (len + finish) 0 else Z.min finish len in
  slice_to (Z.to_nat (to - from)) (drop_chars (Z.to_nat from) s).

(** The first occurrence of [sub] in [s], whose first character has
    index [i]. *)
Fixpoint first_occurrence (sub s : string) (i : nat) : option nat :=
  if String.prefix sub s then Some i
  else match s with
       | EmptyString => None
       | String _ rest => first_occurrence sub rest (S i)
       end.

(** [s.indexOf(sub, position)], for a position within the string. *)
Definition indexOf (s sub : string) (position : Z) : Z :=
  match first_occurrence sub (drop_chars (Z.to_nat position) s) (Z.to_nat position) with
  | Some i => Z.of_nat i
  | None => (-1)%Z
  end.

(** The last occurrence of [sub] in [s] at an index not above [limit]. *)
Fixpoint last_occurrence (sub s : string) (i limit : nat) : option nat :=
  match s with
  | EmptyString => if Nat.leb i limit && String.prefix sub EmptyString then Some i else None
  | String _ rest =>
      match last_occurrence sub rest (S i) limit with
      | Some j => Some j
      | None => if Nat.leb i limit && String.prefix sub s then Some i else None
      end
  end.

(** [s.lastIndexOf(sub, position)]: a negative position counts as 0, a
    missing one as the length. *)
Definition lastIndexOf (s sub : string) (position : option Z) : Z :=
  let limit :=
    match position with
    | Some p => Z.to_nat (Z.max p 0)
    | None => String.length s
    end in
  match last_occurrence sub s 0 limit with
  | Some j => Z.of_nat j
  | None => (-1)%Z
  end.

Definition is_digit (c : ascii) : bool :=
  let n := nat_of_ascii c in (48 <=? n)%nat && (n <=? 57)%nat.

Fixpoint digits_prefix (s : string) : string :=
  match s with
  | String c rest => if is_digit c then String c (digits_prefix rest) else EmptyString
  | EmptyString => EmptyString
  end.

(** ** Numbers read from text

    [parseInt] answers a [Number], a double: the integer its digits denote
    only as far as a double holds it. Every integer up to [2 ^ 53] in
    absolute value is a double; a larger one is rounded, and one beyond the
    largest finite double becomes an infinity. What the engine makes of an
    integer is the parameter [Number_of_integer], about which the
    properties assume only that it is exact up to [2 ^ 53]. *)
Section Numbers.

Variable Number_of_integer : Z -> Z.

(** [parseInt(s, 10)]: leading white space, a sign, then the longest run
    of digits; [None] is [NaN]. *)
Definition parseInt (s : string) : option Z :=
  let s := trimStart s in
  let '(negative, s) :=
    match s with
    | String "-" rest => (true, rest)
    | String "+" rest => (false, rest)
    | _ => (false, s)
    end in
  match NilZero.uint_of_string (digits_prefix s) with
  | Some digits =>
      if String.eqb (digits_prefix s) "" then None
      else Some (Number_of_integer
                   (if negative then - Z.of_uint digits else Z.of_uint digits)%Z)
  | None => None
  end.

(** ** [CallerInfo.fromStackFrame] *)

(** [filePath.replace(/^file:\/\//, "")] *)
Definition cleanPath (filePath : string) : string :=
  if startsWith filePath "file://" then drop_chars 7 filePath else filePath.

(** [new CallerInfo({ parent })] *)
Definition no_location (parent : option CallerFrame) : CallerFrame :=
  mkCaller None None None None parent.

(** [fromStackFrame(frame, parent)], with [parent] already resolved
    against the current caller. *)
Definition fromStackFrame (frame : string) (parent : option CallerFrame) : CallerFrame :=
  let atIndex := indexOf frame "at " 0 in
  if (atIndex =? -1)%Z then no_location parent
  else
    let fnIdxStart := (atIndex + 3)%Z in
    let fnIdxEnd := indexOf frame " (" fnIdxStart in
    let '(fnName, filePathStart, filePathEnd) :=
      if negb (fnIdxEnd =? -1)%Z then
        let fnName := slice frame fnIdxStart fnIdxEnd in
        let fnName :=
          if startsWith fnName "async "
          then slice fnName 6 (Z.of_nat (String.length fnName))
          else fnName in
        (fnName, (fnIdxEnd + 2)%Z, lastIndexOf frame ")" None)
      else ("", fnIdxStart, Z.of_nat (String.length frame)) in
    let filePath := slice frame filePathStart filePathEnd in
    let lastColonIdx := lastIndexOf filePath ":" None in
    if (lastColonIdx =? -1)%Z then no_location parent
    else
      let secondLastColonIdx := lastIndexOf filePath ":" (Some (lastColonIdx - 1)%Z) in
      if (secondLastColonIdx =? -1)%Z then no_location parent
      else
        let fileName := slice filePath 0 secondLastColonIdx in
        let lineNumber :=
          parseInt (slice filePath (secondLastColonIdx + 1) lastColonIdx) in
        let columnNumber :=
          parseInt (slice filePath (lastColonIdx + 1) (Z.of_nat (String.length filePath))) in
        mkCaller (Some (cleanPath fileName)) (Some fnName) lineNumber columnNumber parent.

(** [parseStackFrame(line)]: [None] is [null]. *)
Definition parseStackFrame (line : string) (current : option CallerFrame)
  : option CallerFrame :=
  let caller := fromStackFrame line current in
  if isEmpty caller then None else Some caller.

End Numbers.

(** ** Vocabulary for the properties *)

(** [Number.MAX_SAFE_INTEGER + 1]: up to here every integer is a double. *)
Definition SAFE_LIMIT : Z := (2 ^ 53)%Z.

(** The double nearest to an integer, a tie going to the even mantissa;
    for integers within the range of the finite doubles. *)
Definition nearest_double (z : Z) : Z :=
  let a := Z.abs z in
  if (a <=? SAFE_LIMIT)%Z then z
  else
    let e := (Z.log2 a - 52)%Z in
    let q := (a / 2 ^ e)%Z in
    let rest := (a mod 2 ^ e)%Z in
    let half := (2 ^ (e - 1))%Z in
    let q' :=
      if (rest <? half)%Z then q
      else if (half <? rest)%Z then (q + 1)%Z
      else if Z.even q then q else (q + 1)%Z in
    (Z.sgn z * (q' * 2 ^ e))%Z.

(** A frame line of the engine: ["at fn (file:line:column)"] after some
    indentation. *)
Definition frame_line (indent fn file : string) (line column : nat) : string :=
  (indent ++ "at " ++ fn ++ " (" ++ file ++ ":" ++ BigInt_toString (Z.of_nat line) ++ ":"
   ++ BigInt_toString (Z.of_nat column) ++ ")")%string.

End StackFrames.

(* ===================================================================== *)
(** * Structured logger (src/logger.ts)                                   *)
(* ===================================================================== *)

Module Logging.
Import JsObject.
Import SpanEngine.
Import Exporter.
Import Logs.

Section Loggers.

Variable Number : Type.
Variable Date : Type.
Variable Other : Type.

(** The handler a logger writes to, by identity. *)
Variable LogHandler : Type.

Local Abbreviation Attrs := (props (value Number Date Other)).
Local Abbreviation Entry := (LogEntry Number Date Other).

Record Logger := mkLogger {
  handler : LogHandler;
  baseAttrs : Attrs
}.

(** The module-level OTLP handler ([activeLogHandler], with its buffer)
    and what each handler has been handed so far. *)
Record LogState := mkLogState {
  activeLogHandler : option (list Entry);
  handled : list (LogHandler * Entry)
}.

(** [getAttrs()]: the store of [attrsStorage], [{}] without one. *)
Definition getAttrs (store : option Attrs) : Attrs := default [] store.

(** [withAttrs(attrs, fn)]: [fn] receives the merged attributes and runs
    with them as the store. *)
Definition withAttrs {T} (attrs : Attrs) (fn : Attrs -> option Attrs -> T)
  (store : option Attrs) : T :=
  let current := getAttrs store in
  let merged := Object_assign (Object_assign [] current) attrs in
  fn merged (Some merged).

(** [logger.child(attrs)] *)
Definition child (this : Logger) (attrs : Attrs) : Logger :=
  mkLogger (handler this) (Object_assign (Object_assign [] (baseAttrs this)) attrs).

(** [OTLPLogHandler.handle] *)
Definition OTLP_handle (entry : Entry) (logs : list Entry) : list Entry := logs ++ [entry].

(** [log(level, msg, attrs, opts)]: [caller] is [opts.caller], else the
    captured frame; [now] is what [new Date()] reads. *)
Definition log (this : Logger) (level : LogLevel) (msg : string) (attrs : option Attrs)
  (caller : Caller.CallerFrame) (store : option Attrs) (active : Context) (now : Q)
  (w : World) (st : LogState) : LogState :=
  let span := getSpan active in
  let spanContext := span ≫= spanContext w in
  let contextAttrs := getAttrs store in
  let mergedAttrs :=
    Object_assign (Object_assign (Object_assign [] (baseAttrs this)) contextAttrs)
      (default [] attrs) in
  let entry :=
    mkLogEntry Number Date Other level msg now mergedAttrs
      (sc_traceId <$> spanContext) (sc_spanId <$> spanContext) (Some caller) in
  mkLogState (OTLP_handle entry <$> activeLogHandler st)
    (handled st ++ [(handler this, entry)]).

(** ** Vocabulary for the properties *)

(** The binding of a key in the nearest layer that has one. *)
Fixpoint first_layer (q : string) (layers : list Attrs) : option (value Number Date Other) :=
  match layers with
  | [] => None
  | layer :: rest =>
      match obj_get q layer with
      | Some v => Some v
      | None => first_layer q rest
      end
  end.

End Loggers.

Arguments first_layer {Number Date Other} q layers.
Arguments mkLogger {Number Date Other LogHandler} handler baseAttrs.
Arguments handler {Number Date Other LogHandler} l.
Arguments baseAttrs {Number Date Other LogHandler} l.
Arguments mkLogState {Number Date Other LogHandler} activeLogHandler handled.
Arguments activeLogHandler {Number Date Other LogHandler} l.
Arguments handled {Number Date Other LogHandler} l.
Arguments getAttrs {Number Date Other} store.
Arguments withAttrs {Number Date Other T} attrs fn store.
Arguments child {Number Date Other LogHandler} this attrs.
Arguments log {Number Date Other LogHandler} this level msg attrs caller store active now w st.

End Logging.

(* ===================================================================== *)
(** * Running a handler under a span (src/instrument.ts)                  *)
(* ===================================================================== *)

Module Handlers.
Import JsObject.
Import SpanEngine.

Section RunWithSpan.

(** The [message] property of a thrown value that is neither a string nor
    an [Error], when it has one. *)
Variable message_of : N -> option string.

(** The thrown values that are [null] or [undefined], and the [TypeError]
    the engine raises for a property read on one of them. *)
Variable nullish : N -> bool.
Variable property_read_error : Thrown.

(** [getLogger().error("Unhandled error in handler", attrs)], once its
    arguments are evaluated: the handlers of the current logger are the
    application's, so the call is given by how it completes. The entry it
    writes is no part of the span engine's state. *)
Variable logger_error : Thrown -> Completion unit.

(** What [(error as Error).message] holds when the read goes through. *)
Definition error_message (error : Thrown) : option string :=
  match error with
  | ThrownString _ => None
  | ThrownError _ message _ => Some message
  | ThrownOther tag => message_of tag
  end.

(** [(error as Error).message], the expression: the read throws on [null]
    and [undefined]. *)
Definition read_message (error : Thrown) : Completion (option string) :=
  match error with
  | ThrownOther tag =>
      if nullish tag then Throw property_read_error else Normal (message_of tag)
  | _ => Normal (error_message error)
  end.

(** The first statement of the handler: the attributes are built, reading
    [message] and [stack] of the error, then the logger is called. *)
Definition log_unhandled (error : Thrown) : Completion unit :=
  match read_message error with
  | Throw e => Throw e
  | Normal _ => logger_error error
  end.

(** The handler shared by the [catch] block and the rejection reaction:
    the error is logged, then recorded on the span, and thrown again. When
    logging throws, that is what leaves the handler, and the span has not
    been touched. *)
Definition log_and_rethrow {T} (span : Span) (error : Thrown) : M T :=
  call (log_unhandled error) ;;;
  lift (recordException span error None) ;;;
  let* message := call (read_message error) in
  lift (setStatus span (mkStatus ERROR message)) ;;;
  lift (span_end span None) ;;;
  throw error.

(** The callback [runWithSpan] hands to [startActiveSpan]; [fn] takes no
    argument and runs under the active context. *)
Definition runWithSpan_callback {T} (fn : Context -> M (Returned T)) : Callback T :=
  fun span active'' =>
    try_catch
      (let* result := fn active'' in
       match result with
       | Promise p =>
           let* p1 := promise_then p (fun value => lift (span_end span None) ;;; ret value) in
           let* p2 := promise_catch p1 (fun error => log_and_rethrow span error) in
           ret (Promise p2)
       | Plain v => lift (span_end span None) ;;; ret (Plain v)
       end)
      (fun error => log_and_rethrow span error).

Definition runWithSpan {T} (name : string) (kind : SpanKind)
  (parentSpanContext : option SpanContext) (fn : Context -> M (Returned T))
  (active : Context) : M (Returned T) :=
  let parentContext :=
    match parentSpanContext with
    | Some sc => setSpan active (wrapSpanContext sc)
    | None => active
    end in
  context_with parentContext (fun active' =>
    startActiveSpan name (Some (mkSpanOptions (Some kind) None None None)) None
      (runWithSpan_callback fn) active').

(** ** Vocabulary for the properties *)

(** A handler that reaches its span through the active context, calls it
    as [u] says, and completes as [u] says. *)
Definition on_active_span {T} (u : UserFn T) : Context -> M (Returned T) :=
  fun active w =>
    match getSpan active with
    | Some span => (apply_ops span (fn_ops u) w, fn_completion u)
    | None => (w, fn_completion u)
    end.

(** The failure of a completion, if it is one. *)
Definition failure_of {T} (c : Completion (Returned T)) : option Thrown :=
  match c with
  | Normal (Promise (Rejected e)) | Throw e => Some e
  | _ => None
  end.

(** What the wrapper of [runWithSpan] does to the span before handing the
    settlement on: nothing when logging the failure throws. *)
Definition runWithSpan_reaction {T} (c : Completion (Returned T)) : list SpanOp :=
  match failure_of c with
  | None => [OpEnd None]
  | Some e =>
      match log_unhandled e with
      | Normal _ =>
          [OpRecordException e None; OpSetStatus (mkStatus ERROR (error_message e));
           OpEnd None]
      | Throw _ => []
      end
  end.

(** The settlement the wrapper hands on: the handler's own, unless logging
    its failure throws. *)
Definition runWithSpan_outcome {T} (c : Completion (Returned T)) : Completion (Returned T) :=
  match c with
  | Normal (Promise (Rejected e)) =>
      match log_unhandled e with
      | Normal _ => c
      | Throw e' => Normal (Promise (Rejected e'))
      end
  | Throw e =>
      match log_unhandled e with
      | Normal _ => c
      | Throw e' => Throw e'
      end
  | _ => c
  end.

End RunWithSpan.

(** ** Concrete inputs *)

(** [throw null], and what reading a property of [null] raises. *)
Definition thrown_null : Thrown := ThrownOther 0.

Definition null_read_error : Thrown :=
  ThrownError "TypeError" "Cannot read properties of null (reading 'message')" None.

(** A logger whose handlers do not throw. *)
Definition quiet_logger : Thrown -> Completion unit := fun _ => Normal tt.

End Handlers.

(* ===================================================================== *)
(** * Span export requests (src/otlp.ts)                                  *)
(* ===================================================================== *)

Module TraceExport.
Import JsObject.
Import SpanEngine.
Import Exporter.
Import Timestamps.

Section SpanEncoding.

(** Numbers are the span engine's rationals. *)
Variable Number_toString : Q -> string.
Variable Date : Type.
Variable toISOString : Date -> string.
Variable Other : Type.
Variable String_of : Other -> string.
Variable JSON_stringify : value Q Date Other -> string.

(** [Number.isInteger] *)
Definition Number_isInteger (n : Q) : bool := Qeq_bool n (inject_Z (Qfloor n)).

(** An attribute value of the tracing API, seen as the [unknown] the
    encoder takes. *)
Fixpoint as_unknown (a : AttributeValue) : value Q Date Other :=
  match a with
  | AString s => VString s
  | ANumber n => VNumber n
  | ABoolean b => VBoolean b
  | AUndefined => VUndefined
  | AArray items => VArray (List.map as_unknown items)
  end.

Definition encode (attributes : Attributes) : list (OTLPKeyValue Q) :=
  attributesToOTLP Q Number_isInteger Number_toString Date toISOString Other String_of
    JSON_stringify (List.map (fun kv => (fst kv, as_unknown (snd kv))) attributes).

Record OTLPEvent := mkOTLPEvent {
  event_timeUnixNano : string;
  event_name : string;
  event_attributes : list (OTLPKeyValue Q)
}.

Record OTLPLink := mkOTLPLink {
  link_traceId : string;
  link_spanId : string;
  otlp_link_attributes : list (OTLPKeyValue Q)
}.

Record OTLPStatus := mkOTLPStatus {
  status_code : Z;
  status_message : option string
}.

Record OTLPSpan := mkOTLPSpan {
  otlp_traceId : string;
  otlp_spanId : string;
  otlp_parentSpanId : option string;
  otlp_name : string;
  otlp_kind : Z;
  startTimeUnixNano : string;
  endTimeUnixNano : string;
  otlp_attributes : list (OTLPKeyValue Q);
  otlp_events : list OTLPEvent;
  otlp_links : list OTLPLink;
  otlp_status : OTLPStatus
}.

(** [spanToOTLP(span)]: the clock is read only for a span without an end
    time. The [dropped...Count] fields are constant zeros. *)
Definition spanToOTLP (span : CloudflareSpan) (w : World) : OTLPSpan * World :=
  let ctx := _spanContext span in
  let '(endTime, w') :=
    match _endTime span with
    | Some t => (t, w)
    | None => Date_now w
    end in
  (mkOTLPSpan (sc_traceId ctx) (sc_spanId ctx) (_parentSpanId span) (_name span)
     (spanKindToOTLP (_kind span))
     (msToNanoString (_startTime span))
     (msToNanoString endTime)
     (encode (_attributes span))
     (List.map (fun e => mkOTLPEvent (msToNanoString (ev_timestamp e)) (ev_name e)
                           (encode (default [] (ev_attributes e))))
        (_events span))
     (List.map (fun l => mkOTLPLink (sc_traceId (link_context l)) (sc_spanId (link_context l))
                           (encode (default [] (link_attributes l))))
        (_links span))
     (mkOTLPStatus (statusCodeToOTLP (code (_status span))) (message (_status span))),
   w').

(** [spans.map(spanToOTLP)] *)
Fixpoint map_spanToOTLP (spans : list CloudflareSpan) (w : World) : list OTLPSpan * World :=
  match spans with
  | [] => ([], w)
  | span :: rest =>
      let '(o, w1) := spanToOTLP span w in
      let '(os, w2) := map_spanToOTLP rest w1 in
      (o :: os, w2)
  end.

Record ScopeSpans := mkScopeSpans {
  spans_scope_name : string;
  spans_scope_version : string;
  spans : list OTLPSpan
}.

Record ResourceSpans := mkResourceSpans {
  spans_resource_attributes : list (OTLPKeyValue Q);
  scopeSpans : list ScopeSpans
}.

(** [buildTraceExportRequest(spans, serviceName, resourceAttributes,
    version)]: the value is the [resourceSpans] array. *)
Definition buildTraceExportRequest (exported : list CloudflareSpan) (serviceName : string)
  (resourceAttributes : option (props string)) (version : option string) (w : World)
  : list ResourceSpans * World :=
  let attrs := [mkKeyValue "service.name" (stringValue serviceName)] in
  let attrs :=
    match resourceAttributes with
    | Some ra =>
        List.fold_left (fun attrs kv => attrs ++ [mkKeyValue (fst kv) (stringValue (snd kv))])
          (Object_entries ra) attrs
    | None => attrs
    end in
  let '(converted, w') := map_spanToOTLP exported w in
  ([mkResourceSpans attrs
      [mkScopeSpans "otel-cloudflare" (default "5.3.0" version) converted]], w').

(** [spanProcessor.getSpans()]: the buffered span objects. *)
Definition getSpans (w : World) : list CloudflareSpan :=
  omap (fun r => heap w !! r) (default [] (getSpanProcessor w)).

End SpanEncoding.

End TraceExport.

(* ===================================================================== *)
(** * Exporter configuration (src/otlp.ts, src/instrument.ts)             *)
(* ===================================================================== *)

Module Configuration.
Import JsObject.
Import Environment.
Import Exporter.

(** The environment variables the library reads, each a string or
    missing. *)
Record Env := mkEnv {
  OTEL_EXPORTER_OTLP_ENDPOINT : option string;
  OTEL_EXPORTER_OTLP_HEADERS : option string;
  GRAFANA_INSTANCE_ID : option string;
  GRAFANA_OTLP_TOKEN : option string;
  OTEL_SERVICE_NAME : option string;
  OTEL_RESOURCE_ATTRIBUTES : option string
}.

Definition truthy (s : option string) : bool :=
  match s with
  | Some s => negb (String.eqb s "")
  | None => false
  end.

Definition lower_char (c : ascii) : ascii :=
  let n := nat_of_ascii c in
  if (65 <=? n)%nat && (n <=? 90)%nat then ascii_of_nat (n + 32) else c.

(** What follows [pattern] at the start of [s], letters compared without
    case; [pattern] is in lower case. *)
Fixpoint after_ci (pattern s : string) : option string :=
  match pattern, s with
  | EmptyString, _ => Some s
  | String p pattern', String c s' =>
      if Ascii.eqb (lower_char c) p then after_ci pattern' s' else None
  | String _ _, EmptyString => None
  end.

(** The characters [.] matches: all but line terminators. *)
Definition is_line_terminator (c : ascii) : bool :=
  let n := nat_of_ascii c in Nat.eqb n 10 || Nat.eqb n 13.

Fixpoint until_line_end (s : string) : string :=
  match s with
  | String c rest => if is_line_terminator c then EmptyString else String c (until_line_end rest)
  | EmptyString => EmptyString
  end.

(** [s.match(/Authorization=(.+)/i)]: the group of the leftmost match. *)
Fixpoint match_Authorization (s : string) : option string :=
  let here :=
    match after_ci "authorization=" s with
    | Some rest =>
        let group := until_line_end rest in
        if String.eqb group "" then None else Some group
    | None => None
    end in
  match here with
  | Some group => Some group
  | None =>
      match s with
      | EmptyString => None
      | String _ rest => match_Authorization rest
      end
  end.

(** [endpoint.replace(/\/$/, "")] *)
Definition strip_trailing_slash (s : string) : string :=
  match reverse s with
  | String "/" rest => reverse rest
  | _ => s
  end.

Section FromEnv.

Variable btoa : string -> string.

Definition getOTLPConfigFromEnv (env : Env) : option OTLPExporterConfig :=
  match OTEL_EXPORTER_OTLP_ENDPOINT env with
  | None => None
  | Some endpoint =>
      if String.eqb endpoint "" then None
      else
        let authHeader :=
          match OTEL_EXPORTER_OTLP_HEADERS env with
          | Some headersEnv =>
              if String.eqb headersEnv "" then None else match_Authorization headersEnv
          | None => None
          end in
        let authHeader :=
          if truthy authHeader then authHeader
          else
            match GRAFANA_INSTANCE_ID env, GRAFANA_OTLP_TOKEN env with
            | Some instanceId, Some token =>
                if truthy (Some instanceId) && truthy (Some token)
                then Some ("Basic " ++ btoa (instanceId ++ ":" ++ token))%string
                else authHeader
            | _, _ => authHeader
            end in
        match authHeader with
        | Some auth =>
            if String.eqb auth "" then None
            else
              Some (mkConfig (strip_trailing_slash endpoint) [("Authorization", auth)]
                      (OTEL_SERVICE_NAME env)
                      (Some (parseResourceAttributes (OTEL_RESOURCE_ATTRIBUTES env))))
        | None => None
        end
  end.

(** The options [getExporterConfig] reads. *)
Record InstrumentOptionsObject := mkOptions {
  opts_serviceName : option string;
  exporter : option OTLPExporterConfig;
  disableExport : option bool
}.

Definition getExporterConfig (opts : InstrumentOptionsObject) (env : Env)
  : option OTLPExporterConfig :=
  if default false (disableExport opts) then None
  else
    match exporter opts with
    | Some given =>
        Some (mkConfig (endpoint given) (headers given)
                (match serviceName given with
                 | Some name => Some name
                 | None => opts_serviceName opts
                 end)
                (resourceAttributes given))
    | None =>
        match getOTLPConfigFromEnv env with
        | Some config =>
            if truthy (opts_serviceName opts)
            then Some (mkConfig (endpoint config) (headers config) (opts_serviceName opts)
                         (resourceAttributes config))
            else Some config
        | None => None
        end
    end.

End FromEnv.

End Configuration.

(* ===================================================================== *)
(** * Deterministic workflow keys (src/workflow.ts)                       *)
(* ===================================================================== *)

Module WorkflowKeys.
Import JsObject.
Import Exporter.

(** The order of [Array.prototype.sort] without a comparator on strings:
    by code units. *)
Definition string_le (a b : string) : Prop := String.leb a b = true.

#[global] Instance string_le_dec : RelDecision string_le :=
  fun a b => decide (String.leb a b = true).

Section Keys.

Variable Number : Type.
Variable Date : Type.
Variable toISOString : Date -> string.
Variable Other : Type.
Variable JSON_stringify : value Number Date Other -> string.

Local Abbreviation Value := (value Number Date Other).

(** [sorted[key] = v] on an object made by [{}]: an assignment to
    ["__proto__"] makes no property. *)
Definition assign_sorted (key : string) (v : Value) (sorted : props Value) : props Value :=
  if String.eqb key "__proto__" then sorted else obj_set key v sorted.

(** [sortObjectKeys(obj)]. An object is given by its entries; the value
    under a key is looked up among the entries, whose values have been
    sorted already. Dates are valid dates. *)
Fixpoint sortObjectKeys (obj : Value) : Value :=
  match obj with
  | VArray items => VArray (List.map sortObjectKeys items)
  | VDate d => VString (toISOString d)
  | VObject entries =>
      let values :=
        (fix each (es : list (string * Value)) : list (string * Value) :=
           match es with
           | [] => []
           | (key, v) :: rest => (key, sortObjectKeys v) :: each rest
           end) entries in
      let keys := merge_sort string_le (List.map fst entries) in
      VObject
        (Object_entries
           (List.fold_left
              (fun sorted key => assign_sorted key (default VUndefined (obj_get key values)) sorted)
              keys []))
  | _ => obj
  end.

Definition generateDeterministicKey (v : Value) : string :=
  let normalized :=
    match v with
    | VArray _ => v
    | _ => VArray [v]
    end in
  let sorted := sortObjectKeys normalized in
  JSON_stringify sorted.

End Keys.

End WorkflowKeys.

(* ===================================================================== *)
(** * Patching the global fetch (src/fetch.ts)                            *)
(* ===================================================================== *)

Module FetchPatch.

(** A fetch function by identity: one the runtime provides, or the
    wrapper around [tracedFetch(baseFetch)]. *)
Inductive Fetch :=
| Native (id : nat)
| Traced (baseFetch : Fetch).

(** [globalThis.fetch] and the module-level [originalFetch] ([None] is
    [null]). *)
Record Globals := mkGlobals {
  globalThis_fetch : Fetch;
  originalFetch : option Fetch
}.

Definition getOriginalFetch (g : Globals) : option Fetch := originalFetch g.

Definition patchGlobalFetch (g : Globals) : Globals :=
  match originalFetch g with
  | Some _ => g
  | None => mkGlobals (Traced (globalThis_fetch g)) (Some (globalThis_fetch g))
  end.

Definition unpatchGlobalFetch (g : Globals) : Globals :=
  match originalFetch g with
  | Some original => mkGlobals original None
  | None => g
  end.

(** [getOriginalFetch() ?? globalThis.fetch], the transport of
    [exportTraces] and [exportLogs]. *)
Definition fetchFn (g : Globals) : Fetch := default (globalThis_fetch g) (getOriginalFetch g).

(** ** Vocabulary for the properties *)

Inductive Call := Patch | Unpatch.

Definition run (calls : list Call) (g : Globals) : Globals :=
  List.fold_left (fun g call => match call with
                                | Patch => patchGlobalFetch g
                                | Unpatch => unpatchGlobalFetch g
                                end) calls g.

End FetchPatch.
(* ===================================================================== *)
(** * Properties of the trace context codec                               *)
(* ===================================================================== *)

Section CodecProperties.
Import Codec.

Lemma all_hex_Forall (s : string) :
  all_hex s = true <-> Forall (fun c => is_hex_char c = true) (list_ascii_of_string s).
Proof.
  induction s as [|c s IH]; simpl.
  - split; [constructor | reflexivity].
  - rewrite andb_true_iff, IH. split.
    + intros [Hc Hs]. constructor; assumption.
    + intros H. inversion H; subst. split; assumption.
Qed.

(** The two tests of one guard, [x.length !== n || !re.test(x)], fail
    together exactly on the strings of [n] hex characters. *)
Lemma guard_hex_chars (n : nat) (s : string) :
  n <> 0 ->
  negb (Nat.eqb (String.length s) n) || negb (hex_re_test s) = false <-> hex_chars n s.
Proof.
  intros Hn. rewrite orb_false_iff, !negb_false_iff, Nat.eqb_eq.
  unfold hex_chars. destruct s as [|c s].
  - simpl. split.
    + intros [Hl _]. congruence.
    + intros [Hl _]. simpl in Hl. congruence.
  - unfold hex_re_test. rewrite all_hex_Forall. tauto.
Qed.

Lemma split_nonempty (sep : ascii) (s : string) : split sep s <> [].
Proof.
  destruct s as [|c s]; simpl; [discriminate|].
  destruct (Ascii.eqb c sep); [discriminate|].
  destruct (split sep s); discriminate.
Qed.

(** A separator-free prefix followed by a separator is one field. *)
Lemma split_field (sep : ascii) (pre rest : string) :
  Forall (fun c => c <> sep) (list_ascii_of_string pre) ->
  split sep (pre ++ String sep rest) = pre :: split sep rest.
Proof.
  induction pre as [|c pre IH]; simpl; intros H.
  - rewrite Ascii.eqb_refl. reflexivity.
  - inversion H as [|? ? Hc Hpre]; subst.
    destruct (Ascii.eqb_spec c sep) as [->|_]; [contradiction|].
    rewrite (IH Hpre). reflexivity.
Qed.

Lemma hex_chars_no_dash (n : nat) (s : string) :
  hex_chars n s -> Forall (fun c => c <> "-"%char) (list_ascii_of_string s).
Proof.
  intros [_ H]. induction H as [|c l Hc _ IH]; constructor; [|exact IH].
  intros ->. vm_compute in Hc. discriminate.
Qed.

Example parse_valid :
  parseTraceparent "00-0af7651916cd43dd8448eb211c80319c-b7ad6b7169203331-01"
  = Some (mkTraceContext "00" "0af7651916cd43dd8448eb211c80319c" "b7ad6b7169203331" "01").
Proof. reflexivity. Qed.

Example parse_three_fields :
  parseTraceparent "00-0af7651916cd43dd8448eb211c80319c-b7ad6b7169203331" = None.
Proof. reflexivity. Qed.

Example parse_wrong_version :
  parseTraceparent "01-0af7651916cd43dd8448eb211c80319c-b7ad6b7169203331-01" = None.
Proof. reflexivity. Qed.

Example parse_short_span_id :
  parseTraceparent "00-0af7651916cd43dd8448eb211c80319c-b7ad6b716920333-01" = None.
Proof. reflexivity. Qed.

Example parse_non_hex :
  parseTraceparent "00-0af7651916cd43dd8448eb211c80319g-b7ad6b7169203331-01" = None.
Proof. reflexivity. Qed.

Example parse_empty : parseTraceparent "" = None.
Proof. reflexivity. Qed.

(** C4. For every 32-hex traceId and 16-hex spanId, whatever the flags and
    remote marker of the formatted context, [toTraceparent] writes the four
    fields ["00"], traceId, spanId, ["01"], and [parseTraceparent] reads
    them back: same traceId and spanId, version ["00"], flags ["01"]. *)
Theorem parse_format_roundtrip (ctx : SpanContext) :
  hex_chars 32 (sc_traceId ctx) ->
  hex_chars 16 (sc_spanId ctx) ->
  split "-" (toTraceparent ctx) = ["00"; sc_traceId ctx; sc_spanId ctx; "01"] /\
  parseTraceparent (toTraceparent ctx) =
    Some (mkTraceContext "00" (sc_traceId ctx) (sc_spanId ctx) "01").
Proof.
  intros Ht Hs.
  assert (Hsplit : split "-" (toTraceparent ctx)
                   = ["00"; sc_traceId ctx; sc_spanId ctx; "01"]).
  { unfold toTraceparent.
    change (split "-" ("00" ++ String "-" (sc_traceId ctx ++ String "-" (sc_spanId ctx ++ String "-" "01")))%string
            = ["00"; sc_traceId ctx; sc_spanId ctx; "01"]).
    rewrite split_field by (repeat constructor; discriminate).
    rewrite split_field by (eapply hex_chars_no_dash; exact Ht).
    rewrite split_field by (eapply hex_chars_no_dash; exact Hs).
    reflexivity. }
  split; [exact Hsplit|].
  unfold parseTraceparent. rewrite Hsplit. cbn [List.length Nat.eqb negb].
  change (String.eqb "00" "00") with true. cbn [negb].
  rewrite (proj2 (guard_hex_chars 32 _ ltac:(discriminate)) Ht).
  rewrite (proj2 (guard_hex_chars 16 _ ltac:(discriminate)) Hs).
  reflexivity.
Qed.

Lemma parse_format_roundtrip_witness :
  parseTraceparent
    (toTraceparent (mkSpanContext "0af7651916cd43dd8448eb211c80319c" "B7AD6B7169203331" 0 true))
  = Some (mkTraceContext "00" "0af7651916cd43dd8448eb211c80319c" "B7AD6B7169203331" "01").
Proof.
  apply (parse_format_roundtrip
           (mkSpanContext "0af7651916cd43dd8448eb211c80319c" "B7AD6B7169203331" 0 true));
    (split; [reflexivity | repeat constructor]).
Defined.

(** C5. [parseTraceparent] is a total function of its input string, and it
    answers [None] (the source's [null]) exactly on the malformed strings:
    those that do not split on ["-"] into four fields, or whose version is
    not ["00"], or whose traceId, spanId or flags field is not 32, 16 or 2
    hex characters; on every other string it answers the four fields. *)
Theorem parseTraceparent_exact (s : string) :
  (malformed s /\ parseTraceparent s = None) \/
  (~ malformed s /\
   exists v t sp f, split "-" s = [v; t; sp; f] /\
     parseTraceparent s = Some (mkTraceContext v t sp f)).
Proof.
  unfold parseTraceparent, malformed.
  destruct (split "-" s) as [|v [|t [|sp [|f [|x l]]]]] eqn:Hsplit;
    try (left; split; [left; simpl; lia | reflexivity]).
  cbn [List.length Nat.eqb negb].
  destruct (String.eqb_spec v "00") as [Hv|Hv]; cbn [negb].
  2:{ left. split; [right; exists v, t, sp, f; tauto | reflexivity]. }
  pose proof (guard_hex_chars 32 t ltac:(discriminate)) as Gt.
  pose proof (guard_hex_chars 16 sp ltac:(discriminate)) as Gsp.
  pose proof (guard_hex_chars 2 f ltac:(discriminate)) as Gf.
  destruct (negb (Nat.eqb (String.length t) 32) || negb (hex_re_test t)).
  { left. split; [right; exists v, t, sp, f; split; [reflexivity|]|reflexivity].
    right; left. intros H. apply Gt in H. discriminate. }
  destruct (negb (Nat.eqb (String.length sp) 16) || negb (hex_re_test sp)).
  { left. split; [right; exists v, t, sp, f; split; [reflexivity|]|reflexivity].
    right; right; left. intros H. apply Gsp in H. discriminate. }
  destruct (negb (Nat.eqb (String.length f) 2) || negb (hex_re_test f)).
  { left. split; [right; exists v, t, sp, f; split; [reflexivity|]|reflexivity].
    right; right; right. intros H. apply Gf in H. discriminate. }
  right. split.
  - intros [Hlen | (v' & t' & sp' & f' & Heq & Hbad)].
    + simpl in Hlen. lia.
    + injection Heq as <- <- <- <-.
      destruct Hbad as [H | [H | [H | H]]];
        [ contradiction | apply H, Gt | apply H, Gsp | apply H, Gf ]; reflexivity.
  - exists v, t, sp, f. split; reflexivity.
Qed.

End CodecProperties.


(* ===================================================================== *)
(** * Properties of the span engine                                       *)
(* ===================================================================== *)

Section SpanProperties.
Import SpanEngine JsObject.

Ltac unfold_methods :=
  unfold apply_op, setAttribute, setAttributes, addEvent, addLink, addLinks,
    setStatus, updateName, recordException, span_end, method in *.

Lemma heap_store (r : nat) (s : CloudflareSpan) (w : World) :
  r < List.length (heap w) -> heap (store r s w) !! r = Some s.
Proof. intros H. unfold store, set_heap. simpl. by apply list_lookup_insert_eq. Qed.

Lemma heap_Date_now (w : World) : heap (snd (Date_now w)) = heap w.
Proof. reflexivity. Qed.

Lemma nonrecording_op_noop (sc : SpanContext) (op : SpanOp) (w : World) :
  apply_op (NonRecording sc) op w = w.
Proof. destruct op; reflexivity. Qed.

Lemma dangling_op_noop (r : nat) (op : SpanOp) (w : World) :
  heap w !! r = None -> apply_op (Recording r) op w = w.
Proof. intros H. destruct op; unfold_methods; rewrite H; reflexivity. Qed.

(** Every method starts with [if (this._ended) return]. *)
Lemma ended_op_noop (r : nat) (this : CloudflareSpan) (op : SpanOp) (w : World) :
  heap w !! r = Some this -> _ended this = true -> apply_op (Recording r) op w = w.
Proof. intros H E. destruct op; unfold_methods; rewrite H, E; reflexivity. Qed.


(** One call on a span: the object stays in place, its identity never
    changes, it is ended afterwards exactly when it was before or the call
    is [end], and the processor hears of it exactly on an [end] of a span
    that was still recording. *)
Lemma step_spec (r : nat) (this : CloudflareSpan) (op : SpanOp) (w : World) :
  heap w !! r = Some this ->
  exists this',
    heap (apply_op (Recording r) op w) !! r = Some this' /\
    List.length (heap (apply_op (Recording r) op w)) = List.length (heap w) /\
    _ended this' = _ended this || is_end op /\
    activeSpanProcessor (apply_op (Recording r) op w) =
      (if negb (_ended this) && is_end op
       then (fun l => l ++ [r]) <$> activeSpanProcessor w
       else activeSpanProcessor w) /\
    _spanContext this' = _spanContext this /\
    _parentSpanId this' = _parentSpanId this /\
    _kind this' = _kind this /\
    (is_setStatus op = false -> _status this' = _status this).
Proof.
  intros H. pose proof (lookup_lt_Some _ _ _ H) as Hlt.
  destruct (_ended this) eqn:E.
  { rewrite (ended_op_noop r this op w H E). exists this. rewrite E. simpl. tauto. }
  destruct op; unfold_methods; rewrite H, E.
  all: try (eexists; split; [apply heap_store; exact Hlt|];
            simpl; rewrite ?length_insert, ?E; repeat split; try reflexivity; try discriminate).
  - (* addEvent *)
    destruct attributesOrStartTime as [[a|[n|t|s n]]|]; try destruct startTime as [[n'|t'|s' n']|];
      simpl; (eexists; split; [apply list_lookup_insert_eq; exact Hlt|]);
      simpl; rewrite ?length_insert, ?E; repeat split; reflexivity.
  - (* recordException *)
    unfold addEvent, method. rewrite H, E.
    destruct time as [[n'|t'|s' n']|];
      simpl; (eexists; split; [apply list_lookup_insert_eq; exact Hlt|]);
      simpl; rewrite ?length_insert, ?E; repeat split; reflexivity.
  - (* end *)
    unfold notifyProcessor. destruct w as [h [spans|] en ep cl cp]; simpl in *;
      destruct endTime as [[n'|t'|s' n']|]; simpl;
      (eexists; split; [apply list_lookup_insert_eq; exact Hlt|]);
      simpl; rewrite ?length_insert; repeat split; reflexivity.
Qed.

(** Any sequence of calls, by induction on the sequence. *)
Lemma ops_spec (r : nat) (ops : list SpanOp) :
  forall (w : World) (this : CloudflareSpan),
  heap w !! r = Some this ->
  exists this',
    heap (apply_ops (Recording r) ops w) !! r = Some this' /\
    List.length (heap (apply_ops (Recording r) ops w)) = List.length (heap w) /\
    _ended this' = _ended this || existsb is_end ops /\
    activeSpanProcessor (apply_ops (Recording r) ops w) =
      (if negb (_ended this) && existsb is_end ops
       then (fun l => l ++ [r]) <$> activeSpanProcessor w
       else activeSpanProcessor w) /\
    _spanContext this' = _spanContext this /\
    _parentSpanId this' = _parentSpanId this /\
    _kind this' = _kind this /\
    (existsb is_setStatus ops = false -> _status this' = _status this).
Proof.
  induction ops as [|op ops IH]; intros w this H.
  - exists this. simpl. rewrite orb_false_r, andb_false_r. tauto.
  - destruct (step_spec r this op w H)
      as (this1 & H1 & L1 & E1 & P1 & C1 & Q1 & K1 & S1).
    destruct (IH _ _ H1) as (this2 & H2 & L2 & E2 & P2 & C2 & Q2 & K2 & S2).
    exists this2. change (apply_ops (Recording r) (op :: ops) w)
      with (apply_ops (Recording r) ops (apply_op (Recording r) op w)).
    split; [exact H2|]. split; [congruence|].
    split; [rewrite E2, E1; simpl; symmetry; apply orb_assoc|].
    split.
    { rewrite P2, P1, E1. simpl.
      destruct (_ended this), (is_end op), (existsb is_end ops); reflexivity. }
    split; [congruence|]. split; [congruence|]. split; [congruence|].
    simpl. intros Hs. apply orb_false_iff in Hs as [Hs1 Hs2].
    rewrite (S2 Hs2). exact (S1 Hs1).
Qed.

Lemma ended_ops_noop (r : nat) (this : CloudflareSpan) (ops : list SpanOp) (w : World) :
  heap w !! r = Some this -> _ended this = true -> apply_ops (Recording r) ops w = w.
Proof.
  intros H E. induction ops as [|op ops IH]; [reflexivity|].
  simpl. rewrite (ended_op_noop r this op w H E). exact IH.
Qed.

Lemma dangling_ops_noop (r : nat) (ops : list SpanOp) (w : World) :
  heap w !! r = None -> apply_ops (Recording r) ops w = w.
Proof.
  intros H. induction ops as [|op ops IH]; [reflexivity|].
  simpl. rewrite (dangling_op_noop r op w H). exact IH.
Qed.

Example ended_span_ignores_setAttribute :
  let '(sp, w) := startSpan "op" None None ROOT_CONTEXT sample_world in
  let w1 := span_end sp None w in
  setStatus sp (mkStatus ERROR None) (setAttribute sp "k" (AString "v") w1) = w1 /\
  span_end sp (Some (TNumber (inject_Z 99))) w1 = w1 /\
  activeSpanProcessor w1 = Some [0].
Proof. repeat split. Qed.

(** C2. Once [end()] has been called on a span, every later call of a
    mutator (setAttribute, setAttributes, addEvent, addLink, addLinks,
    setStatus, updateName, recordException) and every later [end()] leaves
    the whole world as it is: name, attributes, events, links, status and
    endTime of the span are unchanged and the processor's buffer does not
    grow. Over any sequence of calls the processor receives the span at
    most once: once if the span was recording and the sequence has an
    [end()], otherwise never. *)
Theorem ended_span_is_terminal (w : World) (r : nat) (endTime : option TimeInput) :
  let sp := Recording r in
  let w1 := span_end sp endTime w in
  (forall op, apply_op sp op w1 = w1) /\
  (forall ops, apply_ops sp ops w1 = w1) /\
  (forall ops,
     activeSpanProcessor (apply_ops sp ops w) =
       if isRecording w sp && existsb is_end ops
       then (fun l => l ++ [r]) <$> activeSpanProcessor w
       else activeSpanProcessor w).
Proof.
  intros sp w1. subst sp w1.
  destruct (heap w !! r) as [this|] eqn:H.
  - destruct (step_spec r this (OpEnd endTime) w H) as (this1 & H1 & _ & E1 & _).
    simpl in H1, E1. rewrite orb_true_r in E1.
    split; [intros op; exact (ended_op_noop r this1 op _ H1 E1)|].
    split; [intros ops; exact (ended_ops_noop r this1 ops _ H1 E1)|].
    intros ops. destruct (ops_spec r ops w this H) as (this2 & _ & _ & _ & P2 & _).
    rewrite P2. unfold isRecording. rewrite H. reflexivity.
  - assert (Hend : span_end (Recording r) endTime w = w).
    { exact (dangling_op_noop r (OpEnd endTime) w H). }
    rewrite Hend.
    split; [intros op; exact (dangling_op_noop r op w H)|].
    split; [intros ops; exact (dangling_ops_noop r ops w H)|].
    intros ops. rewrite (dangling_ops_noop r ops w H).
    unfold isRecording. rewrite H. reflexivity.
Qed.

(** ** Identifiers *)

Lemma byte_hex_chars (b : Byte.byte) : hex_chars 2 (byte_hex b).
Proof. destruct b; (split; [reflexivity | repeat constructor]). Qed.

Lemma hex_chars_append (n m : nat) (s t : string) :
  hex_chars n s -> hex_chars m t -> hex_chars (n + m) (s ++ t)%string.
Proof.
  intros [Hn Hs] [Hm Ht]. subst n m. revert Hs.
  induction s as [|c s IH]; simpl; intros Hs; [split; [reflexivity | exact Ht]|].
  inversion Hs as [|? ? Hc Hs']; subst.
  destruct (IH Hs') as [Hl Hf]. split; [simpl; congruence | constructor; assumption].
Qed.

Lemma join_byte_hex_chars (bytes : list Byte.byte) :
  hex_chars (2 * List.length bytes) (join (List.map byte_hex bytes)).
Proof.
  induction bytes as [|b bytes IH]; [split; [reflexivity | constructor]|].
  replace (2 * List.length (b :: bytes)) with (2 + 2 * List.length bytes) by (simpl; lia).
  apply hex_chars_append; [apply byte_hex_chars | exact IH].
Qed.

Lemma startSpan_effective_context (name : string) (options : option SpanOptions)
  (ctx : option Context) (active : Context) (w : World) :
  startSpan name options (Some (default active ctx)) active w
  = startSpan name options ctx active w.
Proof. reflexivity. Qed.

(** [startActiveSpan] hands its callback the span [startSpan] made, in
    the world [startSpan] left, with that span active. *)
Lemma startActiveSpan_runs_callback {T : Type} (name : string) (options : option SpanOptions)
  (ctx : option Context) (fn : Callback T) (active : Context) (w : World) :
  startActiveSpan name options ctx fn active w
  = settle_and_end fn (fst (startSpan name options ctx active w))
      (Some (fst (startSpan name options ctx active w)))
      (snd (startSpan name options ctx active w)).
Proof.
  unfold startActiveSpan. rewrite startSpan_effective_context.
  destruct (startSpan name options ctx active w) as [sp w']. reflexivity.
Qed.


(** ** Callbacks settle, the tracer reacts *)

Lemma apply_ops_app (sp : Span) (ops1 ops2 : list SpanOp) (w : World) :
  apply_ops sp (ops1 ++ ops2) w = apply_ops sp ops2 (apply_ops sp ops1 w).
Proof. unfold apply_ops. apply fold_left_app. Qed.

Lemma settle_and_end_user {T} (u : UserFn T) (sp : Span) (active' : Context) (w : World) :
  settle_and_end (run_user u) sp active' w
  = (apply_ops sp (fn_ops u ++ tracer_reaction (fn_completion u)) w, fn_completion u).
Proof.
  rewrite apply_ops_app.
  unfold settle_and_end, try_catch, bind, run_user, record_and_rethrow.
  destruct (fn_completion u) as [[v|[v|e]]|e]; reflexivity.
Qed.

Lemma withTrace_callback_user {T} (u : UserFn T) (sp : Span) (active' : Context) (w : World) :
  withTrace_callback (run_user u) sp active' w
  = run_user (mkUserFn (fn_ops u ++ withTrace_reaction (fn_completion u)) (fn_completion u))
      sp active' w.
Proof.
  unfold run_user at 2. cbn [fn_ops fn_completion]. rewrite apply_ops_app.
  unfold withTrace_callback, try_catch, bind, run_user.
  destruct (fn_completion u) as [[v|[v|e]]|e]; reflexivity.
Qed.

Lemma recordException_exact (r : nat) (this : CloudflareSpan) (e : Thrown) (w : World) :
  heap w !! r = Some this -> _ended this = false ->
  heap (recordException (Recording r) e None w) !! r
  = Some (set_events
            (_events this ++
             [mkEvent "exception" (clock w (clock_pos w)) (Some (exception_attributes e))])
            this).
Proof.
  intros H E. pose proof (lookup_lt_Some _ _ _ H) as Hlt.
  unfold recordException, addEvent, method. rewrite H, E.
  simpl. by apply list_lookup_insert_eq.
Qed.

Lemma setStatus_exact (r : nat) (this : CloudflareSpan) (st : SpanStatus) (w : World) :
  heap w !! r = Some this -> _ended this = false ->
  heap (setStatus (Recording r) st w) !! r = Some (set_status st this).
Proof.
  intros H E. pose proof (lookup_lt_Some _ _ _ H) as Hlt.
  unfold setStatus, method. rewrite H, E. by apply heap_store.
Qed.

Lemma span_end_exact (r : nat) (this : CloudflareSpan) (w : World) :
  heap w !! r = Some this -> _ended this = false ->
  heap (span_end (Recording r) None w) !! r
  = Some (set_endTime (Some (clock w (clock_pos w))) (set_ended true this)).
Proof.
  intros H E. pose proof (lookup_lt_Some _ _ _ H) as Hlt.
  unfold span_end, method, notifyProcessor. rewrite H, E.
  destruct w as [h [spans|] en ep cl cp]; simpl in *; by apply list_lookup_insert_eq.
Qed.

(** The failure reaction of [startActiveSpan] on a span still recording. *)
Lemma tracer_failure_recording (r : nat) (this : CloudflareSpan) (e : Thrown) (w : World) :
  heap w !! r = Some this -> _ended this = false ->
  exists this' t,
    heap (apply_ops (Recording r)
            [OpRecordException e None; OpSetStatus (mkStatus ERROR None); OpEnd None] w) !! r
    = Some this' /\
    _ended this' = true /\
    _status this' = mkStatus ERROR None /\
    _events this' = _events this ++ [mkEvent "exception" t (Some (exception_attributes e))].
Proof.
  intros H E. simpl.
  pose proof (recordException_exact r this e w H E) as H1.
  pose proof (setStatus_exact r _ (mkStatus ERROR None) _ H1 E) as H2.
  pose proof (span_end_exact r _ _ H2 E) as H3.
  eexists _, _. split; [exact H3|]. repeat split.
Qed.

(** The failure reaction of [withTrace]'s wrapper on a span still
    recording: the exception is recorded, the status is not touched. *)
Lemma withTrace_failure_recording (r : nat) (this : CloudflareSpan) (e : Thrown) (w : World) :
  heap w !! r = Some this -> _ended this = false ->
  exists this' t,
    heap (apply_ops (Recording r) [OpRecordException e None; OpEnd None] w) !! r
    = Some this' /\
    _ended this' = true /\
    _status this' = _status this /\
    _events this' = _events this ++ [mkEvent "exception" t (Some (exception_attributes e))].
Proof.
  intros H E. simpl.
  pose proof (recordException_exact r this e w H E) as H1.
  pose proof (span_end_exact r _ _ H1 E) as H2.
  eexists _, _. split; [exact H2|]. repeat split.
Qed.

Lemma success_recording (r : nat) (this : CloudflareSpan) (w : World) :
  heap w !! r = Some this -> _ended this = false ->
  exists this',
    heap (apply_ops (Recording r) [OpEnd None] w) !! r = Some this' /\
    _ended this' = true /\
    _status this' = _status this /\
    _events this' = _events this.
Proof.
  intros H E. simpl. eexists. split; [exact (span_end_exact r _ _ H E)|]. repeat split.
Qed.

(** What [startSpan] leaves behind: a new recording span at the end of the
    heap, status unset, no events; the processor is not told yet. *)
Lemma startSpan_fresh (name : string) (options : option SpanOptions)
  (ctx : option Context) (active : Context) (w : World) :
  exists this,
    fst (startSpan name options ctx active w) = Recording (List.length (heap w)) /\
    heap (snd (startSpan name options ctx active w)) !! List.length (heap w) = Some this /\
    _ended this = false /\
    _status this = mkStatus UNSET None /\
    _events this = [] /\
    activeSpanProcessor (snd (startSpan name options ctx active w)) = activeSpanProcessor w.
Proof.
  unfold startSpan, getSpan, generateTraceId, generateSpanId, getRandomValues,
    new_CloudflareSpan.
  destruct (default active ctx ≫= spanContext w) as [psc|];
    cbn [entropy entropy_pos heap];
    destruct (_timeInputToMs (options ≫= opt_startTime)) as [t|];
    cbn [Date_now heap set_heap fst snd activeSpanProcessor];
    (eexists; split; [reflexivity|]; split; [apply list_lookup_middle; reflexivity|]);
    repeat split.
Qed.

Lemma startSpan_name (name : string) (options : option SpanOptions)
  (ctx : option Context) (active : Context) (w : World) :
  _name <$> heap (snd (startSpan name options ctx active w)) !! List.length (heap w)
  = Some name.
Proof.
  unfold startSpan, getSpan, generateTraceId, generateSpanId, getRandomValues,
    new_CloudflareSpan.
  destruct (default active ctx ≫= spanContext w) as [psc|];
    cbn [entropy entropy_pos heap];
    destruct (_timeInputToMs (options ≫= opt_startTime)) as [t|];
    cbn [Date_now heap set_heap fst snd];
    rewrite list_lookup_middle by reflexivity; reflexivity.
Qed.

Lemma tracer_reaction_has_end {T} (c : Completion (Returned T)) :
  existsb is_end (tracer_reaction c) = true.
Proof. destruct c as [[v|[v|e]]|e]; reflexivity. Qed.

(** Whatever the callback is: the tracer hands its completion on and
    reacts on the state the callback left. *)
Lemma settle_and_end_any {T} (fn : Callback T) (sp : Span) (active' : Context) (w : World) :
  settle_and_end fn sp active' w
  = (apply_ops sp (tracer_reaction (snd (fn sp active' w))) (fst (fn sp active' w)),
     snd (fn sp active' w)).
Proof.
  unfold settle_and_end, try_catch, bind, record_and_rethrow.
  destruct (fn sp active' w) as [w2 [[v|[v|e]]|e]]; reflexivity.
Qed.

(** C1 (as the code has it). For every callback [fn], run on the new span
    with that span active, and whatever [fn] did before settling: on all
    four settle paths (a value that is not a [Promise], a [Promise] that
    resolves, a [Promise] that rejects, a synchronous throw)
    [startActiveSpan] hands [fn]'s own completion on (the same value, the
    same promise outcome, the same error re-raised), and what it does to
    the span is its reaction to that completion: [end()] on the two
    success paths, [recordException], [setStatus(ERROR)], [end()] on the
    two failure paths. When [fn] has settled the span is ended. If [fn]
    left the span recording, the registered processor receives it at that
    point, once; on the two failure paths the exception has been recorded
    as a final ["exception"] event and the status is error, and on the two
    success paths status and events are as [fn] left them. If [fn] had
    already ended the span itself, the tracer's calls change nothing. An
    awaitable that is not a [Promise] is on the first path: the span is
    ended when [fn] returns. For a callback that acts on its span through
    the span's methods only, the processor has received the span exactly
    once in all. *)
Theorem startActiveSpan_settles {T : Type} (fn : Callback T)
  (name : string) (options : option SpanOptions) (ctx : option Context)
  (active : Context) (w : World) :
  let created := startSpan name options ctx active w in
  let sp := fst created in
  let r := List.length (heap w) in
  let ran := fn sp (Some sp) (snd created) in
  let w2 := fst ran in
  let c := snd ran in
  let out := startActiveSpan name options ctx fn active w in
  sp = Recording r /\
  snd out = c /\
  fst out = apply_ops sp (tracer_reaction c) w2 /\
  (forall this2, heap w2 !! r = Some this2 ->
     exists this3,
       heap (fst out) !! r = Some this3 /\
       _ended this3 = true /\
       if _ended this2 then fst out = w2
       else activeSpanProcessor (fst out) = (fun l => l ++ [r]) <$> activeSpanProcessor w2 /\
            match c with
            | Normal (Plain _) | Normal (Promise (Fulfilled _)) =>
                _status this3 = _status this2 /\ _events this3 = _events this2
            | Normal (Promise (Rejected e)) | Throw e =>
                _status this3 = mkStatus ERROR None /\
                exists t, _events this3
                          = _events this2 ++
                            [mkEvent "exception" t (Some (exception_attributes e))]
            end) /\
  (forall ops c', fn = run_user (mkUserFn ops c') ->
     c = c' /\
     (exists this2, heap w2 !! r = Some this2) /\
     activeSpanProcessor (fst out) = (fun l => l ++ [r]) <$> activeSpanProcessor w).
Proof.
  intros created sp r ran w2 c out. subst created sp r ran w2 c out.
  rewrite startActiveSpan_runs_callback, settle_and_end_any. cbn [fst snd].
  destruct (startSpan_fresh name options ctx active w)
    as (this0 & Hsp & H0 & E0 & _ & _ & P0).
  rewrite Hsp.
  set (w1 := snd (startSpan name options ctx active w)) in *.
  set (r := List.length (heap w)) in *.
  set (w2 := fst (fn (Recording r) (Some (Recording r)) w1)).
  set (c := snd (fn (Recording r) (Some (Recording r)) w1)).
  split; [reflexivity|]. split; [reflexivity|]. split; [reflexivity|]. split.
  - intros this2 H2.
    destruct (ops_spec r (tracer_reaction c) w2 this2 H2) as (this3 & H3 & _ & E3 & P3 & _).
    rewrite tracer_reaction_has_end in E3, P3. rewrite orb_true_r in E3.
    rewrite andb_true_r in P3.
    destruct (_ended this2) eqn:Eended.
    + exists this2. rewrite (ended_ops_noop r this2 _ w2 H2 Eended). auto.
    + cbn [negb] in P3.
      destruct c as [[v|[v|e]]|e]; cbn [tracer_reaction] in *.
      * destruct (success_recording r this2 w2 H2 Eended) as (t3 & Ht & Et & St & Vt).
        exists t3. auto.
      * destruct (success_recording r this2 w2 H2 Eended) as (t3 & Ht & Et & St & Vt).
        exists t3. auto.
      * destruct (tracer_failure_recording r this2 e w2 H2 Eended)
          as (t3 & t & Ht & Et & St & Vt).
        exists t3. eauto 10.
      * destruct (tracer_failure_recording r this2 e w2 H2 Eended)
          as (t3 & t & Ht & Et & St & Vt).
        exists t3. eauto 10.
  - intros ops c' ->. subst w2 c. unfold run_user. cbn [fst snd fn_ops fn_completion].
    destruct (ops_spec r ops w1 this0 H0) as (this2 & H2 & _ & E2 & P2 & _).
    rewrite E0 in E2, P2. simpl in E2, P2.
    set (w2 := apply_ops (Recording r) ops w1) in *.
    destruct (ops_spec r (tracer_reaction c') w2 this2 H2) as (this3 & H3 & _ & E3 & P3 & _).
    rewrite tracer_reaction_has_end in P3. rewrite andb_true_r in P3.
    split; [reflexivity|]. split; [by exists this2|].
    rewrite P3, P2, <- E2, P0. destruct (_ended this2); reflexivity.
Qed.

Lemma withTrace_as_startActiveSpan {T} (u : UserFn T) (caller : CallerInfo)
  (opts : WithTraceOptions) (active : Context) (w : World) :
  withTrace (run_user u) caller opts active w
  = startActiveSpan (default (caller_function caller) (wt_name opts))
      (Some (withTrace_spanOptions caller opts)) None
      (run_user (mkUserFn (fn_ops u ++ withTrace_reaction (fn_completion u)) (fn_completion u)))
      (withTrace_parentContext opts active) w.
Proof.
  unfold withTrace, context_with, startActiveSpan.
  destruct (startSpan _ _ _ _ w) as [sp w1].
  unfold context_with, settle_and_end, try_catch, bind.
  rewrite withTrace_callback_user. reflexivity.
Qed.


(** ** Concrete runs *)

(** C1 fails as stated, in two ways. A callback that records the
    exception and ends its span before its promise rejects, as
    [withTrace]'s wrapper does: the rejection is handed on and the span is
    ended, but its status is still unset, not error. And a callback that
    returns an awaitable which is not a [Promise] and rejects: the span is
    ended as soon as the callback has returned, with its status unset and
    no exception event, and the awaitable is handed on as a value. *)
Lemma startActiveSpan_status_counterexample :
  (snd (startActiveSpan "op" None None self_ending_callback ROOT_CONTEXT sample_world)
   = Normal (Promise (Rejected sample_error)) /\
   (fun this => (_ended this, code (_status this)))
     <$> heap (fst (startActiveSpan "op" None None self_ending_callback
                      ROOT_CONTEXT sample_world)) !! 0
   = Some (true, UNSET)) /\
  (snd (startActiveSpan "op" None None rejecting_thenable ROOT_CONTEXT sample_world)
   = Normal (Plain (mkThenable (Rejected sample_error))) /\
   (fun this => (_ended this, code (_status this), _events this))
     <$> heap (fst (startActiveSpan "op" None None rejecting_thenable
                      ROOT_CONTEXT sample_world)) !! 0
   = Some (true, UNSET, [])).
Proof. repeat split; vm_compute; reflexivity. Qed.


End SpanProperties.

(* ===================================================================== *)
(** * Properties of objects used as bags                                  *)
(* ===================================================================== *)

Section ObjectProperties.
Import JsObject.
Context {A : Type}.
Implicit Types (o : props A) (k q : string) (v : A).

Lemma obj_get_set k v q o :
  obj_get q (obj_set k v o) = if String.eqb k q then Some v else obj_get q o.
Proof.
  induction o as [|[k0 v0] rest IH]; simpl.
  - destruct (String.eqb_spec k q); reflexivity.
  - destruct (String.eqb_spec k0 k) as [->|Hne]; simpl.
    + destruct (String.eqb_spec k q); reflexivity.
    + rewrite IH. destruct (String.eqb_spec k0 q) as [->|]; [|reflexivity].
      destruct (String.eqb_spec k q); [congruence | reflexivity].
Qed.

Lemma keys_obj_set k v o x :
  In x (List.map fst (obj_set k v o)) -> x = k \/ In x (List.map fst o).
Proof.
  induction o as [|[k0 v0] rest IH]; simpl.
  - intros [<-|[]]. by left.
  - destruct (String.eqb_spec k0 k) as [->|Hne]; simpl.
    + intros [<-|H]; auto.
    + intros [<-|H]; [auto|]. destruct (IH H); auto.
Qed.

Lemma NoDup_obj_set k v o :
  NoDup (List.map fst o) -> NoDup (List.map fst (obj_set k v o)).
Proof.
  induction o as [|[k0 v0] rest IH]; simpl; intros H.
  - repeat constructor. by intros ?%elem_of_nil.
  - apply NoDup_cons in H as [Hnotin Hnd].
    destruct (String.eqb_spec k0 k) as [->|Hne]; simpl.
    + apply NoDup_cons. split; assumption.
    + apply NoDup_cons. split; [|by apply IH].
      rewrite list_elem_of_In. intros Hin. apply keys_obj_set in Hin as [->|Hin]; [done|].
      apply Hnotin. by rewrite list_elem_of_In.
Qed.

Lemma last_binding_acc q (l : list (string * A)) (acc : option A) :
  List.fold_left (fun acc kv => if String.eqb (fst kv) q then Some (snd kv) else acc) l acc
  = match Exporter.last_binding q l with Some x => Some x | None => acc end.
Proof.
  unfold Exporter.last_binding. revert acc.
  induction l as [|[k v] l IH]; intros acc; simpl; [reflexivity|].
  rewrite IH, (IH (if String.eqb k q then Some v else None)).
  destruct (List.fold_left _ l None); [reflexivity|].
  destruct (String.eqb k q); reflexivity.
Qed.

Lemma last_binding_app q (l1 l2 : list (string * A)) :
  Exporter.last_binding q (l1 ++ l2)
  = match Exporter.last_binding q l2 with
    | Some x => Some x
    | None => Exporter.last_binding q l1
    end.
Proof.
  unfold Exporter.last_binding at 1. rewrite fold_left_app.
  apply last_binding_acc.
Qed.

Lemma last_binding_cons q k v (l : list (string * A)) :
  Exporter.last_binding q ((k, v) :: l)
  = match Exporter.last_binding q l with
    | Some x => Some x
    | None => if String.eqb k q then Some v else None
    end.
Proof. apply (last_binding_app q [(k, v)] l). Qed.

(** What a key is bound to is one of the bindings. *)
Lemma last_binding_elem q v (l : list (string * A)) :
  Exporter.last_binding q l = Some v -> In (q, v) l.
Proof.
  induction l as [|[k0 v0] rest IH]; [discriminate|].
  rewrite last_binding_cons.
  destruct (Exporter.last_binding q rest) as [x|].
  - intros [= ->]. right. by apply IH.
  - destruct (String.eqb_spec k0 q) as [->|]; [|discriminate].
    intros [= ->]. by left.
Qed.

(** Setting bindings one after the other: the last one for a key wins. *)
Lemma obj_get_fold_set q (l : list (string * A)) o :
  obj_get q (List.fold_left (fun t kv => obj_set (fst kv) (snd kv) t) l o)
  = match Exporter.last_binding q l with Some x => Some x | None => obj_get q o end.
Proof.
  revert o. induction l as [|[k v] l IH]; intros o; simpl; [reflexivity|].
  rewrite IH, obj_get_set, last_binding_cons. cbn [fst snd].
  destruct (Exporter.last_binding q l); [reflexivity|].
  destruct (String.eqb k q); reflexivity.
Qed.

(** An assignment reads back as a definition does, the key [__proto__]
    apart. *)
Lemma obj_get_assign k v q o :
  q <> "__proto__" ->
  obj_get q (obj_assign k v o) = if String.eqb k q then Some v else obj_get q o.
Proof.
  intros Hq. unfold obj_assign.
  destruct (String.eqb_spec k "__proto__") as [->|Hk]; cbn [andb];
    [|apply obj_get_set].
  destruct (has_own "__proto__" o); cbn [negb]; [apply obj_get_set|].
  destruct (String.eqb_spec "__proto__" q); [congruence | reflexivity].
Qed.

Lemma obj_get_fold_assign q (l : list (string * A)) o :
  q <> "__proto__" ->
  obj_get q (List.fold_left (fun t kv => obj_assign (fst kv) (snd kv) t) l o)
  = match Exporter.last_binding q l with Some x => Some x | None => obj_get q o end.
Proof.
  intros Hq. revert o. induction l as [|[k v] l IH]; intros o; simpl; [reflexivity|].
  rewrite IH, (obj_get_assign k v q o Hq), last_binding_cons. cbn [fst snd].
  destruct (Exporter.last_binding q l); [reflexivity|].
  destruct (String.eqb k q); reflexivity.
Qed.

Lemma NoDup_fold_set (l : list (string * A)) o :
  NoDup (List.map fst o) ->
  NoDup (List.map fst (List.fold_left (fun t kv => obj_set (fst kv) (snd kv) t) l o)).
Proof.
  revert o. induction l as [|[k v] l IH]; intros o H; simpl; [exact H|].
  apply IH, NoDup_obj_set, H.
Qed.

Lemma obj_get_not_in q o : ~ In q (List.map fst o) -> obj_get q o = None.
Proof.
  induction o as [|[k v] rest IH]; simpl; intros H; [reflexivity|].
  destruct (String.eqb_spec k q) as [->|]; [tauto|]. apply IH. tauto.
Qed.

(** With distinct keys, lookup is membership. *)
Lemma obj_get_In q v o :
  NoDup (List.map fst o) -> (obj_get q o = Some v <-> In (q, v) o).
Proof.
  induction o as [|[k0 v0] rest IH]; simpl; intros H.
  - split; [discriminate | tauto].
  - apply NoDup_cons in H as [Hnotin Hnd]. rewrite list_elem_of_In in Hnotin.
    destruct (String.eqb_spec k0 q) as [->|Hne].
    + split.
      * intros [= ->]. by left.
      * intros [[= ->]|Hin]; [reflexivity|].
        exfalso. apply Hnotin. apply (in_map fst) in Hin. exact Hin.
    + rewrite (IH Hnd). split; [tauto|]. intros [[= -> ->]|Hin]; [done | exact Hin].
Qed.

Lemma last_binding_In q v (l : list (string * A)) :
  NoDup (List.map fst l) -> (Exporter.last_binding q l = Some v <-> In (q, v) l).
Proof.
  revert v. induction l as [|[k0 v0] rest IH]; simpl; intros v H.
  - split; [discriminate | tauto].
  - apply NoDup_cons in H as [Hnotin Hnd]. rewrite list_elem_of_In in Hnotin.
    rewrite last_binding_cons.
    destruct (Exporter.last_binding q rest) as [x|] eqn:Hlast.
    + assert (Hx : In (q, x) rest) by (apply (IH x Hnd); reflexivity).
      split.
      * intros [= ->]. by right.
      * intros [[= -> ->]|Hin].
        -- exfalso. apply Hnotin. apply (in_map fst) in Hx. exact Hx.
        -- apply (IH v Hnd) in Hin. congruence.
    + destruct (String.eqb_spec k0 q) as [->|Hne].
      * split; [intros [= ->]; by left|].
        intros [[= ->]|Hin]; [reflexivity|]. apply (IH v Hnd) in Hin. discriminate.
      * split; [discriminate|]. intros [[= -> ->]|Hin]; [done|].
        apply (IH v Hnd) in Hin. discriminate.
Qed.

Lemma insert_by_index_perm (e : N * (string * A)) l :
  Permutation (insert_by_index e l) (e :: l).
Proof.
  induction l as [|e' rest IH]; simpl; [reflexivity|].
  destruct (fst e <=? fst e')%N; [reflexivity|].
  rewrite IH. apply perm_swap.
Qed.

(** Enumeration reorders the properties, it neither drops nor repeats one. *)
Lemma Object_entries_perm o : Permutation (Object_entries o) o.
Proof.
  unfold Object_entries. induction o as [|kv rest IH]; simpl; [reflexivity|].
  destruct (array_index (fst kv)) as [n|]; simpl.
  - rewrite (Permutation_map snd (insert_by_index_perm (n, kv) (indexed rest))).
    simpl. by apply perm_skip.
  - rewrite <- Permutation_middle. by apply perm_skip.
Qed.

Lemma obj_get_Object_assign q (t s : props A) :
  NoDup (List.map fst s) ->
  obj_get q (Object_assign t s)
  = match obj_get q s with Some x => Some x | None => obj_get q t end.
Proof.
  intros Hs. unfold Object_assign. rewrite obj_get_fold_set.
  assert (Hperm := Object_entries_perm s).
  assert (Hnd : NoDup (List.map fst (Object_entries s))).
  { rewrite (Permutation_map fst Hperm). exact Hs. }
  assert (Heq : Exporter.last_binding q (Object_entries s) = obj_get q s).
  { destruct (obj_get q s) as [x|] eqn:Hget.
    - apply (last_binding_In q x _ Hnd). eapply Permutation_in; [symmetry; exact Hperm|].
      by apply (obj_get_In q x s Hs).
    - destruct (Exporter.last_binding q (Object_entries s)) as [y|] eqn:Hlast; [|reflexivity].
      apply (last_binding_In q y _ Hnd) in Hlast.
      apply (Permutation_in _ Hperm) in Hlast. apply (obj_get_In q y s Hs) in Hlast.
      congruence. }
  rewrite Heq. reflexivity.
Qed.

Lemma NoDup_Object_assign (t s : props A) :
  NoDup (List.map fst t) -> NoDup (List.map fst (Object_assign t s)).
Proof. apply NoDup_fold_set. Qed.

End ObjectProperties.

(* ===================================================================== *)
(** * Properties of the exporter's attribute encoding                     *)
(* ===================================================================== *)

Section EncodingProperties.
Import JsObject Exporter.

Variable Number : Type.
Variable Number_isInteger : Number -> bool.
Variable Number_toString : Number -> string.
Variable Date : Type.
Variable toISOString : Date -> string.
Variable Other : Type.
Variable String_of : Other -> string.
Variable JSON_stringify : value Number Date Other -> string.

Local Abbreviation val := (value Number Date Other).
Local Abbreviation toOTLP :=
  (toOTLPValue Number Number_isInteger Number_toString Date toISOString Other String_of
     JSON_stringify).
Local Abbreviation encode :=
  (attributesToOTLP Number Number_isInteger Number_toString Date toISOString Other String_of
     JSON_stringify).

Local Abbreviation merged found result q :=
  (match found with Some x => Some x | None => obj_get q result end).

Local Abbreviation unless_proto q found :=
  (if String.eqb q "__proto__" then None else found).

Lemma assign_spec (k : string) (v : val) (result : props val) :
  NoDup (List.map fst result) ->
  NoDup (List.map fst (assign Number Date Other k v result)) /\
  forall q, obj_get q (assign Number Date Other k v result)
            = merged (unless_proto q (last_binding q [(k, v)])) result q.
Proof.
  intros Hnd. unfold assign, last_binding. cbn [List.fold_left fst snd].
  destruct (String.eqb_spec k "__proto__") as [->|Hk].
  - split; [exact Hnd|]. intros q.
    destruct (String.eqb_spec q "__proto__") as [->|Hq]; [reflexivity|].
    destruct (String.eqb_spec "__proto__" q); [congruence | reflexivity].
  - split; [by apply NoDup_obj_set|]. intros q. rewrite obj_get_set.
    destruct (String.eqb_spec k q) as [<-|].
    + by destruct (String.eqb_spec k "__proto__").
    + by destruct (String.eqb q "__proto__").
Qed.

(** Flattening one entry into [result]: keys stay distinct, and a key
    other than [__proto__] reads as its last leaf under the entry if it has
    one, else as before; [__proto__] reads as before. *)
Lemma flattenEntry_spec :
  forall (v : val) (k : string) (result : props val),
    NoDup (List.map fst result) ->
    NoDup (List.map fst (flattenEntry Number Date Other k v result)) /\
    forall q, obj_get q (flattenEntry Number Date Other k v result)
              = merged (unless_proto q (last_binding q (leaves Number Date Other k v)))
                  result q.
Proof.
  fix IH 1. intros v k result Hnd.
  destruct v as [| |s|n|b|items|d|entries|o];
    try (cbn [flattenEntry leaves]; by apply assign_spec).
  cbn [flattenEntry leaves].
  set (loop := fix loop (es : list (string * val)) (acc : props val) : props val :=
         match es with
         | [] => acc
         | (key, v') :: rest => loop rest (flattenEntry Number Date Other (newKey k key) v' acc)
         end).
  set (each := fix each (es : list (string * val)) : list (string * val) :=
         match es with
         | [] => []
         | (key, v') :: rest => leaves Number Date Other (newKey k key) v' ++ each rest
         end).
  assert (Hloop : forall es acc,
            NoDup (List.map fst acc) ->
            NoDup (List.map fst (loop es acc)) /\
            forall q, obj_get q (loop es acc)
                      = merged (unless_proto q (last_binding q (each es))) acc q).
  { clear result Hnd. fix IHes 1. intros [|[key v'] rest] acc Hacc.
    - split; [exact Hacc|]. intros q. cbn [loop each].
      by destruct (String.eqb q "__proto__").
    - destruct (IH v' (newKey k key) acc Hacc) as [N1 G1].
      destruct (IHes rest _ N1) as [N2 G2].
      split; [exact N2|]. intros q. cbn [loop each].
      rewrite (G2 q), last_binding_app, (G1 q).
      destruct (String.eqb q "__proto__"); [reflexivity|].
      destruct (last_binding q (each rest)); reflexivity. }
  destruct (Hloop entries [] ltac:(constructor)) as [Nsub Gsub].
  split; [by apply NoDup_Object_assign|].
  intros q. rewrite (obj_get_Object_assign q result _ Nsub), (Gsub q).
  simpl. destruct (String.eqb q "__proto__"); [reflexivity|].
  destruct (last_binding q (each entries)); reflexivity.
Qed.

Lemma flattenAttributes_spec (obj : list (string * val)) (prefix : string) :
  NoDup (List.map fst (flattenAttributes Number Date Other obj prefix)) /\
  forall q, obj_get q (flattenAttributes Number Date Other obj prefix)
            = unless_proto q (last_binding q (leaf_paths Number Date Other obj prefix)).
Proof.
  unfold flattenAttributes, leaf_paths.
  assert (H : forall acc,
            NoDup (List.map fst acc) ->
            NoDup (List.map fst
                     (List.fold_left
                        (fun result kv =>
                           flattenEntry Number Date Other (newKey prefix (fst kv)) (snd kv) result)
                        obj acc)) /\
            forall q, obj_get q
                        (List.fold_left
                           (fun result kv =>
                              flattenEntry Number Date Other (newKey prefix (fst kv)) (snd kv) result)
                           obj acc)
                      = merged
                          (unless_proto q
                             (last_binding q
                                (List.flat_map
                                   (fun kv =>
                                      leaves Number Date Other (newKey prefix (fst kv)) (snd kv))
                                   obj)))
                          acc q).
  { induction obj as [|[key v] rest IHrest]; intros acc Hacc.
    - split; [exact Hacc|]. intros q. simpl. by destruct (String.eqb q "__proto__").
    - destruct (flattenEntry_spec v (newKey prefix key) acc Hacc) as [N1 G1].
      destruct (IHrest _ N1) as [N2 G2]. split; [exact N2|].
      intros q. simpl. rewrite (G2 q), last_binding_app, (G1 q).
      destruct (String.eqb q "__proto__"); [reflexivity|].
      destruct (last_binding q (List.flat_map _ rest)); reflexivity. }
  destruct (H [] ltac:(constructor)) as [N G]. split; [exact N|].
  intros q. rewrite (G q). simpl.
  destruct (String.eqb q "__proto__"); [reflexivity|].
  destruct (last_binding q _); reflexivity.
Qed.

(** A leaf is never an object that [flattenAttributes] would descend into. *)
Lemma leaves_not_nested :
  forall (v : val) (path : string) (kv : string * val),
    In kv (leaves Number Date Other path v) -> is_nested Number Date Other (snd kv) = false.
Proof.
  fix IH 1. intros v path kv.
  destruct v as [| |s|n|b|items|d|entries|o];
    try (cbn [leaves]; intros [<-|[]]; reflexivity).
  cbn [leaves].
  set (each := fix each (es : list (string * val)) : list (string * val) :=
         match es with
         | [] => []
         | (key, v') :: rest => leaves Number Date Other (newKey path key) v' ++ each rest
         end).
  assert (Heach : forall es, In kv (each es) -> is_nested Number Date Other (snd kv) = false).
  { fix IHes 1. intros [|[key v'] rest]; cbn [each]; [intros []|].
    intros Hin. apply in_app_or in Hin as [Hin|Hin].
    - exact (IH v' _ kv Hin).
    - exact (IHes rest Hin). }
  apply Heach.
Qed.

Lemma leaf_paths_not_nested (obj : list (string * val)) (prefix : string)
  (kv : string * val) :
  In kv (leaf_paths Number Date Other obj prefix) -> is_nested Number Date Other (snd kv) = false.
Proof.
  unfold leaf_paths. rewrite in_flat_map. intros ([key v] & _ & Hin).
  exact (leaves_not_nested v _ kv Hin).
Qed.

Example encode_deep :
  encode [("a", VObject [("b", VObject [("c", VBoolean true)]); ("d", VNull)])]
  = [mkKeyValue "a.b.c" (boolValue true); mkKeyValue "a.d" (stringValue "")].
Proof. reflexivity. Qed.

(** An object without enumerable properties contributes no key. *)
Example encode_empty_object :
  encode [("kept", VString "x"); ("gone", VObject [])] = [mkKeyValue "kept" (stringValue "x")].
Proof. reflexivity. Qed.

(** Two paths that join to the same key: the later leaf wins, in the place
    of the earlier one. *)
Example encode_clash :
  encode [("a.b", VString "first"); ("z", VBoolean false);
          ("a", VObject [("b", VString "second")])]
  = [mkKeyValue "a.b" (stringValue "second"); mkKeyValue "z" (boolValue false)].
Proof. reflexivity. Qed.

(** An own key [__proto__] of the input is lost to the inherited setter,
    at the top and under an empty key; further down the path has a dot. *)
Example encode_proto :
  encode [("__proto__", VString "x"); ("", VObject [("__proto__", VNull)]);
          ("a", VObject [("__proto__", VBoolean true)])]
  = [mkKeyValue "a.__proto__" (boolValue true)].
Proof. reflexivity. Qed.



End EncodingProperties.


(* ===================================================================== *)
(** * Properties of the export transport                                  *)
(* ===================================================================== *)

Section ExportProperties.
Import JsObject Effects Exporter.

Variable ExportableSpan : Type.
Variable LogEntry : Type.
Variable Body : Type.
Variable buildTraceExportRequest :
  list ExportableSpan -> string -> option (props string) -> Completion Body.
Variable buildLogExportRequest :
  list LogEntry -> string -> option (props string) -> Completion Body.
Variable JSON_stringify : Body -> Completion string.
Variable status_toString : Z -> string.
Variable fetchFn : string -> RequestInit -> Completion (Settled Response).

Local Abbreviation export_traces :=
  (exportTraces ExportableSpan Body buildTraceExportRequest JSON_stringify status_toString
     fetchFn).
Local Abbreviation export_logs :=
  (exportLogs LogEntry Body buildLogExportRequest JSON_stringify status_toString fetchFn).

(** C7 (as the code has it). [exportTraces] and [exportLogs] do nothing
    for an empty list. For a non-empty list the request body is built
    first, outside the [try] block: when building it throws, the returned
    promise rejects with that error, nothing is sent and nothing is
    logged. When the body has been built, the promise is fulfilled
    whatever happens next: when serialising the body throws, or the
    transport throws or rejects, the error is caught and logged with
    [console.error]; when the response is not 2xx, the failure is logged
    (for logs together with the response text, and if reading that text
    fails, that error is caught and logged instead); when the response is
    2xx nothing is logged. *)
Theorem export_rejects_only_when_building_fails (config : OTLPExporterConfig)
  (serviceName' : string) (console : Console) :
  export_traces config [] serviceName' console = (console, Fulfilled tt) /\
  export_logs config [] serviceName' console = (console, Fulfilled tt) /\
  (forall span rest,
     export_traces config (span :: rest) serviceName' console
     = match buildTraceExportRequest (span :: rest)
               (default serviceName' (serviceName config)) (resourceAttributes config) with
       | Throw e => (console, Rejected e)
       | Normal body =>
           (match JSON_stringify body with
            | Throw e => console ++ [[Text "OTLP trace export error:"; Caught e]]
            | Normal serialised =>
                match fetchFn (endpoint config ++ "/v1/traces")%string
                        (export_request config serialised) with
                | Throw e | Normal (Rejected e) =>
                    console ++ [[Text "OTLP trace export error:"; Caught e]]
                | Normal (Fulfilled r) =>
                    if ok r then console
                    else console ++
                         [[Text ("OTLP trace export failed: " ++ status_toString (status r)
                                 ++ " " ++ statusText r)%string]]
                end
            end, Fulfilled tt)
       end) /\
  (forall entry rest,
     export_logs config (entry :: rest) serviceName' console
     = match buildLogExportRequest (entry :: rest)
               (default serviceName' (serviceName config)) (resourceAttributes config) with
       | Throw e => (console, Rejected e)
       | Normal body =>
           (match JSON_stringify body with
            | Throw e =>
                console ++ [[Text "[otel-cloudflare] OTLP log export error:"; Caught e]]
            | Normal serialised =>
                match fetchFn (endpoint config ++ "/v1/logs")%string
                        (export_request config serialised) with
                | Throw e | Normal (Rejected e) =>
                    console ++ [[Text "[otel-cloudflare] OTLP log export error:"; Caught e]]
                | Normal (Fulfilled r) =>
                    if ok r then console
                    else match text r with
                         | Fulfilled t =>
                             console ++
                             [[Text ("[otel-cloudflare] OTLP log export failed: "
                                     ++ status_toString (status r) ++ " "
                                     ++ statusText r)%string;
                               Text t]]
                         | Rejected e =>
                             console ++
                             [[Text "[otel-cloudflare] OTLP log export error:"; Caught e]]
                         end
                end
            end, Fulfilled tt)
       end).
Proof.
  split; [reflexivity|]. split; [reflexivity|]. split.
  - intros span rest.
    unfold exportTraces, async, try_catch, bind, call, await, console_error, lift.
    cbn [List.length Nat.eqb].
    destruct (buildTraceExportRequest _ _ _) as [body|e]; [|reflexivity].
    destruct (JSON_stringify body) as [serialised|e]; [|reflexivity].
    destruct (fetchFn _ _) as [[r|e]|e]; try reflexivity.
    destruct (ok r); reflexivity.
  - intros entry rest.
    unfold exportLogs, async, try_catch, bind, call, await, console_error, lift.
    cbn [List.length Nat.eqb].
    destruct (buildLogExportRequest _ _ _) as [body|e]; [|reflexivity].
    destruct (JSON_stringify body) as [serialised|e]; [|reflexivity].
    destruct (fetchFn _ _) as [[r|e]|e]; try reflexivity.
    destruct (ok r); [reflexivity|]. cbn [negb].
    destruct (text r); reflexivity.
Qed.

End ExportProperties.

(** C7 fails as stated: a span whose start time is [NaN] makes
    [buildTraceExportRequest] throw, an attribute array that contains
    itself makes [buildLogExportRequest] throw; with a transport that
    answers 200 the promises of [exportTraces] and [exportLogs] reject, and
    nothing is logged. *)
Lemma export_rejects_counterexample :
  Exporter.exportTraces unit unit (fun _ _ _ => Effects.Throw Exporter.nan_time_error)
    (fun _ => Effects.Normal "{}") (fun _ => "200") Exporter.answering_fetch
    Adapters.sample_config [tt] "svc" []
  = ([], Effects.Rejected Exporter.nan_time_error) /\
  Exporter.exportLogs unit unit (fun _ _ _ => Effects.Throw Exporter.circular_array_error)
    (fun _ => Effects.Normal "{}") (fun _ => "200") Exporter.answering_fetch
    Adapters.sample_config [tt] "svc" []
  = ([], Effects.Rejected Exporter.circular_array_error).
Proof. split; reflexivity. Qed.


(* ===================================================================== *)
(** * Properties of the request adapters                                  *)
(* ===================================================================== *)

Section AdapterProperties.
Import SpanEngine Adapters.

(** The ignore test: exact equality for strings, [test] for patterns, the
    health-check list when no list is configured. *)
Lemma shouldIgnoreUrl_spec (request : Request) (ignoreUrls : option (list Pattern)) :
  shouldIgnoreUrl request ignoreUrls = true <->
  List.Exists (matches (req_pathname request)) (default DEFAULT_IGNORE_URLS ignoreUrls).
Proof.
  unfold shouldIgnoreUrl. set (patterns := default DEFAULT_IGNORE_URLS ignoreUrls).
  destruct patterns as [|p ps] eqn:E.
  - simpl. split; [discriminate | intros H; inversion H].
  - cbn [List.length Nat.eqb]. rewrite existsb_exists, List.Exists_exists.
    split; intros (x & Hin & Hx); exists x; (split; [exact Hin|]);
      destruct x as [s|lastIndex test]; simpl in *; try assumption.
    + by apply String.eqb_eq.
    + by apply String.eqb_eq.
Qed.

Example ignore_is_exact_on_strings :
  shouldIgnoreUrl (mkRequest "GET" "https://example.com/health/db" "/health/db" None) None
  = false.
Proof. reflexivity. Qed.

Example ignore_empty_list_ignores_nothing : shouldIgnoreUrl health_check (Some []) = false.
Proof. reflexivity. Qed.

Example ignore_by_pattern :
  shouldIgnoreUrl (mkRequest "GET" "https://example.com/internal/x" "/internal/x" None)
    (Some [PString "/health"; internal_prefix])
  = true.
Proof. reflexivity. Qed.

(** A sticky pattern remembers where its last match ended: the same
    request is ignored the first time and traced the second. *)
Example ignore_by_sticky_pattern_alternates :
  shouldIgnoreUrl (mkRequest "GET" "https://example.com/internal/x" "/internal/x" None)
    (Some [internal_prefix_sticky])
  = true /\
  shouldIgnoreUrl (mkRequest "GET" "https://example.com/internal/x" "/internal/x" None)
    (Some (tested "/internal/x" [internal_prefix_sticky]))
  = false.
Proof. split; reflexivity. Qed.

(** The fetch wrapper of [instrument] on an ignored request is the wrapped
    handler and nothing else: no span, nothing for the processor. *)
Lemma instrumented_fetch_ignored
  (traced_fetch : (Request -> Context -> Async Exporter.Response) -> Request -> Context -> Async Exporter.Response)
  (originalFetch : Request -> Context -> Async Exporter.Response)
  (ignoreUrls : option (list Pattern)) (request : Request) (active : Context) (rt : Runtime) :
  shouldIgnoreUrl request ignoreUrls = true ->
  instrumented_fetch traced_fetch originalFetch ignoreUrls request active rt
  = originalFetch request active rt.
Proof. intros H. unfold instrumented_fetch. rewrite H. reflexivity. Qed.

(** [traceHandler] on an ignored request: the handler runs, with an ended
    span, in a world where that span has just been created through the
    tracer and given to the processor. *)
Lemma traceHandler_ignored
  (traced_handler : option Exporter.OTLPExporterConfig -> Request ->
                    (Span -> Context -> Async Exporter.Response) -> Context -> Async Exporter.Response)
  (config : option Exporter.OTLPExporterConfig) (request : Request)
  (handler : Span -> Context -> Async Exporter.Response) (ignoreUrls : option (list Pattern))
  (active : Context) (rt : Runtime) :
  shouldIgnoreUrl request ignoreUrls = true ->
  exists (w2 : World) (this : CloudflareSpan) (buffer : list nat),
    let r := List.length (heap (world rt)) in
    traceHandler traced_handler config request handler ignoreUrls active rt
    = (flush config (fst (handler (Recording r) active (with_world w2 (initOTLP rt)))),
       snd (handler (Recording r) active (with_world w2 (initOTLP rt)))) /\
    heap w2 !! r = Some this /\
    _name this = "noop" /\
    _ended this = true /\
    activeSpanProcessor (world (initOTLP rt)) = Some buffer /\
    activeSpanProcessor w2 = Some (buffer ++ [r]).
Proof.
  intros Hignore. unfold traceHandler. rewrite Hignore.
  set (rt1 := initOTLP rt).
  assert (Hheap : heap (world rt1) = heap (world rt)).
  { unfold rt1, initOTLP, getSpanProcessor.
    destruct (activeSpanProcessor (world rt)); reflexivity. }
  assert (Hproc : exists buffer, activeSpanProcessor (world rt1) = Some buffer).
  { unfold rt1, initOTLP, getSpanProcessor.
    destruct (activeSpanProcessor (world rt)) as [b|] eqn:E; simpl; eauto. }
  destruct Hproc as [buffer Hbuffer].
  destruct (startSpan_fresh "noop" None None active (world rt1))
    as (this0 & Hsp & H0 & E0 & _ & _ & P0).
  destruct (startSpan "noop" None None active (world rt1)) as [noopSpan w1] eqn:Hstart.
  cbn [fst snd] in Hsp, H0, P0. subst noopSpan. rewrite Hheap in *.
  set (r := List.length (heap (world rt))) in *.
  destruct (step_spec r this0 (OpEnd None) w1 H0) as (this1 & H1 & _ & E1 & P1 & _).
  change (apply_op (Recording r) (OpEnd None) w1)
    with (span_end (Recording r) None w1) in H1, P1.
  set (w2 := span_end (Recording r) None w1) in *.
  rewrite E0 in E1, P1. cbn [is_end negb andb orb] in E1, P1.
  exists w2, this1, buffer.
  destruct (handler (Recording r) active (with_world w2 rt1)) as [rt2 result] eqn:Hh.
  cbn [fst snd]. split; [reflexivity|]. split; [exact H1|].
  split.
  { pose proof (span_end_exact r this0 w1 H0 E0) as Hexact. fold w2 in Hexact.
    assert (Hthis : this1 = set_endTime (Some (clock w1 (clock_pos w1))) (set_ended true this0))
      by congruence.
    rewrite Hthis. cbn [_name set_endTime set_ended].
    pose proof (startSpan_name "noop" None None active (world rt1)) as Hname.
    rewrite Hstart, Hheap in Hname. cbn [snd] in Hname. fold r in Hname.
    rewrite H0 in Hname. by injection Hname. }
  split; [exact E1|]. split; [exact Hbuffer|].
  rewrite P1, P0, Hbuffer. reflexivity.
Qed.

(** C8 at a health-check request. With the default ignore list
    [traceHandler] answers the handler's response for [/health], yet one
    batch has gone to the trace exporter: the span the adapter itself
    started under the name ["noop"]. *)
Theorem traceHandler_health_check_exports_noop_span
  (traced_handler : option Exporter.OTLPExporterConfig -> Request ->
                    (Span -> Context -> Async Exporter.Response) -> Context -> Async Exporter.Response) :
  shouldIgnoreUrl health_check None = true /\
  snd (traceHandler traced_handler (Some sample_config) health_check ok_handler None
         ROOT_CONTEXT fresh_runtime)
  = Fulfilled (Exporter.mkResponse 200 "OK" (Fulfilled "OK")) /\
  traceExports (fst (traceHandler traced_handler (Some sample_config) health_check ok_handler
                       None ROOT_CONTEXT fresh_runtime))
  = [[0]] /\
  _name <$> heap (world (fst (traceHandler traced_handler (Some sample_config) health_check
                                ok_handler None ROOT_CONTEXT fresh_runtime))) !! 0
  = Some "noop".
Proof. repeat split; vm_compute; reflexivity. Qed.

End AdapterProperties.

(* ===================================================================== *)
(** * Properties of [TracedError[Symbol.hasInstance]]                      *)
(* ===================================================================== *)

Section ErrorChainProperties.
Import ErrorChain.

Lemma Prototype_eqb_eq (p q : Prototype) : Prototype_eqb p q = true <-> p = q.
Proof.
  destruct p, q; simpl; try (split; [discriminate | congruence]);
    try (split; reflexivity).
  rewrite Nat.eqb_eq. split; congruence.
Qed.

Lemma instanceof_Error_spec (h : Heap) (v : JsValue) :
  instanceof_Error h v = true <-> exists a o, v = JsRef a /\ h !! a = Some o /\ is_Error o.
Proof.
  unfold instanceof_Error, is_Error. split.
  - destruct v as [| |t|a]; try discriminate.
    destruct (h !! a) as [o|] eqn:Ho; [|discriminate].
    rewrite existsb_exists. intros (p & Hin & Hp).
    apply Prototype_eqb_eq in Hp. subst p. eauto.
  - intros (a & o & -> & Ho & Hin). rewrite Ho. rewrite existsb_exists.
    exists ErrorPrototype. split; [exact Hin | by apply Prototype_eqb_eq].
Qed.

Lemma is_direct_TracedError_spec (o : HeapObject) :
  is_direct_TracedError o = true <-> direct_prototype o = Some TracedErrorPrototype.
Proof.
  unfold is_direct_TracedError, direct_prototype. destruct (protoChain o) as [|p ps]; simpl.
  - split; discriminate.
  - rewrite Prototype_eqb_eq. split; congruence.
Qed.

Lemma not_an_object_spec (h : Heap) (e : JsValue) :
  not_an_object h e = false <-> is_object h e.
Proof.
  unfold not_an_object, is_object. split.
  - destruct e as [| |t|a]; try discriminate.
    destruct (h !! a) as [o|] eqn:Ho; [|discriminate]. eauto.
  - intros (a & o & -> & Ho & Hc). rewrite Ho. exact Hc.
Qed.

(** The loop answers [true] only when the chain reaches a [TracedError]. *)
Lemma walk_sound (fuel : nat) (h : Heap) :
  forall v, walk fuel h v = Some true -> reaches_TracedError h v.
Proof.
  induction fuel as [|fuel IH]; intros v; simpl; [discriminate|].
  destruct (instanceof_Error h v) eqn:Herr; [|discriminate].
  apply instanceof_Error_spec in Herr as (a & o & -> & Ho & HE).
  rewrite Ho. destruct (is_direct_TracedError o) eqn:Hd.
  - intros _. apply (reaches_here h a o Ho HE). by apply is_direct_TracedError_spec.
  - intros Hw. apply (reaches_through_cause h a o Ho HE). by apply IH.
Qed.

Lemma walk_more_fuel (fuel : nat) (h : Heap) :
  forall v b, walk fuel h v = Some b -> walk (S fuel) h v = Some b.
Proof.
  induction fuel as [|fuel IH]; intros v b; [discriminate|].
  intros H. simpl in H. change (walk (S (S fuel)) h v) with
    (if instanceof_Error h v then
       match v with
       | JsRef a =>
           match h !! a with
           | Some o => if is_direct_TracedError o then Some true else walk (S fuel) h (cause o)
           | None => Some false
           end
       | _ => Some false
       end
     else Some false).
  destruct (instanceof_Error h v); [|exact H].
  destruct v as [| |t|a]; try exact H.
  destruct (h !! a) as [o|]; [|exact H].
  destruct (is_direct_TracedError o); [exact H|]. by apply IH.
Qed.

Lemma walk_fuel_le (h : Heap) (v : JsValue) (b : bool) (fuel fuel' : nat) :
  fuel <= fuel' -> walk fuel h v = Some b -> walk fuel' h v = Some b.
Proof.
  induction 1 as [|fuel' _ IH]; [auto|]. intros H. by apply walk_more_fuel, IH.
Qed.

(** With enough fuel the loop finds the [TracedError] the chain reaches. *)
Lemma walk_complete (h : Heap) (v : JsValue) :
  reaches_TracedError h v -> exists fuel, walk fuel h v = Some true.
Proof.
  induction 1 as [a o Ho HE Hd | a o Ho HE _ [fuel IH]].
  - exists 1. cbn [walk].
    rewrite (proj2 (instanceof_Error_spec h (JsRef a))) by eauto.
    rewrite Ho, (proj2 (is_direct_TracedError_spec o) Hd). reflexivity.
  - exists (S fuel). cbn [walk].
    rewrite (proj2 (instanceof_Error_spec h (JsRef a))) by eauto.
    rewrite Ho. destruct (is_direct_TracedError o); [reflexivity | exact IH].
Qed.

(** On a heap without cycles of causes the loop ends. *)
Lemma walk_terminates (h : Heap) :
  causes_are_older h ->
  forall v, exists b, walk (S (S (List.length h))) h v = Some b.
Proof.
  intros Hold.
  assert (Href : forall a, exists b, walk (S (S a)) h (JsRef a) = Some b).
  { intros a. induction (lt_wf a) as [a _ IH].
    cbn [walk]. destruct (instanceof_Error h (JsRef a)) eqn:Herr; [|eauto].
    destruct (h !! a) as [o|] eqn:Ho; [|eauto].
    destruct (is_direct_TracedError o); [eauto|].
    destruct (cause o) as [| |t|b] eqn:Hc; try solve [simpl; eauto].
    pose proof (Hold a o b Ho Hc) as Hlt.
    destruct (IH b Hlt) as [r Hr]. exists r.
    apply (walk_fuel_le h (JsRef b) r (S (S b)) (S a)); [lia | exact Hr]. }
  intros [| |t|a]; try solve [simpl; eauto].
  destruct (decide (a < List.length h)) as [Hlt|Hge].
  - destruct (Href a) as [b Hb]. exists b.
    apply (walk_fuel_le h (JsRef a) b (S (S a))); [lia | exact Hb].
  - exists false. cbn [walk]. unfold instanceof_Error.
    assert (Hnone : h !! a = None) by (apply lookup_ge_None; lia).
    rewrite Hnone. reflexivity.
Qed.

Example constructed_TracedError_is_instance :
  hasInstance 1 wrapped_heap (JsRef 0) = Some true.
Proof. reflexivity. Qed.

(** A [TracedError] held by a plain object that is not an [Error] is not
    found: the loop stops at the first element that is not an [Error]. *)
Example cause_behind_plain_object_is_not_found :
  hasInstance 3
    [mkObject false [TracedErrorPrototype; ErrorPrototype; ObjectPrototype] JsUndefined;
     mkObject false [ObjectPrototype] (JsRef 0);
     mkObject false [ErrorPrototype; ObjectPrototype] (JsRef 1)]
    (JsRef 2) = Some false.
Proof. reflexivity. Qed.

Example function_is_not_instance :
  hasInstance 3 [mkObject true [TracedErrorPrototype; ErrorPrototype; ObjectPrototype] JsUndefined]
    (JsRef 0) = Some false.
Proof. reflexivity. Qed.

(** An error that is its own cause and no [TracedError]: the loop never
    ends, whatever the fuel. *)
Example self_caused_error_runs_out_of_fuel (fuel : nat) :
  hasInstance fuel [mkObject false [ErrorPrototype; ObjectPrototype] (JsRef 0)] (JsRef 0) = None.
Proof. induction fuel as [|fuel IH]; [reflexivity | exact IH]. Qed.

(** C10. [e instanceof TracedError] answers [true] exactly when [e] is an
    object and the chain [e], [e.cause], [e.cause.cause], ..., followed
    while each element is an [Error], reaches an object whose direct
    prototype is [TracedError.prototype]; whenever it answers [false] that
    is not the case. In particular a plain [Error] whose cause was
    constructed as a [TracedError] is an instance, though its own direct
    prototype is [Error.prototype]. *)
Theorem hasInstance_walks_cause_chain (h : Heap) (e : JsValue) :
  ((exists fuel, hasInstance fuel h e = Some true) <->
   is_object h e /\ reaches_TracedError h e) /\
  (forall fuel, hasInstance fuel h e = Some false ->
     ~ (is_object h e /\ reaches_TracedError h e)) /\
  (hasInstance 2 wrapped_heap (JsRef 1) = Some true /\
   direct_prototype <$> wrapped_heap !! 1 = Some (Some ErrorPrototype)).
Proof.
  split; [|split; [|split; reflexivity]].
  - unfold hasInstance. split.
    + intros [fuel H]. destruct (not_an_object h e) eqn:Hobj; [discriminate|].
      split; [by apply not_an_object_spec | by apply (walk_sound fuel)].
    + intros [Hobj Hreach]. apply not_an_object_spec in Hobj. rewrite Hobj.
      by apply walk_complete.
  - unfold hasInstance. intros fuel H [Hobj Hreach].
    apply not_an_object_spec in Hobj. rewrite Hobj in H.
    destruct (walk_complete h e Hreach) as [fuel' H'].
    pose proof (walk_fuel_le h e false fuel (fuel + fuel') ltac:(lia) H) as H1.
    pose proof (walk_fuel_le h e true fuel' (fuel + fuel') ltac:(lia) H') as H2.
    congruence.
Qed.

End ErrorChainProperties.

(* ===================================================================== *)
(** * Properties of context propagation                                   *)
(* ===================================================================== *)

Section PropagationProperties.
Import JsObject SpanEngine Adapters Propagation Lifecycle.

Lemma parse_hex_01 : parse_hex "01" = 1%N.
Proof. reflexivity. Qed.

(** What a formatted context reads back as, when its ids are well formed. *)
Lemma spanContextFromTraceparent_toTraceparent (sc : SpanContext) :
  hex_chars 32 (sc_traceId sc) -> hex_chars 16 (sc_spanId sc) ->
  spanContextFromTraceparent (toTraceparent sc)
  = Some (mkSpanContext (sc_traceId sc) (sc_spanId sc) 1 true).
Proof.
  intros Ht Hs. unfold spanContextFromTraceparent, parseTraceparent.
  assert (Hsplit : split "-" (toTraceparent sc) = ["00"; sc_traceId sc; sc_spanId sc; "01"]).
  { unfold toTraceparent.
    change (split "-" ("00" ++ String "-" (sc_traceId sc ++ String "-"
                         (sc_spanId sc ++ String "-" "01")))%string
            = ["00"; sc_traceId sc; sc_spanId sc; "01"]).
    rewrite split_field by (repeat constructor; discriminate).
    rewrite split_field by (eapply hex_chars_no_dash; exact Ht).
    rewrite split_field by (eapply hex_chars_no_dash; exact Hs).
    reflexivity. }
  rewrite Hsplit. cbn [List.length Nat.eqb negb].
  change (String.eqb "00" "00") with true. cbn [negb].
  rewrite (proj2 (guard_hex_chars 32 _ ltac:(discriminate)) Ht).
  rewrite (proj2 (guard_hex_chars 16 _ ltac:(discriminate)) Hs).
  reflexivity.
Qed.

(** The span context of the span [startSpan] makes. *)
Lemma startSpan_spanContext (name : string) (options : option SpanOptions)
  (ctx : option Context) (active : Context) (w : World) :
  spanContext (snd (startSpan name options ctx active w))
    (fst (startSpan name options ctx active w))
  = Some (match default active ctx ≫= spanContext w with
          | Some parent =>
              mkSpanContext (sc_traceId parent)
                (join (List.map byte_hex (List.map (entropy w) (List.seq (entropy_pos w) 8))))
                SAMPLED false
          | None =>
              mkSpanContext
                (join (List.map byte_hex (List.map (entropy w) (List.seq (entropy_pos w) 16))))
                (join (List.map byte_hex
                         (List.map (entropy w) (List.seq (entropy_pos w + 16) 8))))
                SAMPLED false
          end).
Proof.
  unfold startSpan, getSpan, generateTraceId, generateSpanId, getRandomValues,
    new_CloudflareSpan.
  destruct (default active ctx ≫= spanContext w) as [psc|];
    cbn [entropy entropy_pos heap];
    destruct (_timeInputToMs (options ≫= opt_startTime)) as [t|];
    cbn [Date_now heap set_heap fst snd spanContext];
    rewrite list_lookup_middle by reflexivity; reflexivity.
Qed.

Lemma startSpan_parentSpanId (name : string) (options : option SpanOptions)
  (ctx : option Context) (active : Context) (w : World) :
  _parentSpanId <$> heap (snd (startSpan name options ctx active w)) !! List.length (heap w)
  = Some (sc_spanId <$> (default active ctx ≫= spanContext w)).
Proof.
  unfold startSpan, getSpan, generateTraceId, generateSpanId, getRandomValues,
    new_CloudflareSpan.
  destruct (default active ctx ≫= spanContext w) as [psc|];
    cbn [entropy entropy_pos heap];
    destruct (_timeInputToMs (options ≫= opt_startTime)) as [t|];
    cbn [Date_now heap set_heap fst snd];
    rewrite list_lookup_middle by reflexivity; reflexivity.
Qed.

Lemma parse_hex_two_digits (f : string) : hex_chars 2 f -> (parse_hex f < 256)%N.
Proof.
  intros [Hlen Hhex]. destruct f as [|c1 [|c2 [|c3 f]]]; try discriminate.
  inversion Hhex as [|? ? H1 Hrest]; subst. inversion Hrest as [|? ? H2 _]; subst.
  clear Hlen Hhex Hrest. revert H1 H2.
  destruct c1 as [[] [] [] [] [] [] [] []]; try discriminate;
    destruct c2 as [[] [] [] [] [] [] [] []]; try discriminate;
    intros _ _; vm_compute; reflexivity.
Qed.

(** The guards of [parseTraceparent], read from a successful parse. *)
Lemma parseTraceparent_Some (s : string) (tc : TraceContext) :
  parseTraceparent s = Some tc ->
  split "-" s = [version tc; traceId tc; spanId tc; flags tc] /\
  version tc = "00" /\ hex_chars 32 (traceId tc) /\ hex_chars 16 (spanId tc) /\
  hex_chars 2 (flags tc).
Proof.
  unfold parseTraceparent.
  destruct (split "-" s) as [|v [|t [|sp [|f [|x l]]]]]; try discriminate.
  cbn [List.length Nat.eqb negb].
  destruct (String.eqb_spec v "00") as [Hv|Hv]; cbn [negb]; [|discriminate].
  pose proof (guard_hex_chars 32 t ltac:(discriminate)) as Gt.
  pose proof (guard_hex_chars 16 sp ltac:(discriminate)) as Gsp.
  pose proof (guard_hex_chars 2 f ltac:(discriminate)) as Gf.
  destruct (negb (Nat.eqb (String.length t) 32) || negb (hex_re_test t)); [discriminate|].
  destruct (negb (Nat.eqb (String.length sp) 16) || negb (hex_re_test sp)); [discriminate|].
  destruct (negb (Nat.eqb (String.length f) 2) || negb (hex_re_test f)); [discriminate|].
  intros [= <-]. cbn. split; [by rewrite Hv|]. split; [exact Hv|].
  split; [by apply Gt|]. split; [by apply Gsp|]. by apply Gf.
Qed.

Lemma parseTraceparent_None (s : string) : parseTraceparent s = None -> malformed s.
Proof.
  unfold parseTraceparent, malformed.
  destruct (split "-" s) as [|v [|t [|sp [|f [|x l]]]]] eqn:Hsplit;
    try (intros _; left; simpl; lia).
  cbn [List.length Nat.eqb negb]. intros H. right. exists v, t, sp, f.
  split; [reflexivity|].
  destruct (String.eqb_spec v "00") as [Hv|Hv]; cbn [negb] in H; [|by left].
  pose proof (guard_hex_chars 32 t ltac:(discriminate)) as Gt.
  pose proof (guard_hex_chars 16 sp ltac:(discriminate)) as Gsp.
  pose proof (guard_hex_chars 2 f ltac:(discriminate)) as Gf.
  destruct (negb (Nat.eqb (String.length t) 32) || negb (hex_re_test t)).
  { right; left. intros Hx. apply Gt in Hx. discriminate. }
  destruct (negb (Nat.eqb (String.length sp) 16) || negb (hex_re_test sp)).
  { right; right; left. intros Hx. apply Gsp in Hx. discriminate. }
  destruct (negb (Nat.eqb (String.length f) 2) || negb (hex_re_test f)); [|discriminate].
  right; right; right. intros Hx. apply Gf in Hx. discriminate.
Qed.

(** X1. [spanContextFromTraceparent] answers [None] only on a malformed
    header. When it answers a span context, that context carries the
    header's traceId and spanId unchanged (32 and 16 hex characters, case
    kept), a flags byte below 256 decoded from the two hex characters, and
    the remote marker. *)
Theorem spanContextFromTraceparent_well_formed (s : string) :
  match spanContextFromTraceparent s with
  | None => malformed s
  | Some sc =>
      exists f,
        split "-" s = ["00"; sc_traceId sc; sc_spanId sc; f] /\
        hex_chars 32 (sc_traceId sc) /\
        hex_chars 16 (sc_spanId sc) /\
        sc_traceFlags sc = parse_hex f /\
        (sc_traceFlags sc < 256)%N /\
        sc_isRemote sc = true
  end.
Proof.
  unfold spanContextFromTraceparent.
  destruct (parseTraceparent s) as [tc|] eqn:Hparse; cbn.
  - destruct (parseTraceparent_Some s tc Hparse) as (Hsplit & Hv & Ht & Hs & Hf).
    exists (flags tc). rewrite Hv in Hsplit.
    split; [exact Hsplit|]. split; [exact Ht|]. split; [exact Hs|].
    split; [reflexivity|]. split; [|reflexivity].
    by apply parse_hex_two_digits.
  - by apply parseTraceparent_None.
Qed.

Lemma entropy_hex (w : World) (pos n : nat) :
  hex_chars (2 * n) (join (List.map byte_hex (List.map (entropy w) (List.seq pos n)))).
Proof.
  pose proof (join_byte_hex_chars (List.map (entropy w) (List.seq pos n))) as H.
  by rewrite length_map, length_seq in H.
Qed.

(** The ids of a span made by [startSpan] are well formed as soon as the
    parent's traceId is. *)
Lemma startSpan_ids_well_formed (name : string) (options : option SpanOptions)
  (ctx : option Context) (active : Context) (w : World) :
  (forall parent, default active ctx ≫= spanContext w = Some parent ->
                  hex_chars 32 (sc_traceId parent)) ->
  exists sc,
    spanContext (snd (startSpan name options ctx active w))
      (fst (startSpan name options ctx active w)) = Some sc /\
    hex_chars 32 (sc_traceId sc) /\ hex_chars 16 (sc_spanId sc).
Proof.
  intros Hparent. rewrite startSpan_spanContext.
  destruct (default active ctx ≫= spanContext w) as [parent|].
  - eexists. split; [reflexivity|]. cbn. split; [by apply Hparent | apply (entropy_hex w _ 8)].
  - eexists. split; [reflexivity|]. cbn.
    split; [apply (entropy_hex w _ 16) | apply (entropy_hex w _ 8)].
Qed.

(** X2. The span that [startSpan] makes, once active, has a traceparent
    that [getTraceparent] formats and [spanContextFromTraceparent] reads
    back to the same traceId and spanId, with flags 1 and the remote marker
    set, whenever the parent it inherits its traceId from (if there is one)
    has a well-formed traceId. *)
Theorem started_span_traceparent_roundtrip (name : string) (options : option SpanOptions)
  (ctx : option Context) (active : Context) (w : World) :
  (forall parent, default active ctx ≫= spanContext w = Some parent ->
                  hex_chars 32 (sc_traceId parent)) ->
  let span := fst (startSpan name options ctx active w) in
  let w' := snd (startSpan name options ctx active w) in
  exists sc header,
    spanContext w' span = Some sc /\
    getTraceparent (setSpan active span) w' = Some header /\
    header = toTraceparent sc /\
    spanContextFromTraceparent header
    = Some (mkSpanContext (sc_traceId sc) (sc_spanId sc) 1 true).
Proof.
  intros Hparent span w'.
  destruct (startSpan_ids_well_formed name options ctx active w Hparent)
    as (sc & Hsc & Ht & Hs).
  exists sc, (toTraceparent sc). split; [exact Hsc|].
  split; [unfold getTraceparent, setSpan, getSpan; subst span w'; by rewrite Hsc|].
  split; [reflexivity|]. by apply spanContextFromTraceparent_toTraceparent.
Qed.

Lemma started_span_traceparent_roundtrip_witness :
  exists sc header,
    spanContext (snd (startSpan "op" None None ROOT_CONTEXT sample_world))
      (fst (startSpan "op" None None ROOT_CONTEXT sample_world)) = Some sc /\
    getTraceparent
      (setSpan ROOT_CONTEXT (fst (startSpan "op" None None ROOT_CONTEXT sample_world)))
      (snd (startSpan "op" None None ROOT_CONTEXT sample_world)) = Some header /\
    header = toTraceparent sc /\
    spanContextFromTraceparent header
    = Some (mkSpanContext (sc_traceId sc) (sc_spanId sc) 1 true).
Proof.
  apply (started_span_traceparent_roundtrip "op" None None ROOT_CONTEXT sample_world).
  intros parent H. vm_compute in H. discriminate.
Defined.

(** X3. [withParentTrace] with a traceparent string. A malformed string is
    ignored: the function runs under the unchanged active context. A
    well-formed one makes every span the function starts a child of the
    remote span, whatever span was active: the new span takes the header's
    traceId and has the header's spanId as parentSpanId. *)
Theorem withParentTrace_parentage {T : Type} (s : string) (fn : Context -> M T)
  (name : string) (options : option SpanOptions) (active : Context) (w : World) :
  match parseTraceparent s with
  | None => withParentTrace (ParentTraceparent s) fn active w = fn active w
  | Some tc =>
      exists w' this,
        withParentTrace (ParentTraceparent s) (start_span name options) active w
        = (w', Normal (Recording (List.length (heap w)))) /\
        heap w' !! List.length (heap w) = Some this /\
        sc_traceId (_spanContext this) = traceId tc /\
        _parentSpanId this = Some (spanId tc)
  end.
Proof.
  unfold withParentTrace, spanContextFromTraceparent.
  destruct (parseTraceparent s) as [tc|]; [|reflexivity].
  cbn [fmap option_fmap option_map]. unfold context_with, start_span, setSpan, wrapSpanContext.
  pose proof (startSpan_fresh name options None (Some (NonRecording (toSpanContext tc))) w)
    as (this & Hfst & Hheap & _).
  pose proof (startSpan_spanContext name options None (Some (NonRecording (toSpanContext tc))) w)
    as Hsc.
  pose proof (startSpan_parentSpanId name options None (Some (NonRecording (toSpanContext tc))) w)
    as Hpar.
  destruct (startSpan name options None (Some (NonRecording (toSpanContext tc))) w)
    as [span w'] eqn:Hstart.
  cbn [fst snd] in *. subst span. exists w', this.
  split; [reflexivity|]. split; [exact Hheap|].
  cbn in Hsc, Hpar. rewrite Hheap in Hsc, Hpar. cbn in Hsc, Hpar.
  injection Hsc as Hsc. injection Hpar as Hpar. rewrite Hsc, Hpar. split; reflexivity.
Qed.

Ltac unfold_span_methods :=
  unfold apply_op, setAttribute, setAttributes, addEvent, addLink, addLinks,
    setStatus, updateName, recordException, span_end, method, notifyProcessor,
    store, set_heap, setSpanProcessor, Date_now in *.

(** A call on one span leaves every other span of the heap as it is. *)
Lemma op_frame (sp : Span) (op : SpanOp) (w : World) (r' : nat) :
  sp <> Recording r' -> heap (apply_op sp op w) !! r' = heap w !! r'.
Proof.
  intros Hne. destruct sp as [r|sc]; [|by rewrite nonrecording_op_noop].
  assert (Hr : r <> r') by congruence. clear Hne.
  destruct (heap w !! r) as [this|] eqn:H; [|by rewrite (dangling_op_noop r op w H)].
  destruct (_ended this) eqn:E; [by rewrite (ended_op_noop r this op w H E)|].
  destruct op; unfold_span_methods; rewrite ?H, ?E; cbn;
    repeat (match goal with
            | |- context [match ?x with _ => _ end] => is_var x; destruct x; cbn
            end);
    rewrite ?H, ?E; cbn;
    repeat (match goal with
            | |- context [match ?x with _ => _ end] => is_var x; destruct x; cbn
            end);
    try (by rewrite list_lookup_insert_ne); try reflexivity.
  all: destruct (activeSpanProcessor w); cbn; by rewrite list_lookup_insert_ne.
Qed.

Lemma ops_frame (sp : Span) (ops : list SpanOp) (w : World) (r' : nat) :
  sp <> Recording r' -> heap (apply_ops sp ops w) !! r' = heap w !! r'.
Proof.
  intros Hne. revert w. induction ops as [|op ops IH]; intros w; [reflexivity|].
  change (apply_ops sp (op :: ops) w) with (apply_ops sp ops (apply_op sp op w)).
  rewrite IH. by apply op_frame.
Qed.

(** [startSpan] appends one span to the heap and touches nothing else. *)
Lemma startSpan_heap (name : string) (options : option SpanOptions)
  (ctx : option Context) (active : Context) (w : World) :
  exists this,
    heap (snd (startSpan name options ctx active w)) = heap w ++ [this] /\
    fst (startSpan name options ctx active w) = Recording (List.length (heap w)) /\
    _ended this = false /\
    activeSpanProcessor (snd (startSpan name options ctx active w)) = activeSpanProcessor w.
Proof.
  unfold startSpan, getSpan, generateTraceId, generateSpanId, getRandomValues,
    new_CloudflareSpan.
  destruct (default active ctx ≫= spanContext w) as [psc|];
    cbn [entropy entropy_pos heap];
    destruct (_timeInputToMs (options ≫= opt_startTime)) as [t|];
    cbn [Date_now heap set_heap fst snd activeSpanProcessor];
    eexists; repeat split.
Qed.

(** X4. A span started inside the callback of [startActiveSpan] is a child
    of the span the callback runs under: it has that span's traceId and
    that span's spanId as its parentSpanId. When the callback returns, the
    outer span is ended and the inner one, which nobody ended, is still
    recording. *)
Theorem nested_span_parentage (name : string) (options : option SpanOptions)
  (ctx : option Context) (name' : string) (options' : option SpanOptions)
  (active : Context) (w : World) :
  let n := List.length (heap w) in
  exists w' outer inner,
    startActiveSpan name options ctx (start_inner name' options') active w
    = (w', Normal (Plain (Recording (S n)))) /\
    heap w' !! n = Some outer /\
    heap w' !! S n = Some inner /\
    sc_traceId (_spanContext inner) = sc_traceId (_spanContext outer) /\
    _parentSpanId inner = Some (sc_spanId (_spanContext outer)) /\
    _ended outer = true /\
    _ended inner = false.
Proof.
  intros n. rewrite startActiveSpan_runs_callback.
  destruct (startSpan_heap name options ctx active w) as (this & Hheap & Hfst & Hended & _).
  destruct (startSpan name options ctx active w) as [sp w1]. cbn [fst snd] in *. subst sp.
  fold n. assert (Hthis : heap w1 !! n = Some this).
  { rewrite Hheap. by apply list_lookup_middle. }
  assert (Hlen : List.length (heap w1) = S n).
  { rewrite Hheap, length_app. simpl. subst n. lia. }
  unfold settle_and_end, try_catch, start_inner, start_span, bind, ret, lift.
  destruct (startSpan_heap name' options' None (Some (Recording n)) w1)
    as (that & Hheap2 & Hfst2 & Hended2 & _).
  pose proof (startSpan_spanContext name' options' None (Some (Recording n)) w1) as Hsc.
  pose proof (startSpan_parentSpanId name' options' None (Some (Recording n)) w1) as Hpar.
  destruct (startSpan name' options' None (Some (Recording n)) w1) as [sp2 w2].
  cbn [fst snd] in *. subst sp2. rewrite Hlen in *.
  assert (Hthat : heap w2 !! S n = Some that).
  { rewrite Hheap2. rewrite <- Hlen. by apply list_lookup_middle. }
  assert (Hthis2 : heap w2 !! n = Some this).
  { rewrite Hheap2. rewrite lookup_app_l by (rewrite Hlen; lia). exact Hthis. }
  cbn in Hsc, Hpar. rewrite Hthis, Hthat in Hsc. rewrite Hthis, Hthat in Hpar.
  cbn in Hsc, Hpar. injection Hsc as Hsc. injection Hpar as Hpar.
  exists (span_end (Recording n) None w2), (set_endTime (Some (clock w2 (clock_pos w2)))
                                             (set_ended true this)), that.
  split; [reflexivity|].
  split; [by apply span_end_exact|].
  split.
  { change (span_end (Recording n) None w2) with (apply_op (Recording n) (OpEnd None) w2).
    rewrite op_frame by (intros [= Hx]; lia). exact Hthat. }
  rewrite Hsc, Hpar. cbn. repeat split. exact Hended2.
Qed.

(** X5. Queue propagation. A message body passed through
    [withTraceContext] while a tracer-made span is active carries that
    span's traceparent under ["_traceparent"], replacing any value the body
    had there; [extractSpanContextFromMessage] on the consumer side reads it
    back to the span's traceId and spanId, with flags 1 and the remote
    marker. Every other property of the body is kept. With no active span
    the body is returned as it is. *)
Theorem queue_trace_context_roundtrip (body : props BodyValue) (name : string)
  (options : option SpanOptions) (ctx : option Context) (active : Context) (w : World) :
  (forall parent, default active ctx ≫= spanContext w = Some parent ->
                  hex_chars 32 (sc_traceId parent)) ->
  NoDup (List.map fst body) ->
  let span := fst (startSpan name options ctx active w) in
  let w' := snd (startSpan name options ctx active w) in
  let message := withTraceContext body (setSpan active span) w' in
  (exists sc,
     spanContext w' span = Some sc /\
     extractSpanContextFromMessage (BodyObject message)
     = Some (mkSpanContext (sc_traceId sc) (sc_spanId sc) 1 true)) /\
  (forall q, q <> TRACE_CONTEXT_KEY -> obj_get q message = obj_get q body) /\
  withTraceContext body ROOT_CONTEXT w' = body.
Proof.
  intros Hparent Hnodup span w' message.
  destruct (startSpan_ids_well_formed name options ctx active w Hparent)
    as (sc & Hsc & Ht & Hs).
  assert (Hmsg : message
                 = obj_set TRACE_CONTEXT_KEY (BString (toTraceparent sc)) (Object_assign [] body)).
  { subst message. unfold withTraceContext, getTraceparent, setSpan, getSpan.
    subst span w'. by rewrite Hsc. }
  split; [|split; [|reflexivity]].
  - exists sc. split; [exact Hsc|]. rewrite Hmsg. unfold extractSpanContextFromMessage.
    rewrite obj_get_set, String.eqb_refl.
    by apply spanContextFromTraceparent_toTraceparent.
  - intros q Hq. rewrite Hmsg, obj_get_set.
    destruct (String.eqb_spec TRACE_CONTEXT_KEY q) as [Heq|_]; [congruence|].
    rewrite obj_get_Object_assign by exact Hnodup.
    by destruct (obj_get q body).
Qed.

Lemma queue_trace_context_roundtrip_witness :
  let body := [("orderId", BOther 123); ("_traceparent", BString "stale")] in
  let span := fst (startSpan "send" None None ROOT_CONTEXT sample_world) in
  let w' := snd (startSpan "send" None None ROOT_CONTEXT sample_world) in
  let message := withTraceContext body (setSpan ROOT_CONTEXT span) w' in
  (exists sc,
     spanContext w' span = Some sc /\
     extractSpanContextFromMessage (BodyObject message)
     = Some (mkSpanContext (sc_traceId sc) (sc_spanId sc) 1 true)) /\
  (forall q, q <> TRACE_CONTEXT_KEY -> obj_get q message = obj_get q body) /\
  withTraceContext body ROOT_CONTEXT w' = body.
Proof.
  apply (queue_trace_context_roundtrip
           [("orderId", BOther 123); ("_traceparent", BString "stale")]
           "send" None None ROOT_CONTEXT sample_world).
  - intros parent H. vm_compute in H. discriminate.
  - apply (bool_decide_unpack _). vm_compute. reflexivity.
Defined.

Lemma end_sets_endTime (r : nat) (this : CloudflareSpan) (endTime : option TimeInput)
  (w : World) :
  heap w !! r = Some this -> _ended this = false ->
  exists this',
    heap (span_end (Recording r) endTime w) !! r = Some this' /\
    _ended this' = true /\ is_Some (_endTime this').
Proof.
  intros H E. pose proof (lookup_lt_Some _ _ _ H) as Hlt.
  unfold span_end, method, notifyProcessor. rewrite H, E.
  destruct w as [h [spans|] en ep cl cp]; simpl in *;
    destruct endTime as [[n'|t'|s' n']|]; simpl;
    (eexists; split; [apply list_lookup_insert_eq; exact Hlt|]); simpl; eauto.
Qed.

Lemma op_keeps_collected (sp : Span) (op : SpanOp) (w : World) :
  collected_are_ended w -> collected_are_ended (apply_op sp op w).
Proof.
  intros Hinv. destruct sp as [r|sc]; [|by rewrite nonrecording_op_noop].
  destruct (heap w !! r) as [this|] eqn:H; [|by rewrite (dangling_op_noop r op w H)].
  destruct (_ended this) eqn:E; [by rewrite (ended_op_noop r this op w H E)|].
  destruct (step_spec r this op w H) as (this' & H' & _ & E' & P' & _).
  intros spans' Hspans'. unfold getSpanProcessor in *. rewrite P', E in Hspans'.
  cbn [negb andb] in Hspans'.
  assert (Hold : forall spans r', activeSpanProcessor w = Some spans -> r' ∈ spans ->
                 r' <> r /\
                 exists that, heap (apply_op (Recording r) op w) !! r' = Some that /\
                              _ended that = true /\ is_Some (_endTime that)).
  { intros spans r' Hs Hin. destruct (Hinv spans Hs) as [_ Hall].
    destruct (Hall r' Hin) as (that & Hthat & Ethat & Tthat).
    assert (Hne : r' <> r) by (intros ->; congruence).
    split; [exact Hne|]. exists that. rewrite op_frame by congruence. auto. }
  destruct (is_end op) eqn:Hend.
  - destruct (activeSpanProcessor w) as [spans|] eqn:Hs; [|discriminate].
    cbn in Hspans'. injection Hspans' as <-.
    destruct (Hinv spans Hs) as [Hnd _]. split.
    + apply NoDup_app. split; [exact Hnd|]. split; [|apply NoDup_singleton].
      intros x Hx Hx'. apply list_elem_of_singleton in Hx'. subst x.
      destruct (Hold spans r eq_refl Hx) as [Hne _]. congruence.
    + intros r' Hin. apply elem_of_app in Hin as [Hin|Hin].
      * by destruct (Hold spans r' eq_refl Hin) as [_ Hthat].
      * apply list_elem_of_singleton in Hin. subst r'.
        destruct op; try discriminate.
        destruct (end_sets_endTime r this endTime w H E) as (that & Hthat & Ethat & Tthat).
        exists that. auto.
  - destruct (Hinv spans' Hspans') as [Hnd _]. split; [exact Hnd|].
    intros r' Hin. by destruct (Hold spans' r' Hspans' Hin) as [_ Hthat].
Qed.

Lemma ops_keep_collected (sp : Span) (ops : list SpanOp) (w : World) :
  collected_are_ended w -> collected_are_ended (apply_ops sp ops w).
Proof.
  revert w. induction ops as [|op ops IH]; intros w Hinv; [exact Hinv|].
  change (apply_ops sp (op :: ops) w) with (apply_ops sp ops (apply_op sp op w)).
  by apply IH, op_keeps_collected.
Qed.

Lemma startSpan_keeps_collected (name : string) (options : option SpanOptions)
  (ctx : option Context) (active : Context) (w : World) :
  collected_are_ended w -> collected_are_ended (snd (startSpan name options ctx active w)).
Proof.
  intros Hinv spans Hspans.
  destruct (startSpan_heap name options ctx active w) as (this & Hheap & _ & _ & Hproc).
  unfold getSpanProcessor in *. rewrite Hproc in Hspans.
  destruct (Hinv spans Hspans) as [Hnd Hall]. split; [exact Hnd|].
  intros r Hin. destruct (Hall r Hin) as (that & Hthat & Hrest).
  exists that. split; [|exact Hrest]. rewrite Hheap.
  rewrite lookup_app_l by (by eapply lookup_lt_Some). exact Hthat.
Qed.

(** X6. The processor's buffer only ever holds finished spans. If no span
    is buffered twice and every buffered span is on the heap, ended and
    has its end time set, then the same holds after any sequence of calls
    on any span handle, after [startSpan], and after [startActiveSpan] has
    run a callback, however the callback completes. *)
Theorem collected_spans_stay_ended (w : World) :
  collected_are_ended w ->
  (forall sp ops, collected_are_ended (apply_ops sp ops w)) /\
  (forall name options ctx active,
     collected_are_ended (snd (startSpan name options ctx active w))) /\
  (forall (T : Type) name options ctx (u : UserFn T) active,
     collected_are_ended (fst (startActiveSpan name options ctx (run_user u) active w))).
Proof.
  intros Hinv. split; [|split].
  - intros sp ops. by apply ops_keep_collected.
  - intros. by apply startSpan_keeps_collected.
  - intros T name options ctx u active.
    rewrite startActiveSpan_runs_callback, settle_and_end_user. cbn [fst].
    by apply ops_keep_collected, startSpan_keeps_collected.
Qed.

Lemma collected_spans_stay_ended_witness :
  collected_are_ended sample_world /\
  collected_are_ended
    (fst (startActiveSpan "op" None None self_ending_callback ROOT_CONTEXT sample_world)).
Proof.
  assert (H : collected_are_ended sample_world).
  { intros spans [= <-]. split; [apply NoDup_nil_2|]. intros r Hr. by apply elem_of_nil in Hr. }
  split; [exact H|].
  apply (proj2 (proj2 (collected_spans_stay_ended sample_world H))).
Defined.

Lemma ops_without_processor (sp : Span) (ops : list SpanOp) (w : World) :
  activeSpanProcessor w = None -> activeSpanProcessor (apply_ops sp ops w) = None.
Proof.
  intros Hnone. destruct sp as [r|sc].
  - destruct (heap w !! r) as [this|] eqn:H; [|by rewrite (dangling_ops_noop r ops w H)].
    destruct (ops_spec r ops w this H) as (this' & _ & _ & _ & P & _).
    rewrite P, Hnone. by destruct (negb (_ended this) && existsb is_end ops).
  - revert w Hnone. induction ops as [|op ops IH]; intros w Hnone; [exact Hnone|].
    change (apply_ops (NonRecording sc) (op :: ops) w)
      with (apply_ops (NonRecording sc) ops (apply_op (NonRecording sc) op w)).
    rewrite nonrecording_op_noop. by apply IH.
Qed.

(** X7. A span that ends while no processor is registered is never
    collected: registering a processor afterwards and calling the span
    again, [end()] included, leaves the new processor's buffer as it was
    registered. *)
Theorem span_ended_without_processor_is_lost (r : nat) (this : CloudflareSpan)
  (ops ops' : list SpanOp) (buffer : list nat) (w : World) :
  heap w !! r = Some this ->
  getSpanProcessor w = None ->
  existsb is_end ops = true ->
  let w1 := apply_ops (Recording r) ops w in
  getSpanProcessor w1 = None /\
  getSpanProcessor (apply_ops (Recording r) ops' (setSpanProcessor (Some buffer) w1))
  = Some buffer.
Proof.
  intros H Hnone Hend w1. unfold getSpanProcessor in *.
  split; [by apply ops_without_processor|].
  destruct (ops_spec r ops w this H) as (this' & H' & _ & E' & _).
  rewrite Hend, orb_true_r in E'.
  rewrite (ended_ops_noop r this' ops' (setSpanProcessor (Some buffer) w1)); [reflexivity| |exact E'].
  exact H'.
Qed.

Lemma span_ended_without_processor_is_lost_witness :
  let w := snd (startSpan "early" None None ROOT_CONTEXT (world fresh_runtime)) in
  let w1 := apply_ops (Recording 0) [OpEnd None] w in
  getSpanProcessor w1 = None /\
  getSpanProcessor (apply_ops (Recording 0) [OpEnd None] (setSpanProcessor (Some []) w1))
  = Some [].
Proof.
  eapply (span_ended_without_processor_is_lost 0 _ [OpEnd None] [OpEnd None] []
            (snd (startSpan "early" None None ROOT_CONTEXT (world fresh_runtime))));
    reflexivity.
Defined.

Lemma attribute_step (r : nat) (this : CloudflareSpan) (op : SpanOp) (w : World) :
  heap w !! r = Some this -> _ended this = false -> is_end op = false ->
  exists this',
    heap (apply_op (Recording r) op w) !! r = Some this' /\
    _ended this' = false /\
    _attributes this'
    = List.fold_left (fun t kv => obj_assign (fst kv) (snd kv) t) (attribute_writes op)
        (_attributes this).
Proof.
  intros H E Hend. pose proof (lookup_lt_Some _ _ _ H) as Hlt.
  destruct op; try discriminate; unfold_span_methods; rewrite ?H, ?E; cbn;
    repeat (match goal with
            | |- context [match ?x with _ => _ end] => is_var x; destruct x; cbn
            end);
    rewrite ?H, ?E; cbn;
    repeat (match goal with
            | |- context [match ?x with _ => _ end] => is_var x; destruct x; cbn
            end);
    (eexists; split; [apply list_lookup_insert_eq; exact Hlt|]); cbn; auto.
Qed.

(** X8. The attributes of a recording span behave as a map with
    last-write-wins. After any sequence of calls that does not end the
    span, the own property under a key other than ["__proto__"] (which an
    assignment does not store as a property) holds the value of the last
    [setAttribute] or [setAttributes] write to that key, and the value the
    span had before when no call wrote it; events, links, status, name and
    recorded exceptions never change an attribute. *)
Theorem span_attributes_last_write_wins (r : nat) (ops : list SpanOp) :
  forall (w : World) (this : CloudflareSpan),
  heap w !! r = Some this -> _ended this = false -> existsb is_end ops = false ->
  exists this',
    heap (apply_ops (Recording r) ops w) !! r = Some this' /\
    forall q, q <> "__proto__" ->
      obj_get q (_attributes this')
      = match Exporter.last_binding q (List.concat (List.map attribute_writes ops)) with
        | Some v => Some v
        | None => obj_get q (_attributes this)
        end.
Proof.
  induction ops as [|op ops IH]; intros w this H E Hend.
  - exists this. split; [exact H|]. reflexivity.
  - cbn [existsb] in Hend. apply orb_false_iff in Hend as [Hend1 Hend2].
    destruct (attribute_step r this op w H E Hend1) as (this1 & H1 & E1 & A1).
    destruct (IH _ this1 H1 E1 Hend2) as (this' & H' & Hget).
    exists this'. split; [exact H'|]. intros q Hq. rewrite (Hget q Hq).
    cbn [List.map List.concat]. rewrite last_binding_app, A1, obj_get_fold_assign by exact Hq.
    by destruct (Exporter.last_binding q (List.concat (List.map attribute_writes ops))).
Qed.

Lemma span_attributes_last_write_wins_witness :
  exists this',
    heap (apply_ops (Recording 0)
            [OpSetAttribute "k" (AString "first"); OpAddEvent "tick" None None;
             OpSetAttribute "k" (AString "second")] world_with_span) !! 0 = Some this' /\
    forall q, q <> "__proto__" ->
      obj_get q (_attributes this')
      = match Exporter.last_binding q
                (List.concat (List.map attribute_writes
                   [OpSetAttribute "k" (AString "first"); OpAddEvent "tick" None None;
                    OpSetAttribute "k" (AString "second")])) with
        | Some v => Some v
        | None => obj_get q []
        end.
Proof.
  destruct (span_attributes_last_write_wins 0
              [OpSetAttribute "k" (AString "first"); OpAddEvent "tick" None None;
               OpSetAttribute "k" (AString "second")]
              world_with_span _ eq_refl eq_refl eq_refl) as (this' & H & Hq).
  exists this'. split; [exact H | exact Hq].
Defined.

End PropagationProperties.


(* ===================================================================== *)
(** * Properties of collecting and flushing                               *)
(* ===================================================================== *)

Section LifecycleProperties.
Import JsObject SpanEngine Adapters Lifecycle.

Lemma flush_exports (config : option Exporter.OTLPExporterConfig) (rt : Runtime) :
  traceExports (flush config rt)
  = traceExports rt ++
    match config, getSpanProcessor (world rt) with
    | Some _, Some (r :: spans) => [r :: spans]
    | _, _ => []
    end.
Proof.
  unfold flush, spanProcessor_clear.
  destruct config as [c|]; destruct (getSpanProcessor (world rt)) as [[|r spans]|] eqn:H;
    cbn; rewrite ?H; cbn; rewrite ?app_nil_r; reflexivity.
Qed.

Lemma flush_buffer (config : option Exporter.OTLPExporterConfig) (rt : Runtime) :
  getSpanProcessor (world (flush config rt)) = (fun _ => []) <$> getSpanProcessor (world rt).
Proof.
  unfold flush, spanProcessor_clear.
  destruct config as [c|]; destruct (getSpanProcessor (world rt)) as [[|r spans]|] eqn:H;
    cbn; rewrite ?H; cbn; rewrite ?H; reflexivity.
Qed.

(** A call on a span neither registers nor unregisters a processor. *)
Lemma op_keeps_slot (sp : Span) (op : SpanOp) (w : World) :
  (fun _ : list nat => @nil nat) <$> activeSpanProcessor (apply_op sp op w)
  = (fun _ : list nat => @nil nat) <$> activeSpanProcessor w.
Proof.
  destruct sp as [r|sc]; [|by rewrite nonrecording_op_noop].
  destruct (heap w !! r) as [this|] eqn:H; [|by rewrite (dangling_op_noop r op w H)].
  destruct (step_spec r this op w H) as (this' & _ & _ & _ & P & _).
  rewrite P. destruct (negb (_ended this) && is_end op); [|reflexivity].
  by destruct (activeSpanProcessor w).
Qed.

Lemma calls_keep_slot (calls : list (Span * SpanOp)) (w : World) :
  (fun _ : list nat => @nil nat) <$> activeSpanProcessor (apply_calls calls w)
  = (fun _ : list nat => @nil nat) <$> activeSpanProcessor w.
Proof.
  revert w. induction calls as [|[sp op] calls IH]; intros w; [reflexivity|].
  change (apply_calls ((sp, op) :: calls) w) with (apply_calls calls (apply_op sp op w)).
  rewrite IH. apply op_keeps_slot.
Qed.


(** [Adapters.flush] is the flush of a context whose processor is still
    registered, in a program that calls no span while the export is
    awaited. *)
Lemma flush_is_context_flush (config : option Exporter.OTLPExporterConfig) (rt : Runtime) :
  context_flush config InSlot [] rt = (InSlot, flush config rt).
Proof.
  destruct rt as [w exports]. unfold context_flush, flush, captured_clear, captured_spans.
  destruct config as [c|]; [|reflexivity].
  cbn [world traceExports apply_calls List.fold_left].
  by destruct (Nat.ltb 0 _).
Qed.

(** A span that ends while the export is awaited: the batch is the buffer
    as it was when [flush()] was called, and the clearing takes the late
    span with it. *)
Example span_ended_during_flush_is_dropped :
  (getSpanProcessor (world one_collected_one_open),
   traceExports
     (snd (context_flush (Some sample_config) InSlot [(Recording 1, OpEnd None)]
             one_collected_one_open)),
   getSpanProcessor
     (world (snd (context_flush (Some sample_config) InSlot [(Recording 1, OpEnd None)]
                    one_collected_one_open))),
   _ended <$> heap
     (world (snd (context_flush (Some sample_config) InSlot [(Recording 1, OpEnd None)]
                    one_collected_one_open))) !! 1)
  = (Some [0], [[0]], Some [], Some true).
Proof. vm_compute. reflexivity. Qed.

(** X10. From [initOTLP] to [flush()]: a span run through
    [startActiveSpan] in between is exported by that flush, in one batch,
    after the spans that were already buffered, whatever the callback did
    with the span and however it completed. The exported span is ended and
    the processor's buffer is empty afterwards. *)
Theorem span_between_init_and_flush_is_exported {T : Type}
  (config : Exporter.OTLPExporterConfig) (name : string) (options : option SpanOptions)
  (ctx : option Context) (u : UserFn T) (active : Context) (rt : Runtime) :
  let rt1 := initOTLP rt in
  let w2 := fst (startActiveSpan name options ctx (run_user u) active (world rt1)) in
  let rt3 := flush (Some config) (with_world w2 rt1) in
  let r := List.length (heap (world rt)) in
  traceExports rt3
  = traceExports rt ++ [default [] (getSpanProcessor (world rt)) ++ [r]] /\
  getSpanProcessor (world rt3) = Some [] /\
  exists this, heap (world rt3) !! r = Some this /\ _ended this = true.
Proof.
  intros rt1 w2 rt3 r.
  assert (Hheap1 : heap (world rt1) = heap (world rt)).
  { subst rt1. unfold initOTLP. by destruct (getSpanProcessor (world rt)). }
  assert (Hproc1 : activeSpanProcessor (world rt1)
                   = Some (default [] (getSpanProcessor (world rt)))).
  { subst rt1. unfold initOTLP, getSpanProcessor.
    by destruct (activeSpanProcessor (world rt)) eqn:H. }
  assert (Hex1 : traceExports rt1 = traceExports rt).
  { subst rt1. unfold initOTLP. by destruct (getSpanProcessor (world rt)). }
  destruct (startSpan_fresh name options ctx active (world rt1))
    as (this & Hfst & Hthis & Hended & _ & _ & Hproc).
  assert (Hw2 : w2 = apply_ops (Recording r) (fn_ops u ++ tracer_reaction (fn_completion u))
                       (snd (startSpan name options ctx active (world rt1)))).
  { subst w2. rewrite startActiveSpan_runs_callback, settle_and_end_user.
    cbn [fst]. rewrite Hfst, Hheap1. reflexivity. }
  rewrite Hheap1 in Hthis. fold r in Hthis.
  destruct (ops_spec r (fn_ops u ++ tracer_reaction (fn_completion u)) _ this Hthis)
    as (this' & Hthis' & _ & Hended' & Hproc' & _).
  rewrite <- Hw2 in Hthis', Hproc'.
  rewrite existsb_app, tracer_reaction_has_end, orb_true_r in Hended', Hproc'.
  rewrite Hended, Hproc, Hproc1 in Hproc'. cbn in Hproc'.
  rewrite orb_true_r in Hended'.
  split; [|split].
  - subst rt3. rewrite flush_exports. cbn [world with_world traceExports].
    unfold getSpanProcessor at 1. rewrite Hproc', Hex1.
    by destruct (default [] (getSpanProcessor (world rt))).
  - subst rt3. rewrite flush_buffer. cbn [world with_world].
    unfold getSpanProcessor at 1. by rewrite Hproc'.
  - exists this'. split; [|exact Hended'].
    subst rt3. unfold flush, spanProcessor_clear. cbn [world with_world].
    unfold getSpanProcessor. rewrite Hproc'.
    destruct (Nat.ltb 0 _); cbn; rewrite Hproc'; exact Hthis'.
Qed.

(** X11. After [shutdown()] no processor is registered, and spans that end
    from then on are never exported: whatever is called on whatever span,
    a later [flushTraces] hands nothing to the exporter. *)
Theorem nothing_is_exported_after_shutdown (config : option Exporter.OTLPExporterConfig)
  (config' : Exporter.OTLPExporterConfig) (sp : Span) (ops : list SpanOp) (rt : Runtime) :
  let rt1 := shutdown config rt in
  getSpanProcessor (world rt1) = None /\
  traceExports (flushTraces config' (with_world (apply_ops sp ops (world rt1)) rt1))
  = traceExports rt1.
Proof.
  intros rt1. assert (Hnone : activeSpanProcessor (world rt1) = None) by reflexivity.
  split; [exact Hnone|].
  unfold flushTraces, getSpanProcessor. cbn [world with_world].
  by rewrite (ops_without_processor sp ops (world rt1) Hnone).
Qed.

End LifecycleProperties.


(* ===================================================================== *)
(** * Properties of OTLP timestamps                                       *)
(* ===================================================================== *)

Section TimestampProperties.
Import Timestamps.

Lemma to_int_not_nil (z : Z) :
  Z.to_int z <> Decimal.Pos Decimal.Nil /\ Z.to_int z <> Decimal.Neg Decimal.Nil.
Proof.
  pose proof (DecimalZ.to_of (Z.to_int z)) as H. rewrite DecimalZ.of_to in H.
  split; intros Heq; rewrite Heq in H; discriminate.
Qed.

(** Distinct integers print differently. *)
Lemma BigInt_toString_inj (a b : Z) : BigInt_toString a = BigInt_toString b -> a = b.
Proof.
  unfold BigInt_toString. intros H. apply DecimalZ.to_int_inj.
  destruct (to_int_not_nil a) as [Ha1 Ha2]. destruct (to_int_not_nil b) as [Hb1 Hb2].
  pose proof (NilZero.isi _ Ha1 Ha2) as Ia. pose proof (NilZero.isi _ Hb1 Hb2) as Ib.
  rewrite H in Ia. congruence.
Qed.

Lemma Qfloor_succ (x : Q) : Qfloor (x + 1)%Q = (Qfloor x + 1)%Z.
Proof.
  destruct x as [n d]. unfold Qplus, Qfloor. cbn [Qnum Qden].
  rewrite Pos.mul_1_r.
  replace (n * 1 + 1 * Z.pos d)%Z with (n + 1 * Z.pos d)%Z by lia.
  by rewrite Z.div_add by lia.
Qed.

(** X12. Timestamps in nanoseconds. The fraction of a millisecond is
    discarded; two timestamps with offsets print as the same string exactly
    when their nanosecond counts agree, so within one batch entries of the
    same millisecond get distinct timestamps as long as their indices
    differ by less than 1000; the entry with index 1000 prints the same
    timestamp as index 0 of the next millisecond. Offset 0 is
    [msToNanoString]. *)
Theorem log_timestamp_encoding (ms ms' : Q) (i j : nat) :
  (msToNanoStringWithOffset ms i = msToNanoStringWithOffset ms' j <->
   (Qfloor ms * 1000000 + Z.of_nat i * 1000 = Qfloor ms' * 1000000 + Z.of_nat j * 1000)%Z) /\
  (Qfloor ms = Qfloor ms' -> i <> j ->
   msToNanoStringWithOffset ms i <> msToNanoStringWithOffset ms' j) /\
  msToNanoStringWithOffset ms 0 = msToNanoString ms /\
  msToNanoString ms = msToNanoString (inject_Z (Qfloor ms)) /\
  msToNanoStringWithOffset ms 1000 = msToNanoStringWithOffset (ms + 1)%Q 0.
Proof.
  assert (Hiff : forall a b (k l : nat),
             msToNanoStringWithOffset a k = msToNanoStringWithOffset b l <->
             (Qfloor a * 1000000 + Z.of_nat k * 1000
              = Qfloor b * 1000000 + Z.of_nat l * 1000)%Z).
  { intros a b k l. unfold msToNanoStringWithOffset. split.
    - apply BigInt_toString_inj.
    - by intros ->. }
  split; [apply Hiff|]. split; [|split; [|split]].
  - intros Hms Hij Heq. apply Hiff in Heq. rewrite Hms in Heq. lia.
  - unfold msToNanoStringWithOffset, msToNanoString. f_equal. lia.
  - unfold msToNanoString. by rewrite Qfloor_Z.
  - apply Hiff. rewrite Qfloor_succ. lia.
Qed.

End TimestampProperties.


(* ===================================================================== *)
(** * Properties of caller locations and log records                     *)
(* ===================================================================== *)

Section CallerProperties.
Import Caller.

Lemma function_unfold (this : CallerFrame) :
  function this
  = if named_frame this then default "" (_function this)
    else match parent this with
         | Some p => function p
         | None => ""
         end.
Proof.
  destruct this as [f [name|] l c p]; unfold named_frame; cbn; [|reflexivity].
  by destruct (negb (String.eqb name "") && negb (String.eqb name "<anonymous>")).
Qed.

Lemma ancestry_unfold (this : CallerFrame) :
  ancestry this = this :: match parent this with
                          | Some p => ancestry p
                          | None => []
                          end.
Proof. by destruct this. Qed.

(** X13. The [function] getter answers the name of the nearest frame, the
    frame itself first and then its ancestors, whose own name is neither
    missing, empty nor ["<anonymous>"], and the empty string when there is
    no such frame. It therefore never answers ["<anonymous>"], and answers
    the empty string exactly when no frame of the chain has a usable
    name. *)
Theorem function_is_nearest_usable_name (this : CallerFrame) :
  function this
  = match List.find named_frame (ancestry this) with
    | Some frame => default "" (_function frame)
    | None => ""
    end /\
  function this <> "<anonymous>" /\
  (function this = "" <-> List.find named_frame (ancestry this) = None).
Proof.
  assert (Hfind : forall c,
             function c = match List.find named_frame (ancestry c) with
                          | Some frame => default "" (_function frame)
                          | None => ""
                          end).
  { fix IH 1. intros c. rewrite function_unfold, ancestry_unfold. cbn [List.find].
    destruct (named_frame c); [reflexivity|].
    destruct c as [f fn l col [p|]]; cbn [parent]; [apply IH | reflexivity]. }
  assert (Hnamed : forall frame, named_frame frame = true ->
             default "" (_function frame) <> "" /\
             default "" (_function frame) <> "<anonymous>").
  { intros [f [name|] l c p]; unfold named_frame; cbn; [|discriminate].
    intros H. apply andb_true_iff in H as [H1 H2].
    apply negb_true_iff in H1, H2.
    split; intros ->; discriminate. }
  split; [apply Hfind|]. rewrite Hfind.
  destruct (List.find named_frame (ancestry this)) as [frame|] eqn:Hf.
  - apply find_some in Hf as [_ Hf]. destruct (Hnamed frame Hf) as [H1 H2].
    split; [exact H2|]. split; [intros H; contradiction | discriminate].
  - split; [discriminate|]. split; reflexivity.
Qed.

End CallerProperties.

Section LogProperties.
Import JsObject Exporter Timestamps Logs.

Variable Number : Type.
Variable Number_isInteger : Number -> bool.
Variable Number_toString : Number -> string.
Variable Date : Type.
Variable toISOString : Date -> string.
Variable Other : Type.
Variable String_of : Other -> string.
Variable JSON_stringify : value Number Date Other -> string.

Local Abbreviation logToOTLP' :=
  (logToOTLP Number Number_isInteger Number_toString Date toISOString Other String_of
     JSON_stringify).
Local Abbreviation buildLogExportRequest' :=
  (buildLogExportRequest Number Number_isInteger Number_toString Date toISOString Other
     String_of JSON_stringify).

Lemma resource_attributes_keys (ra : list (string * string)) (acc : list (OTLPKeyValue Number)) :
  List.map (key Number)
    (List.fold_left (fun attrs kv => attrs ++ [mkKeyValue (fst kv) (stringValue (snd kv))])
       ra acc)
  = List.map (key Number) acc ++ List.map fst ra.
Proof.
  revert acc. induction ra as [|kv ra IH]; intros acc; cbn.
  - by rewrite app_nil_r.
  - rewrite IH, map_app. cbn. by rewrite <- app_assoc.
Qed.


End LogProperties.


(* ===================================================================== *)
(** * Properties of the configuration reader                              *)
(* ===================================================================== *)

Section EnvironmentProperties.
Import JsObject Codec Environment.

Lemma contains_false (c : ascii) (s : string) :
  contains c s = false -> Forall (fun x => x <> c) (list_ascii_of_string s).
Proof.
  unfold contains. induction (list_ascii_of_string s) as [|x l IH]; cbn; [constructor|].
  intros H. apply orb_false_iff in H as [Hx Hl]. constructor; [|by apply IH].
  intros ->. by rewrite Ascii.eqb_refl in Hx.
Qed.

(** A string without the separator is one field. *)
Lemma split_no_sep (sep : ascii) (s : string) :
  Forall (fun x => x <> sep) (list_ascii_of_string s) -> split sep s = [s].
Proof.
  induction s as [|c s IH]; cbn; intros H; [reflexivity|].
  inversion H as [|? ? Hc Hs]; subst.
  destruct (Ascii.eqb_spec c sep) as [->|_]; [contradiction|].
  by rewrite (IH Hs).
Qed.

Lemma join_with_cons (sep part : string) (rest : list string) :
  rest <> [] -> join_with sep (part :: rest) = (part ++ sep ++ join_with sep rest)%string.
Proof. by destruct rest. Qed.

Lemma string_app_assoc (a b c : string) : ((a ++ b) ++ c = a ++ b ++ c)%string.
Proof.
  induction a as [|x a IH]; [reflexivity|].
  change (String x ((a ++ b) ++ c) = String x (a ++ b ++ c))%string. by rewrite IH.
Qed.

Lemma list_ascii_of_string_app_sep (a b : string) (sep : ascii) :
  list_ascii_of_string (a ++ String sep "" ++ b)
  = list_ascii_of_string a ++ sep :: list_ascii_of_string b.
Proof.
  induction a as [|x a IH]; [reflexivity|].
  change (x :: list_ascii_of_string (a ++ String sep "" ++ b)
          = x :: (list_ascii_of_string a ++ sep :: list_ascii_of_string b)).
  by rewrite IH.
Qed.

(** Splitting undoes joining, for fields free of the separator. *)
Lemma split_join_with (sep : ascii) (fields : list string) :
  fields <> [] ->
  Forall (fun f => Forall (fun x => x <> sep) (list_ascii_of_string f)) fields ->
  split sep (join_with (String sep "") fields) = fields.
Proof.
  induction fields as [|f fields IH]; [congruence|]. intros _ H.
  inversion H as [|? ? Hf Hrest]; subst.
  destruct fields as [|g fields]; [by apply split_no_sep|].
  rewrite join_with_cons by discriminate.
  change (f ++ String sep "" ++ join_with (String sep "") (g :: fields))%string
    with (f ++ String sep (join_with (String sep "") (g :: fields)))%string.
  rewrite split_field by exact Hf. by rewrite IH.
Qed.

(** Joining undoes splitting. *)
Lemma join_with_split (sep : ascii) (s : string) :
  join_with (String sep "") (split sep s) = s.
Proof.
  induction s as [|c s IH]; [reflexivity|]. cbn [split].
  destruct (Ascii.eqb_spec c sep) as [->|Hc].
  - rewrite join_with_cons by apply split_nonempty. by rewrite IH.
  - pose proof (split_nonempty sep s) as Hne.
    destruct (split sep s) as [|field fields]; [congruence|].
    destruct fields as [|g fields].
    + cbn [join_with] in *. by rewrite IH.
    + rewrite join_with_cons by discriminate. rewrite join_with_cons in IH by discriminate.
      rewrite <- IH. reflexivity.
Qed.

(** X15. [parseResourceAttributes] reads back what was written. For a
    string made of comma-separated pieces, each either [key=value] (key
    not empty, without comma or equals sign; value without comma, equals
    signs allowed) or text without an equals sign, the result binds every
    trimmed key to its trimmed value, the last piece winning for a repeated
    key, and ignores the pieces without an equals sign. *)
Theorem parseResourceAttributes_reads_pairs (segs : list Segment) :
  forallb well_formed segs = true ->
  forall q,
    obj_get q (parseResourceAttributes (Some (join_with "," (List.map render segs))))
    = Exporter.last_binding q (bindings segs).
Proof.
  intros Hwf q.
  set (step := fun (result : props string) (pair : string) =>
         match split "=" pair with
         | key :: valueParts =>
             if negb (String.eqb key "") && Nat.ltb 0 (List.length valueParts)
             then assign (trim key) (trim (join_with "=" valueParts)) result
             else result
         | [] => result
         end).
  assert (Hstep : forall seg result, well_formed seg = true ->
             step result (render seg)
             = List.fold_left (fun t kv => obj_set (fst kv) (snd kv) t)
                 (match seg with
                  | Pair key value => [(trim key, trim value)]
                  | Junk _ => []
                  end) result).
  { intros [k v|text] result Hseg; unfold step; cbn [render].
    - cbn in Hseg. repeat (apply andb_true_iff in Hseg as [Hseg ?]).
      change (k ++ "=" ++ v)%string with (k ++ String "=" v)%string.
      rewrite split_field by (apply contains_false; by apply negb_true_iff).
      rewrite Hseg. pose proof (split_nonempty "=" v) as Hne.
      rewrite join_with_split.
      destruct (split "=" v) as [|x l]; [congruence|]. cbn [List.length Nat.ltb Nat.leb andb].
      unfold assign. cbn [List.fold_left fst snd].
      by destruct (String.eqb (trim k) "__proto__").
    - cbn in Hseg. apply andb_true_iff in Hseg as [_ Heq].
      rewrite split_no_sep by (apply contains_false; by apply negb_true_iff).
      cbn. by rewrite andb_false_r. }
  assert (Hfold : forall l result, forallb well_formed l = true ->
             List.fold_left step (List.map render l) result
             = List.fold_left (fun t kv => obj_set (fst kv) (snd kv) t) (bindings l) result).
  { induction l as [|seg l IH]; intros result Hl; [reflexivity|].
    cbn in Hl. apply andb_true_iff in Hl as [Hseg Hl].
    cbn [List.map List.fold_left]. rewrite Hstep by exact Hseg. rewrite IH by exact Hl.
    unfold bindings. cbn [List.flat_map]. by rewrite fold_left_app. }
  unfold parseResourceAttributes.
  destruct (String.eqb_spec (join_with "," (List.map render segs)) "") as [Hempty|Hne].
  - destruct segs as [|seg segs]; [reflexivity|].
    assert (Hsplit : split "," (join_with "," (List.map render (seg :: segs)))
                     = List.map render (seg :: segs)).
    { apply split_join_with; [discriminate|].
      apply Forall_forall. intros f Hf. apply list_elem_of_In, in_map_iff in Hf as (s & <- & Hs).
      rewrite forallb_forall in Hwf. specialize (Hwf s Hs).
      destruct s as [k v|text]; cbn in Hwf; repeat (apply andb_true_iff in Hwf as [Hwf ?]).
      - cbn [render]. rewrite list_ascii_of_string_app_sep. apply Forall_app. split.
        + apply contains_false. by apply negb_true_iff.
        + constructor; [discriminate|]. apply contains_false. by apply negb_true_iff.
      - apply contains_false. by apply negb_true_iff. }
    rewrite Hempty in Hsplit. cbn in Hsplit.
    destruct segs as [|seg' segs]; [|discriminate].
    cbn in Hsplit. injection Hsplit as Hr.
    destruct seg as [k v|text]; cbn in Hr.
    + destruct k; discriminate.
    + reflexivity.
  - transitivity (obj_get q (List.fold_left (fun t kv => obj_set (fst kv) (snd kv) t)
                                (bindings segs) []));
      [|rewrite obj_get_fold_set; by destruct (Exporter.last_binding q (bindings segs))].
    f_equal. rewrite <- Hfold by exact Hwf. f_equal.
    destruct segs as [|seg segs]; [by destruct Hne|].
    apply split_join_with; [discriminate|].
    apply Forall_forall. intros f Hf. apply list_elem_of_In, in_map_iff in Hf as (s & <- & Hs).
    rewrite forallb_forall in Hwf. specialize (Hwf s Hs).
    destruct s as [k v|text]; cbn in Hwf; repeat (apply andb_true_iff in Hwf as [Hwf ?]).
    + cbn [render]. rewrite list_ascii_of_string_app_sep. apply Forall_app. split.
      * apply contains_false. by apply negb_true_iff.
      * constructor; [discriminate|]. apply contains_false. by apply negb_true_iff.
    + apply contains_false. by apply negb_true_iff.
Qed.

Lemma parseResourceAttributes_reads_pairs_witness :
  obj_get "service.version"
    (parseResourceAttributes (Some "service.version=1.0,oops, env =a=b,service.version=2"))
  = Exporter.last_binding "service.version"
      [("service.version", "1.0"); ("env", "a=b"); ("service.version", "2")].
Proof.
  exact (parseResourceAttributes_reads_pairs
           [Pair "service.version" "1.0"; Junk "oops"; Pair " env " "a=b";
            Pair "service.version" "2"] eq_refl "service.version").
Defined.

End EnvironmentProperties.


(* ===================================================================== *)
(** * Properties of body capture                                          *)
(* ===================================================================== *)

Section BodyCaptureProperties.
Import Codec Effects Environment BodyCapture.

Lemma string_app_nil_r (s : string) : (s ++ "")%string = s.
Proof.
  induction s as [|c s IH]; [reflexivity|].
  change (String c (s ++ "") = String c s)%string. by rewrite IH.
Qed.

Lemma string_length_app (a b : string) :
  String.length (a ++ b) = String.length a + String.length b.
Proof.
  induction a as [|c a IH]; [reflexivity|].
  change (S (String.length (a ++ b)) = S (String.length a + String.length b)).
  by rewrite IH.
Qed.

Lemma slice_to_length (n : nat) (s : string) :
  String.length (slice_to n s) = Nat.min n (String.length s).
Proof.
  revert s. induction n as [|n IH]; intros [|c s]; cbn; try reflexivity.
  by rewrite IH.
Qed.

Lemma slice_to_all (n : nat) (s : string) : String.length s <= n -> slice_to n s = s.
Proof.
  revert s. induction n as [|n IH]; intros [|c s] H; cbn in *; try reflexivity; try lia.
  rewrite IH by lia. reflexivity.
Qed.

(** The loop reads whole chunks from the front of the stream and stops
    at the first point where the bound is reached, or at the end. *)
Lemma read_loop_spec (max : nat) (reads : ReadableStream) :
  forall acc,
  match read_loop max reads acc with
  | Normal r =>
      exists p rest,
        r = (acc ++ p)%string /\ text_of reads = (p ++ rest)%string /\
        (max <= String.length r \/ rest = "" /\ fails reads = false)
  | Throw e => In (Failed e) reads
  end.
Proof.
  induction reads as [|[text|error] reads IH]; intros acc; cbn [read_loop].
  - destruct (Nat.ltb_spec (String.length acc) max) as [Hlt|Hge];
      exists "", ""; rewrite string_app_nil_r; repeat split; auto.
  - destruct (Nat.ltb_spec (String.length acc) max) as [Hlt|Hge].
    + specialize (IH (acc ++ text)%string).
      destruct (read_loop max reads (acc ++ text)) as [r|e]; [|by right].
      destruct IH as (p & rest & Hr & Htext & Hstop).
      exists (text ++ p)%string, rest. cbn [text_of]. rewrite Htext, Hr.
      rewrite !string_app_assoc. repeat split; auto.
      rewrite <- !string_app_assoc, <- Hr. exact Hstop.
    + exists "", (text_of (Chunk text :: reads)).
      rewrite string_app_nil_r. repeat split; auto.
  - destruct (Nat.ltb_spec (String.length acc) max) as [Hlt|Hge].
    + by left.
    + exists "", "". rewrite string_app_nil_r. repeat split; auto.
Qed.

(** X16. What [readBodyWithTruncate] hands to the request log. For a
    content type that is not loggable the text is empty and the body comes
    back as it was given, unread. Otherwise the stream that comes back is
    the second branch of the body's [tee()], the promise rejects only with
    a failure of the stream, and the text is never longer than
    [MAX_BODY_LOG_SIZE] plus the 14 characters of ["...[truncated]"]: it is
    a prefix of the body made of whole chunks, which reaches
    [MAX_BODY_LOG_SIZE] characters unless the body ends before without
    failing, cut to [MAX_BODY_LOG_SIZE] characters and marked when that
    prefix is longer. A body of at most
    [MAX_BODY_LOG_SIZE] characters that does not fail is logged whole and
    unmarked. *)
Theorem readBodyWithTruncate_bounded (stream : ReadableStream) (contentType : option string) :
  match readBodyWithTruncate (Some stream) contentType with
  | Fulfilled (text, stream') =>
      stream' = Some (if isLoggableContentType contentType
                      then SecondBranch stream else Untouched stream) /\
      String.length text <= MAX_BODY_LOG_SIZE + 14 /\
      (isLoggableContentType contentType = false -> text = "") /\
      (isLoggableContentType contentType = true ->
         (exists p rest,
            text_of stream = (p ++ rest)%string /\
            (MAX_BODY_LOG_SIZE <= String.length p \/ rest = "" /\ fails stream = false) /\
            text = if Nat.ltb MAX_BODY_LOG_SIZE (String.length p)
                   then (slice_to MAX_BODY_LOG_SIZE p ++ "...[truncated]")%string
                   else p) /\
         (String.length (text_of stream) <= MAX_BODY_LOG_SIZE -> fails stream = false ->
          text = text_of stream))
  | Rejected error =>
      isLoggableContentType contentType = true /\ In (Failed error) stream
  end.
Proof.
  unfold readBodyWithTruncate.
  destruct (isLoggableContentType contentType) eqn:Hlog; cbn [negb].
  2:{ split; [reflexivity|]. split; [cbn; lia|]. split; [reflexivity | discriminate]. }
  pose proof (read_loop_spec MAX_BODY_LOG_SIZE stream "") as Hspec.
  destruct (read_loop MAX_BODY_LOG_SIZE stream "") as [r|e]; [|by split].
  destruct Hspec as (p & rest & Hr & Htext & Hstop).
  change ("" ++ p)%string with p in Hr. subst r.
  generalize dependent MAX_BODY_LOG_SIZE. intros max Hstop.
  split; [reflexivity|]. split; [|split; [discriminate|]].
  - destruct (Nat.ltb_spec max (String.length p)) as [Hlt|Hge]; [|lia].
    rewrite string_length_app, slice_to_length. cbn. lia.
  - intros _. split; [by exists p, rest|].
    intros Hshort Hok. rewrite Htext, string_length_app in Hshort.
    destruct (Nat.ltb_spec max (String.length p)) as [Hlt|Hge]; [lia|].
    rewrite Htext. destruct Hstop as [Hmax|[-> _]]; [|by rewrite string_app_nil_r].
    destruct rest as [|c rest]; [by rewrite string_app_nil_r|]. cbn in Hshort. lia.
Qed.

(** X17. A chunk boundary exactly at the bound hides the truncation. When
    the first chunk of a loggable body decodes to exactly
    [MAX_BODY_LOG_SIZE] characters, the loop stops there: the logged text
    is that chunk, without the marker, whatever the stream holds after it,
    a failure included; what comes back with it is the second branch of
    the body's [tee()]. *)
Theorem chunk_boundary_hides_truncation (text : string) (rest : ReadableStream)
  (contentType : option string) :
  String.length text = MAX_BODY_LOG_SIZE ->
  isLoggableContentType contentType = true ->
  readBodyWithTruncate (Some (Chunk text :: rest)) contentType
  = Fulfilled (text, Some (SecondBranch (Chunk text :: rest))).
Proof.
  intros Hlen Hlog. unfold readBodyWithTruncate. rewrite Hlog. cbn [negb read_loop].
  change (String.length "") with 0. change ("" ++ text)%string with text.
  assert (Hpos : Nat.ltb 0 MAX_BODY_LOG_SIZE = true) by (rewrite <- Hlen; by destruct text).
  rewrite Hpos.
  assert (Hstop : read_loop MAX_BODY_LOG_SIZE rest text = Normal text).
  { destruct rest as [|r rest]; cbn [read_loop]; by rewrite Hlen, Nat.ltb_irrefl. }
  rewrite Hstop. by rewrite Hlen, Nat.ltb_irrefl.
Qed.

Lemma chunk_boundary_hides_truncation_witness :
  let text := string_of_list_ascii (List.repeat "a"%char MAX_BODY_LOG_SIZE) in
  readBodyWithTruncate (Some [Chunk text; Chunk "more"])
    (Some "application/json; charset=utf-8")
  = Fulfilled (text, Some (SecondBranch [Chunk text; Chunk "more"])).
Proof.
  apply (chunk_boundary_hides_truncation
           (string_of_list_ascii (List.repeat "a"%char MAX_BODY_LOG_SIZE))
           [Chunk "more"] (Some "application/json; charset=utf-8")).
  - vm_compute. reflexivity.
  - vm_compute. reflexivity.
Defined.

(** X18. [isLoggableContentType] looks only at what precedes the first
    semicolon: parameters such as a charset never change the answer. A
    missing or empty content type is not loggable. *)
Theorem isLoggableContentType_ignores_parameters (base params : string) :
  contains ";" base = false ->
  isLoggableContentType (Some (base ++ ";" ++ params)%string)
  = isLoggableContentType (Some base) /\
  isLoggableContentType None = false /\
  isLoggableContentType (Some "") = false.
Proof.
  intros Hbase. split; [|split; reflexivity].
  apply contains_false in Hbase. unfold isLoggableContentType.
  change (base ++ ";" ++ params)%string with (base ++ String ";" params)%string.
  rewrite split_field by exact Hbase. rewrite (split_no_sep ";" base) by exact Hbase.
  cbn [List.hd].
  destruct base as [|c base]; [reflexivity|]. reflexivity.
Qed.

Lemma isLoggableContentType_ignores_parameters_witness :
  isLoggableContentType (Some ("Application/JSON " ++ ";" ++ "charset=utf-8")%string)
  = isLoggableContentType (Some "Application/JSON ") /\
  isLoggableContentType None = false /\
  isLoggableContentType (Some "") = false.
Proof.
  apply (isLoggableContentType_ignores_parameters "Application/JSON " "charset=utf-8").
  reflexivity.
Defined.

End BodyCaptureProperties.


(* ===================================================================== *)
(** * Properties of constructing and inspecting [TracedError]             *)
(* ===================================================================== *)

Section ErrorOpsProperties.
Import ErrorChain ErrorOps.

Lemma rootCause_more_fuel (fuel : nat) (h : Heap) :
  forall v r, rootCause fuel h v = Some r -> rootCause (S fuel) h v = Some r.
Proof.
  induction fuel as [|fuel IH]; intros v r; [discriminate|].
  intros H. cbn [rootCause] in H.
  change (rootCause (S (S fuel)) h v)
    with (if instanceof_Error h v && negb (is_undefined (get_cause h v))
          then rootCause (S fuel) h (get_cause h v) else Some v).
  destruct (instanceof_Error h v && negb (is_undefined (get_cause h v))); [|exact H].
  by apply IH.
Qed.

Lemma rootCause_fuel_le (h : Heap) (v r : JsValue) (fuel fuel' : nat) :
  fuel <= fuel' -> rootCause fuel h v = Some r -> rootCause fuel' h v = Some r.
Proof.
  induction 1 as [|fuel' _ IH]; [auto|]. intros H. by apply rootCause_more_fuel, IH.
Qed.

(** What the loop answers is where it stops. *)
Lemma rootCause_stops (fuel : nat) (h : Heap) :
  forall v r, rootCause fuel h v = Some r ->
  instanceof_Error h r && negb (is_undefined (get_cause h r)) = false.
Proof.
  induction fuel as [|fuel IH]; intros v r; [discriminate|]. cbn [rootCause].
  destruct (instanceof_Error h v && negb (is_undefined (get_cause h v))) eqn:Hgo.
  - apply IH.
  - by intros [= <-].
Qed.

(** X19. [rootCause()] on a heap where every cause is older than the
    error that holds it: the loop ends, with at most one step per object;
    the value it answers is no [Error] with a defined cause, so asking for
    the root cause of the answer gives the answer again. *)
Theorem rootCause_ends_at_a_root (h : Heap) (e : JsValue) :
  causes_are_older h ->
  exists r,
    rootCause (S (S (List.length h))) h e = Some r /\
    instanceof_Error h r && negb (is_undefined (get_cause h r)) = false /\
    forall fuel, rootCause (S fuel) h r = Some r.
Proof.
  intros Hold.
  assert (Href : forall a, exists r, rootCause (S (S a)) h (JsRef a) = Some r).
  { intros a. induction (lt_wf a) as [a _ IH]. cbn [rootCause].
    destruct (instanceof_Error h (JsRef a) && negb (is_undefined (get_cause h (JsRef a))))
      eqn:Hgo; [|eauto].
    apply andb_true_iff in Hgo as [Herr Hdef]. cbn [get_cause] in *.
    destruct (h !! a) as [o|] eqn:Ho; [|discriminate].
    destruct (cause o) as [| |t|b] eqn:Hc; try discriminate; try solve [cbn; eauto].
    pose proof (Hold a o b Ho Hc) as Hlt.
    destruct (IH b Hlt) as [r Hr]. exists r.
    apply (rootCause_fuel_le h (JsRef b) r (S (S b)) (S a)); [lia | exact Hr]. }
  assert (Hend : exists r, rootCause (S (S (List.length h))) h e = Some r).
  { destruct e as [| |t|a]; try solve [cbn; eauto].
    destruct (decide (a < List.length h)) as [Hlt|Hge].
    - destruct (Href a) as [r Hr]. exists r.
      apply (rootCause_fuel_le h (JsRef a) r (S (S a))); [lia | exact Hr].
    - exists (JsRef a). cbn [rootCause]. unfold instanceof_Error.
      assert (Hnone : h !! a = None) by (apply lookup_ge_None; lia).
      by rewrite Hnone. }
  destruct Hend as [r Hr]. exists r. split; [exact Hr|].
  pose proof (rootCause_stops _ h e r Hr) as Hstop. split; [exact Hstop|].
  intros fuel. cbn [rootCause]. by rewrite Hstop.
Qed.

Lemma rootCause_ends_at_a_root_witness :
  exists r,
    rootCause (S (S (List.length wrapped_heap))) wrapped_heap (JsRef 1) = Some r /\
    instanceof_Error wrapped_heap r && negb (is_undefined (get_cause wrapped_heap r)) = false /\
    forall fuel, rootCause (S fuel) wrapped_heap r = Some r.
Proof.
  apply (rootCause_ends_at_a_root wrapped_heap (JsRef 1)).
  intros a o b Ho Hc. destruct a as [|[|a]]; cbn in Ho; try discriminate;
    injection Ho as <-; cbn in Hc; try discriminate. injection Hc as <-. lia.
Defined.

Lemma lookup_extended (h : Heap) (o : HeapObject) (a : nat) :
  a < List.length h -> ((h ++ [o]) : Heap) !! a = h !! a.
Proof. intros H. by apply lookup_app_l. Qed.

(** X20. [TracedError.wrap(cause, ...)] and [TracedError.fail(...)] always
    make an instance of [TracedError], whatever is wrapped (a primitive,
    [null], a function, another error): [instanceof TracedError] and
    [is(TracedError)] answer [true] at the first step. The new error holds
    the given cause, the objects that existed stay as they were, and a heap
    whose causes are all older than their holders stays that way when the
    cause is a value that existed before. *)
Theorem wrap_makes_a_TracedError (cause : JsValue) (h : Heap) (fuel : nat) :
  let e := fst (wrap cause h) in
  let h' := snd (wrap cause h) in
  hasInstance (S fuel) h' e = Some true /\
  TracedError_is (S fuel) h' e TracedErrorClass = Some true /\
  get_cause h' e = cause /\
  (forall a o, h !! a = Some o -> h' !! a = Some o) /\
  (causes_are_older h -> in_heap h cause -> causes_are_older h') /\
  fail h = wrap JsUndefined h.
Proof.
  intros e h'. subst e h'. unfold wrap, new_TracedError. cbn [fst snd].
  set (o := mkObject false [TracedErrorPrototype; ErrorPrototype; ObjectPrototype] cause).
  assert (Ho : ((h ++ [o]) : Heap) !! List.length h = Some o)
    by (by apply list_lookup_middle).
  assert (Hinst : hasInstance (S fuel) (h ++ [o]) (JsRef (List.length h)) = Some true).
  { unfold hasInstance, not_an_object. rewrite Ho. change (callable o) with false.
    cbn [walk]. unfold instanceof_Error. rewrite Ho. reflexivity. }
  split; [exact Hinst|]. split.
  { unfold TracedError_is. cbn [is_loop instanceof]. rewrite Hinst.
    unfold instanceof_Error. rewrite Ho. reflexivity. }
  split; [cbn [get_cause]; by rewrite Ho|].
  split.
  { intros a o' Ha. rewrite lookup_extended by (by eapply lookup_lt_Some). exact Ha. }
  split; [|reflexivity].
  intros Hold Hin a o' b Ha Hc.
  destruct (decide (a < List.length h)) as [Hlt|Hge].
  - rewrite lookup_extended in Ha by exact Hlt. by apply (Hold a o' b).
  - assert (a = List.length h).
    { apply lookup_lt_Some in Ha. rewrite length_app in Ha. cbn in Ha. lia. }
    subst a. rewrite Ho in Ha. injection Ha as <-. cbn in Hc. by apply Hin.
Qed.

Lemma rootCause_extended (o : HeapObject) (h : Heap) :
  causes_are_older h ->
  forall fuel v, in_heap h v -> rootCause fuel (h ++ [o]) v = rootCause fuel h v.
Proof.
  intros Hold. induction fuel as [|fuel IH]; intros v Hv; [reflexivity|].
  cbn [rootCause].
  assert (Hsame : instanceof_Error (h ++ [o]) v = instanceof_Error h v /\
                  get_cause (h ++ [o]) v = get_cause h v /\
                  in_heap h (get_cause h v)).
  { destruct v as [| |t|a]; try (repeat split; intros b; discriminate).
    pose proof (Hv a eq_refl) as Hlt. unfold instanceof_Error, get_cause.
    rewrite lookup_extended by exact Hlt.
    repeat split. destruct (h !! a) as [o'|] eqn:Ha; [|intros b; discriminate].
    intros b Hb. pose proof (Hold a o' b Ha Hb). lia. }
  destruct Hsame as (-> & -> & Hnext).
  destruct (instanceof_Error h v && negb (is_undefined (get_cause h v))); [|reflexivity].
  by apply IH.
Qed.

(** X21. [rootCause()] looks through [wrap]: on a heap whose causes are
    older than their holders, the root cause of [TracedError.wrap(cause)]
    is the root cause of [cause], found with one more step, for every
    cause but [undefined]; an error made by [fail], or by wrapping
    [undefined], is its own root cause. *)
Theorem rootCause_looks_through_wrap (cause : JsValue) (h : Heap) (fuel : nat) :
  causes_are_older h -> in_heap h cause ->
  let e := fst (wrap cause h) in
  let h' := snd (wrap cause h) in
  rootCause (S fuel) h' e
  = if is_undefined cause then Some e else rootCause fuel h cause.
Proof.
  intros Hold Hin e h'. subst e h'. unfold wrap, new_TracedError. cbn [fst snd].
  set (o := mkObject false [TracedErrorPrototype; ErrorPrototype; ObjectPrototype] cause).
  assert (Ho : ((h ++ [o]) : Heap) !! List.length h = Some o)
    by (by apply list_lookup_middle).
  cbn [rootCause get_cause]. unfold instanceof_Error. rewrite Ho.
  change (protoChain o) with [TracedErrorPrototype; ErrorPrototype; ObjectPrototype].
  change (ErrorChain.cause o) with cause.
  cbn [existsb Prototype_eqb orb andb].
  destruct (is_undefined cause) eqn:Hu; cbn [negb]; [reflexivity|].
  by apply rootCause_extended.
Qed.

Lemma rootCause_looks_through_wrap_witness :
  rootCause 3 (snd (wrap (JsRef 1) wrapped_heap)) (fst (wrap (JsRef 1) wrapped_heap))
  = if is_undefined (JsRef 1) then Some (fst (wrap (JsRef 1) wrapped_heap))
    else rootCause 2 wrapped_heap (JsRef 1).
Proof.
  apply (rootCause_looks_through_wrap (JsRef 1) wrapped_heap 2).
  - intros a o b Ho Hc. destruct a as [|[|a]]; cbn in Ho; try discriminate;
      injection Ho as <-; cbn in Hc; try discriminate. injection Hc as <-. lia.
  - intros b [= <-]. cbn. lia.
Defined.

Lemma has_prototype_spec (h : Heap) (p : Prototype) (a : nat) (o : HeapObject) :
  h !! a = Some o -> (has_prototype h (JsRef a) p = true <-> In p (protoChain o)).
Proof.
  intros Ho. unfold has_prototype. rewrite Ho, existsb_exists. split.
  - intros (q & Hin & Hq). apply Prototype_eqb_eq in Hq. by subst q.
  - intros Hin. exists p. split; [exact Hin | by apply Prototype_eqb_eq].
Qed.

Lemma is_loop_sound (inner fuel : nat) (h : Heap) (p : Prototype) :
  forall v, is_loop inner fuel h (OrdinaryClass p) v = Some true -> found_in_chain h p v.
Proof.
  induction fuel as [|fuel IH]; intros v; cbn [is_loop instanceof]; [discriminate|].
  destruct (instanceof_Error h v) eqn:Herr; [|discriminate].
  apply instanceof_Error_spec in Herr as (a & o & -> & Ho & HE).
  destruct (has_prototype h (JsRef a) p) eqn:Hp.
  - intros _. apply (found_here h p a o Ho HE). by apply (has_prototype_spec h p a o Ho).
  - intros Hw. apply (found_in_cause h p a o Ho HE).
    apply IH. cbn [get_cause] in Hw. by rewrite Ho in Hw.
Qed.

Lemma is_loop_more_fuel (inner fuel : nat) (h : Heap) (p : Prototype) :
  forall v b, is_loop inner fuel h (OrdinaryClass p) v = Some b ->
              is_loop inner (S fuel) h (OrdinaryClass p) v = Some b.
Proof.
  induction fuel as [|fuel IH]; intros v b; [discriminate|].
  intros H. cbn [is_loop instanceof] in H.
  change (is_loop inner (S (S fuel)) h (OrdinaryClass p) v)
    with (if instanceof_Error h v then
            match Some (has_prototype h v p) with
            | Some true => Some true
            | Some false => is_loop inner (S fuel) h (OrdinaryClass p) (get_cause h v)
            | None => None
            end
          else Some false).
  destruct (instanceof_Error h v); [|exact H].
  destruct (has_prototype h v p); [exact H|]. by apply IH.
Qed.

Lemma is_loop_fuel_le (inner : nat) (h : Heap) (p : Prototype) (v : JsValue) (b : bool)
  (fuel fuel' : nat) :
  fuel <= fuel' -> is_loop inner fuel h (OrdinaryClass p) v = Some b ->
  is_loop inner fuel' h (OrdinaryClass p) v = Some b.
Proof.
  induction 1 as [|fuel' _ IH]; [auto|]. intros H. by apply is_loop_more_fuel, IH.
Qed.

Lemma is_loop_complete (inner : nat) (h : Heap) (p : Prototype) (v : JsValue) :
  found_in_chain h p v -> exists fuel, is_loop inner fuel h (OrdinaryClass p) v = Some true.
Proof.
  induction 1 as [a o Ho HE Hp | a o Ho HE _ [fuel IH]].
  - exists 1. cbn [is_loop instanceof].
    rewrite (proj2 (instanceof_Error_spec h (JsRef a))) by eauto.
    by rewrite (proj2 (has_prototype_spec h p a o Ho) Hp).
  - exists (S fuel). cbn [is_loop instanceof].
    rewrite (proj2 (instanceof_Error_spec h (JsRef a))) by eauto.
    destruct (has_prototype h (JsRef a) p); [reflexivity|].
    cbn [get_cause]. by rewrite Ho.
Qed.

Lemma is_loop_terminates (inner : nat) (h : Heap) (p : Prototype) :
  causes_are_older h ->
  forall v, exists b, is_loop inner (S (S (List.length h))) h (OrdinaryClass p) v = Some b.
Proof.
  intros Hold.
  assert (Href : forall a, exists b,
             is_loop inner (S (S a)) h (OrdinaryClass p) (JsRef a) = Some b).
  { intros a. induction (lt_wf a) as [a _ IH]. cbn [is_loop instanceof].
    destruct (instanceof_Error h (JsRef a)) eqn:Herr; [|eauto].
    destruct (has_prototype h (JsRef a) p); [eauto|].
    cbn [get_cause]. destruct (h !! a) as [o|] eqn:Ho; [|cbn; eauto].
    destruct (cause o) as [| |t|b] eqn:Hc; try solve [cbn; eauto].
    pose proof (Hold a o b Ho Hc) as Hlt.
    destruct (IH b Hlt) as [r Hr]. exists r.
    apply (is_loop_fuel_le inner h p (JsRef b) r (S (S b)) (S a)); [lia | exact Hr]. }
  intros [| |t|a]; try solve [cbn; eauto].
  destruct (decide (a < List.length h)) as [Hlt|Hge].
  - destruct (Href a) as [b Hb]. exists b.
    apply (is_loop_fuel_le inner h p (JsRef a) b (S (S a))); [lia | exact Hb].
  - exists false. cbn [is_loop]. unfold instanceof_Error.
    assert (Hnone : h !! a = None) by (apply lookup_ge_None; lia).
    by rewrite Hnone.
Qed.

(** X22. [this.is(ErrorClass)] for a class whose [instanceof] is the
    ordinary prototype test. On a heap whose causes are older than their
    holders the loop ends, and it answers [true] exactly when, following
    [this], [this.cause], ... while each element is an [Error], an object
    with the class's prototype on its prototype chain is reached. An
    error hidden behind a cause that is not an [Error] is not found. *)
Theorem is_finds_class_in_cause_chain (h : Heap) (this : JsValue) (p : Prototype) :
  causes_are_older h ->
  exists b,
    TracedError_is (S (S (List.length h))) h this (OrdinaryClass p) = Some b /\
    (b = true <-> found_in_chain h p this).
Proof.
  intros Hold. unfold TracedError_is.
  destruct (is_loop_terminates (S (S (List.length h))) h p Hold this) as [b Hb].
  exists b. split; [exact Hb|]. split.
  - intros ->. by apply (is_loop_sound _ _ h p this Hb).
  - intros Hfound. destruct (is_loop_complete (S (S (List.length h))) h p this Hfound)
      as [fuel Hfuel].
    assert (Hle1 : S (S (List.length h)) <= S (S (List.length h)) + fuel) by lia.
    assert (Hle2 : fuel <= S (S (List.length h)) + fuel) by lia.
    pose proof (is_loop_fuel_le _ h p this b _ _ Hle1 Hb) as H1.
    pose proof (is_loop_fuel_le _ h p this true _ _ Hle2 Hfuel) as H2.
    congruence.
Qed.

Lemma is_finds_class_in_cause_chain_witness :
  exists b,
    TracedError_is (S (S (List.length (snd wrapped_TypeError)))) (snd wrapped_TypeError)
      (fst wrapped_TypeError) (OrdinaryClass (OtherPrototype 1)) = Some b /\
    (b = true <->
     found_in_chain (snd wrapped_TypeError) (OtherPrototype 1) (fst wrapped_TypeError)).
Proof.
  apply (is_finds_class_in_cause_chain (snd wrapped_TypeError) (fst wrapped_TypeError)
           (OtherPrototype 1)).
  intros a o b Ho Hc. destruct a as [|[|a]]; cbn in Ho; try discriminate;
    injection Ho as <-; cbn in Hc; try discriminate. injection Hc as <-. lia.
Defined.

End ErrorOpsProperties.


(* ===================================================================== *)
(** * Properties of [withTrace]'s span                                    *)
(* ===================================================================== *)

Section WithTraceProperties.
Import JsObject SpanEngine Lifecycle Caller.

Lemma startSpan_attributes (name : string) (options : option SpanOptions)
  (ctx : option Context) (active : Context) (w : World) :
  _attributes <$> heap (snd (startSpan name options ctx active w)) !! List.length (heap w)
  = Some (match options ≫= opt_attributes with
          | Some a => Object_assign [] a
          | None => []
          end).
Proof.
  unfold startSpan, getSpan, generateTraceId, generateSpanId, getRandomValues,
    new_CloudflareSpan.
  destruct (default active ctx ≫= spanContext w) as [psc|];
    cbn [entropy entropy_pos heap];
    destruct (_timeInputToMs (options ≫= opt_startTime)) as [t|];
    cbn [Date_now heap set_heap fst snd];
    rewrite list_lookup_middle by reflexivity; reflexivity.
Qed.

Ltac unfold_span_calls :=
  unfold apply_op, setAttribute, setAttributes, addEvent, addLink, addLinks,
    setStatus, updateName, recordException, span_end, method, notifyProcessor,
    store, set_heap, setSpanProcessor, Date_now in *.

(** A call that writes no attribute leaves the attributes as they are. *)
Lemma op_keeps_attributes (r : nat) (this : CloudflareSpan) (op : SpanOp) (w : World) :
  heap w !! r = Some this -> attribute_writes op = [] ->
  exists this',
    heap (apply_op (Recording r) op w) !! r = Some this' /\
    _attributes this' = _attributes this.
Proof.
  intros H Hop. pose proof (lookup_lt_Some _ _ _ H) as Hlt.
  destruct (_ended this) eqn:E; [rewrite (ended_op_noop r this op w H E); eauto|].
  destruct op; try discriminate.
  - (* setAttributes with no entries *)
    cbn [attribute_writes] in Hop. unfold apply_op, setAttributes, method.
    rewrite H, E. unfold Object_assign_each. rewrite Hop. cbn [List.fold_left].
    eexists. split; [apply heap_store; exact Hlt | reflexivity].
  - unfold_span_calls; rewrite ?H, ?E; cbn;
      repeat (match goal with
              | |- context [match ?x with _ => _ end] => is_var x; destruct x; cbn
              end);
      (eexists; split; [apply list_lookup_insert_eq; exact Hlt|]); reflexivity.
  - unfold_span_calls; rewrite ?H, ?E; cbn.
    eexists; split; [apply list_lookup_insert_eq; exact Hlt|]; reflexivity.
  - unfold_span_calls; rewrite ?H, ?E; cbn.
    eexists; split; [apply list_lookup_insert_eq; exact Hlt|]; reflexivity.
  - unfold_span_calls; rewrite ?H, ?E; cbn.
    eexists; split; [apply list_lookup_insert_eq; exact Hlt|]; reflexivity.
  - unfold_span_calls; rewrite ?H, ?E; cbn.
    eexists; split; [apply list_lookup_insert_eq; exact Hlt|]; reflexivity.
  - unfold_span_calls; rewrite ?H, ?E; cbn;
      repeat (match goal with
              | |- context [match ?x with _ => _ end] => is_var x; destruct x; cbn
              end);
      rewrite ?H, ?E; cbn;
      (eexists; split; [apply list_lookup_insert_eq; exact Hlt|]); reflexivity.
  - unfold_span_calls. rewrite H, E.
    destruct w as [h [spans|] en ep cl cp]; simpl in *;
      destruct endTime as [[n'|t'|s' n']|]; simpl;
      (eexists; split; [apply list_lookup_insert_eq; exact Hlt|]); reflexivity.
Qed.

Lemma ops_keep_attributes (r : nat) (ops : list SpanOp) :
  forall (w : World) (this : CloudflareSpan),
  heap w !! r = Some this -> Forall (fun op => attribute_writes op = []) ops ->
  exists this',
    heap (apply_ops (Recording r) ops w) !! r = Some this' /\
    _attributes this' = _attributes this.
Proof.
  induction ops as [|op ops IH]; intros w this H Hops; [eauto|].
  inversion Hops as [|? ? Hop Hrest]; subst.
  destruct (op_keeps_attributes r this op w H Hop) as (this1 & H1 & A1).
  destruct (IH _ this1 H1 Hrest) as (this' & H' & A').
  exists this'. split; [exact H' | congruence].
Qed.

Lemma toAttributes_NoDup (c : CallerFrame) : NoDup (List.map fst (toAttributes c)).
Proof.
  unfold toAttributes.
  repeat (match goal with
          | |- context [match ?x with _ => _ end] => destruct x
          end);
    repeat apply NoDup_obj_set; apply NoDup_nil_2.
Qed.

Lemma withTrace_reaction_writes_nothing {T} (c : Completion (Returned T)) :
  Forall (fun op => attribute_writes op = []) (withTrace_reaction c ++ tracer_reaction c).
Proof. destruct c as [[v|[v|e]]|e]; repeat constructor. Qed.

(** X23. The span [withTrace] makes. Whatever the callback does to the
    span and however it completes, the span is ended and reaches the
    processor exactly once, and its parent is the one named by
    [opts.parent]: a well-formed traceparent string or a span context makes
    it a child of that remote span, whatever span is active; a malformed
    string is ignored, as is a missing option, and the active span is the
    parent. Only the last part depends on the callback: when it writes no
    attribute, the span's attributes are the caller's [code.*] attributes
    with the given attributes over them. *)
Theorem withTrace_span_shape {T : Type} (u : UserFn T) (c : CallerFrame)
  (opts : WithTraceOptions) (active : Context) (w : World) :
  let n := List.length (heap w) in
  let out := withTrace (run_user u) (as_CallerInfo c) opts active w in
  let remote :=
    match wt_parent opts with
    | Some (ParentTraceparent s) => toSpanContext <$> parseTraceparent s
    | Some (ParentSpanContext sc) => Some sc
    | None => None
    end in
  exists this,
    heap (fst out) !! n = Some this /\
    _ended this = true /\
    getSpanProcessor (fst out) = (fun l => l ++ [n]) <$> getSpanProcessor w /\
    match remote with
    | Some sc =>
        sc_traceId (_spanContext this) = sc_traceId sc /\
        _parentSpanId this = Some (sc_spanId sc)
    | None => _parentSpanId this = sc_spanId <$> (getSpan active ≫= spanContext w)
    end /\
    (Forall (fun op => attribute_writes op = []) (fn_ops u) ->
     NoDup (List.map fst (default [] (opt_attributes (wt_span opts)))) ->
     forall q,
       obj_get q (_attributes this)
       = match obj_get q (default [] (opt_attributes (wt_span opts))) with
         | Some v => Some v
         | None => obj_get q (toAttributes c)
         end).
Proof.
  intros n out remote. subst out.
  rewrite withTrace_as_startActiveSpan, startActiveSpan_runs_callback, settle_and_end_user.
  cbn [fst fn_ops fn_completion].
  set (name := default (caller_function (as_CallerInfo c)) (wt_name opts)).
  set (options := Some (withTrace_spanOptions (as_CallerInfo c) opts)).
  set (parent := withTrace_parentContext opts active).
  destruct (startSpan_fresh name options None parent w) as (this0 & Hsp & H0 & E0 & _ & _ & P0).
  pose proof (startSpan_spanContext name options None parent w) as Hsc.
  pose proof (startSpan_parentSpanId name options None parent w) as Hpar.
  pose proof (startSpan_attributes name options None parent w) as Hattr.
  rewrite Hsp in *. fold n in H0, Hpar, Hattr |- *.
  set (w1 := snd (startSpan name options None parent w)) in *.
  set (ops := (fn_ops u ++ withTrace_reaction (fn_completion u)) ++
              tracer_reaction (fn_completion u)).
  destruct (ops_spec n ops w1 this0 H0) as (this & H & _ & E & P & C & Q & _).
  assert (Hend : existsb is_end ops = true).
  { unfold ops. by rewrite existsb_app, tracer_reaction_has_end, orb_true_r. }
  rewrite Hend, E0 in E, P. cbn in E, P.
  exists this. split; [exact H|]. split; [exact E|].
  split; [unfold getSpanProcessor; by rewrite P, P0|].
  cbn [spanContext] in Hsc. fold n in Hsc.
  rewrite H0 in Hsc, Hpar, Hattr. cbn in Hsc, Hpar.
  injection Hsc as Hsc. injection Hpar as Hpar.
  assert (Hattr' : _attributes this0
                   = Object_assign []
                       (Object_assign (Object_assign [] (toAttributes c))
                          (default [] (opt_attributes (wt_span opts)))))
    by (by injection Hattr).
  clear Hattr.
  split.
  - rewrite C, Q, Hsc, Hpar. subst remote parent. unfold withTrace_parentContext.
    destruct (wt_parent opts) as [[s|sc]|]; cbn [default].
    + unfold spanContextFromTraceparent.
      destruct (parseTraceparent s) as [tc|]; cbn; [split; reflexivity | reflexivity].
    + cbn. split; reflexivity.
    + reflexivity.
  - intros Hquiet Hnodup q.
    assert (Hops : Forall (fun op => attribute_writes op = []) ops).
    { unfold ops. rewrite <- app_assoc. apply Forall_app. split; [exact Hquiet|].
      apply withTrace_reaction_writes_nothing. }
    destruct (ops_keep_attributes n ops w1 this0 H0 Hops) as (this' & H' & A).
    assert (this' = this) by congruence. subst this'.
    rewrite A, Hattr'.
    set (given := default [] (opt_attributes (wt_span opts))) in *.
    assert (Hinner : NoDup (List.map fst (Object_assign [] (toAttributes c)))).
    { apply NoDup_Object_assign, NoDup_nil_2. }
    rewrite obj_get_Object_assign
      by (apply NoDup_Object_assign; exact Hinner).
    rewrite obj_get_Object_assign by exact Hnodup.
    rewrite obj_get_Object_assign by apply toAttributes_NoDup.
    cbn [as_CallerInfo caller_toAttributes obj_get].
    destruct (obj_get q given); [reflexivity|].
    by destruct (obj_get q (toAttributes c)).
Qed.

Lemma withTrace_span_shape_witness :
  let u : UserFn unit := mkUserFn [OpAddEvent "tick" None None] (Throw sample_error) in
  let opts :=
    mkWithTraceOptions None
      (Some (ParentTraceparent "00-0af7651916cd43dd8448eb211c80319c-b7ad6b7169203331-01"))
      (mkSpanOptions None None (Some [("code.function", AString "custom")]) None) in
  exists this,
    heap (fst (withTrace (run_user u) (as_CallerInfo sample_caller) opts ROOT_CONTEXT
                 sample_world)) !! 0 = Some this /\
    _ended this = true /\
    _parentSpanId this = Some "b7ad6b7169203331" /\
    obj_get "code.function" (_attributes this) = Some (AString "custom") /\
    obj_get "code.lineno" (_attributes this) = Some (ANumber (inject_Z 10)).
Proof.
  intros u opts.
  destruct (withTrace_span_shape u sample_caller opts ROOT_CONTEXT sample_world)
    as (this & H & E & _ & Hparent & Hattrs).
  assert (Hquiet : Forall (fun op => attribute_writes op = []) (fn_ops u))
    by repeat constructor.
  assert (Hnodup : NoDup (List.map fst (default [] (opt_attributes (wt_span opts)))))
    by (apply (bool_decide_unpack _); vm_compute; reflexivity).
  exists this. split; [exact H|]. split; [exact E|].
  split; [exact (proj2 Hparent)|].
  split; [exact (Hattrs Hquiet Hnodup "code.function")
         | exact (Hattrs Hquiet Hnodup "code.lineno")].
Defined.

End WithTraceProperties.


(* ===================================================================== *)
(** * Properties of stack frame parsing                                   *)
(* ===================================================================== *)

Section StackFrameProperties.
Import Environment BodyCapture Timestamps Caller StackFrames.
Local Arguments String.append !s1 s2 /.

Variable Number_of_integer : Z -> Z.
Hypothesis safe_integers_exact :
  forall z, (Z.abs z <= SAFE_LIMIT)%Z -> Number_of_integer z = z.

Local Abbreviation parseInt := (StackFrames.parseInt Number_of_integer).
Local Abbreviation fromStackFrame := (StackFrames.fromStackFrame Number_of_integer).

Lemma prefix_app (sub rest : string) : String.prefix sub (sub ++ rest) = true.
Proof.
  induction sub as [|c sub IH]; simpl; [by destruct rest|].
  destruct (ascii_dec c c) as [_|Hne]; [exact IH | congruence].
Qed.

Lemma contains_cons (c x : ascii) (s : string) :
  contains c (String x s) = false -> x <> c /\ contains c s = false.
Proof.
  unfold contains. cbn. intros H. apply orb_false_iff in H as [Hx Hs].
  split; [|exact Hs]. intros ->. by rewrite Ascii.eqb_refl in Hx.
Qed.

Lemma drop_chars_app (pre s : string) : drop_chars (String.length pre) (pre ++ s) = s.
Proof. induction pre as [|c pre IH]; simpl; [by destruct s | exact IH]. Qed.

Lemma slice_to_app (a b : string) : slice_to (String.length a) (a ++ b) = a.
Proof.
  induction a as [|c a IH]; simpl; [by destruct b | by rewrite IH].
Qed.

(** The middle of three pieces, by its indices. *)
Lemma slice_parts (pre mid post : string) (a b : Z) :
  a = Z.of_nat (String.length pre) ->
  b = Z.of_nat (String.length pre + String.length mid) ->
  slice (pre ++ mid ++ post) a b = mid.
Proof.
  intros -> ->. unfold slice. rewrite !string_length_app.
  destruct (Z.ltb_spec (Z.of_nat (String.length pre)) 0) as [Hneg|_]; [lia|].
  destruct (Z.ltb_spec (Z.of_nat (String.length pre + String.length mid)) 0) as [Hneg|_];
    [lia|].
  rewrite !Z.min_l by lia. rewrite Nat2Z.id.
  replace (Z.to_nat (Z.of_nat (String.length pre + String.length mid)
                     - Z.of_nat (String.length pre))) with (String.length mid) by lia.
  by rewrite drop_chars_app, slice_to_app.
Qed.

Lemma first_occurrence_hit (sub s : string) (i : nat) :
  String.prefix sub s = true -> first_occurrence sub s i = Some i.
Proof. intros H. destruct s; cbn [first_occurrence]; by rewrite H. Qed.

Lemma first_occurrence_miss (sub : string) (c : ascii) (s : string) (i : nat) :
  String.prefix sub (String c s) = false ->
  first_occurrence sub (String c s) i = first_occurrence sub s (S i).
Proof. intros H. cbn [first_occurrence]. by rewrite H. Qed.

Lemma first_occurrence_at (pre rest : string) (i : nat) :
  contains "a" pre = false ->
  first_occurrence "at " (pre ++ "at " ++ rest) i = Some (i + String.length pre).
Proof.
  revert i. induction pre as [|c pre IH]; intros i Hpre.
  - change ("" ++ "at " ++ rest)%string with ("at " ++ rest)%string.
    rewrite first_occurrence_hit by apply prefix_app. cbn. f_equal. lia.
  - apply contains_cons in Hpre as [Hc Hpre].
    change (first_occurrence "at " (String c (pre ++ "at " ++ rest)) i
            = Some (i + S (String.length pre))).
    rewrite first_occurrence_miss.
    + rewrite IH by exact Hpre. f_equal. lia.
    + cbn [String.prefix]. destruct (ascii_dec "a" c) as [Heq|_]; [congruence | reflexivity].
Qed.

Lemma first_occurrence_paren (pre rest : string) (i : nat) :
  contains "(" pre = false ->
  first_occurrence " (" (pre ++ " (" ++ rest) i = Some (i + String.length pre).
Proof.
  revert i. induction pre as [|c pre IH]; intros i Hpre.
  - change ("" ++ " (" ++ rest)%string with (" (" ++ rest)%string.
    rewrite first_occurrence_hit by apply prefix_app. cbn. f_equal. lia.
  - apply contains_cons in Hpre as [Hc Hpre].
    change (first_occurrence " (" (String c (pre ++ " (" ++ rest)) i
            = Some (i + S (String.length pre))).
    rewrite first_occurrence_miss.
    + rewrite IH by exact Hpre. f_equal. lia.
    + cbn [String.prefix]. destruct (ascii_dec " " c) as [_|_]; [|reflexivity].
      destruct pre as [|d pre].
      * change ("" ++ " (" ++ rest)%string with (String " " (String "(" rest)).
        cbn [String.prefix]. by destruct (ascii_dec "(" " ").
      * apply contains_cons in Hpre as [Hd _].
        change (String d pre ++ " (" ++ rest)%string
          with (String d (pre ++ " (" ++ rest))%string.
        cbn [String.prefix].
        destruct (ascii_dec "(" d) as [Heq|_]; [congruence | reflexivity].
Qed.

Lemma last_occurrence_beyond (sub s : string) (i limit : nat) :
  limit < i -> last_occurrence sub s i limit = None.
Proof.
  revert i. induction s as [|c s IH]; intros i Hlt; cbn [last_occurrence].
  - destruct (Nat.leb_spec i limit); [lia | reflexivity].
  - rewrite IH by lia. destruct (Nat.leb_spec i limit); [lia | reflexivity].
Qed.

Lemma last_occurrence_absent (c : ascii) (s rest : string) (i limit : nat) :
  contains c s = false ->
  (rest = "" \/ limit < i + String.length s) ->
  last_occurrence (String c "") (s ++ rest) i limit = None.
Proof.
  revert i. induction s as [|x s IH]; intros i Hs Hrest.
  - destruct Hrest as [->|Hlt].
    + cbn. by rewrite andb_false_r.
    + change ("" ++ rest)%string with rest. apply last_occurrence_beyond. cbn in Hlt. lia.
  - apply contains_cons in Hs as [Hx Hs].
    change (last_occurrence (String c "") (String x (s ++ rest)) i limit = None).
    cbn [last_occurrence String.prefix].
    rewrite IH; [|exact Hs|destruct Hrest as [->|Hlt]; [by left | right; cbn in Hlt; lia]].
    destruct (ascii_dec c x) as [Heq|_]; [congruence|]. by rewrite andb_false_r.
Qed.

(** The last occurrence of a character, when what follows it has none
    within the limit. *)
Lemma last_occurrence_char (c : ascii) (pre s rest : string) (i limit : nat) :
  contains c s = false ->
  (rest = "" \/ limit < i + String.length pre + 1 + String.length s) ->
  i + String.length pre <= limit ->
  last_occurrence (String c "") (pre ++ String c (s ++ rest)) i limit
  = Some (i + String.length pre).
Proof.
  revert i. induction pre as [|x pre IH]; intros i Hs Hrest Hle.
  - change ("" ++ String c (s ++ rest))%string with (String c (s ++ rest)).
    cbn [last_occurrence String.prefix].
    rewrite last_occurrence_absent;
      [|exact Hs|destruct Hrest as [->|Hlt]; [by left | right; cbn in Hlt; lia]].
    destruct (ascii_dec c c) as [_|Hne]; [|congruence].
    cbn in Hle. destruct (Nat.leb_spec i limit); [|lia].
    cbn. destruct (s ++ rest)%string; f_equal; lia.
  - change (last_occurrence (String c "") (String x (pre ++ String c (s ++ rest))) i limit
            = Some (i + S (String.length pre))).
    cbn [last_occurrence]. rewrite IH; [f_equal; lia|exact Hs| |cbn in Hle; lia].
    destruct Hrest as [->|Hlt]; [by left | right; cbn in Hlt; lia].
Qed.

Lemma string_of_uint_digits (d : Decimal.uint) :
  forallb is_digit (list_ascii_of_string (NilZero.string_of_uint d)) = true.
Proof.
  assert (H : forall u, forallb is_digit (list_ascii_of_string (NilEmpty.string_of_uint u))
                        = true).
  { induction u; cbn; try reflexivity; assumption. }
  destruct d; try reflexivity; apply (H (_ d)).
Qed.

Lemma digits_prefix_all (s : string) :
  forallb is_digit (list_ascii_of_string s) = true -> digits_prefix s = s.
Proof.
  induction s as [|c s IH]; cbn; [reflexivity|]. intros H.
  apply andb_true_iff in H as [Hc Hs]. by rewrite Hc, IH.
Qed.

Lemma digits_contain (c : ascii) (s : string) :
  is_digit c = false -> forallb is_digit (list_ascii_of_string s) = true ->
  contains c s = false.
Proof.
  intros Hc. unfold contains. induction s as [|x s IH]; cbn; [reflexivity|]. intros H.
  apply andb_true_iff in H as [Hx Hs]. rewrite IH by exact Hs.
  destruct (Ascii.eqb_spec c x) as [->|_]; [congruence | reflexivity].
Qed.

(** A printed natural number: digits only, read back by [parseInt]. *)
Lemma printed_nat (n : nat) :
  forallb is_digit (list_ascii_of_string (BigInt_toString (Z.of_nat n))) = true /\
  parseInt (BigInt_toString (Z.of_nat n)) = Some (Number_of_integer (Z.of_nat n)).
Proof.
  unfold BigInt_toString.
  assert (Hpos : exists d, Z.to_int (Z.of_nat n) = Decimal.Pos d /\ d <> Decimal.Nil).
  { destruct (to_int_not_nil (Z.of_nat n)) as [Hnil _].
    destruct (Z.to_int (Z.of_nat n)) as [d|d] eqn:Hd.
    - exists d. split; [reflexivity|]. intros ->. congruence.
    - exfalso. destruct (Z.of_nat n) eqn:Hz; cbn in Hd; try discriminate. lia. }
  destruct Hpos as (d & Hd & Hnil).
  pose proof (DecimalZ.of_to (Z.of_nat n)) as Hval. rewrite Hd in *.
  cbn [NilZero.string_of_int Z.of_int] in *.
  pose proof (string_of_uint_digits d) as Hdigits. split; [exact Hdigits|].
  unfold StackFrames.parseInt.
  assert (Hne : NilZero.string_of_uint d <> "").
  { intros Hempty. pose proof (NilZero.usu d Hnil) as Husu. rewrite Hempty in Husu.
    cbn in Husu. congruence. }
  destruct (NilZero.string_of_uint d) as [|c s] eqn:Hs; [congruence|].
  cbn in Hdigits. apply andb_true_iff in Hdigits as [Hc Hrest].
  assert (Htrim : trimStart (String c s) = String c s).
  { cbn [trimStart].
    destruct c as [[] [] [] [] [] [] [] []]; try discriminate; reflexivity. }
  rewrite Htrim.
  assert (Hsign : (if Ascii.eqb c "-" then true else Ascii.eqb c "+") = false).
  { destruct c as [[] [] [] [] [] [] [] []]; try discriminate; reflexivity. }
  assert (Hbody : match String c s with
                  | String "-" rest => (true, rest)
                  | String "+" rest => (false, rest)
                  | _ => (false, String c s)
                  end = (false, String c s)).
  { destruct c as [[] [] [] [] [] [] [] []]; try discriminate; reflexivity. }
  rewrite Hbody. rewrite digits_prefix_all by (cbn; by rewrite Hc, Hrest).
  rewrite <- Hs, (NilZero.usu d Hnil), Hs. cbn [String.eqb]. by rewrite Hval.
Qed.

Lemma drop_chars_0 (s : string) : drop_chars 0 s = s.
Proof. by destruct s. Qed.

Lemma of_nat_not_minus_one (n : nat) : (Z.of_nat n =? -1)%Z = false.
Proof. apply Z.eqb_neq. lia. Qed.

Lemma lastIndexOf_last (c : ascii) (pre s : string) :
  contains c s = false ->
  lastIndexOf (pre ++ String c s) (String c "") None = Z.of_nat (String.length pre).
Proof.
  intros Hs. unfold lastIndexOf.
  replace (pre ++ String c s)%string with (pre ++ String c (s ++ ""))%string
    by (by rewrite string_app_nil_r).
  rewrite last_occurrence_char; [reflexivity | exact Hs | by left |].
  rewrite string_length_app. lia.
Qed.

Lemma lastIndexOf_before (c : ascii) (pre s rest : string) (p : Z) :
  contains c s = false ->
  (Z.of_nat (String.length pre) <= p < Z.of_nat (String.length pre + 1 + String.length s))%Z ->
  lastIndexOf (pre ++ String c (s ++ rest)) (String c "") (Some p)
  = Z.of_nat (String.length pre).
Proof.
  intros Hs Hp. unfold lastIndexOf.
  rewrite last_occurrence_char; [reflexivity | exact Hs | right; lia | lia].
Qed.

(** X24. [fromStackFrame] reads a frame line of the form
    ["at fn (file:line:column)"] back into its parts: after an indentation
    without the letter [a], for a function name without an opening
    parenthesis and any file name (colons, as in a drive letter, and
    parentheses included), the result carries the file name with a leading
    ["file://"] removed, the function name with a leading ["async "]
    removed, and the line and column as numbers. The numbers are the
    printed ones as long as they are integers a double holds exactly, up
    to [2 ^ 53]; beyond that [parseInt] rounds. *)
Theorem fromStackFrame_reads_frame_line (indent fn file : string) (line column : nat)
  (parent : option CallerFrame) :
  contains "a" indent = false ->
  contains "(" fn = false ->
  (Z.of_nat line <= SAFE_LIMIT)%Z ->
  (Z.of_nat column <= SAFE_LIMIT)%Z ->
  fromStackFrame (frame_line indent fn file line column) parent
  = mkCaller (Some (cleanPath file))
      (Some (if startsWith fn "async " then slice fn 6 (Z.of_nat (String.length fn)) else fn))
      (Some (Z.of_nat line)) (Some (Z.of_nat column)) parent.
Proof.
  intros Hindent Hfn Hline_safe Hcolumn_safe. unfold frame_line.
  destruct (printed_nat line) as [HLd HLp]. destruct (printed_nat column) as [HCd HCp].
  set (L := BigInt_toString (Z.of_nat line)) in *.
  set (C := BigInt_toString (Z.of_nat column)) in *.
  assert (HLc : contains ":" L = false) by (by apply digits_contain).
  assert (HCc : contains ":" C = false) by (by apply digits_contain).
  set (path := (file ++ ":" ++ L ++ ":" ++ C)%string).
  set (frame := (indent ++ "at " ++ fn ++ " (" ++ file ++ ":" ++ L ++ ":" ++ C ++ ")")%string).
  set (ni := String.length indent). set (nf := String.length fn).
  assert (Hframe1 : frame = ((indent ++ "at ") ++ fn ++ " (" ++ path ++ ")")%string).
  { unfold frame, path. by rewrite !string_app_assoc. }
  assert (Hframe2 : frame = ((indent ++ "at " ++ fn ++ " (") ++ path ++ ")")%string).
  { unfold frame, path. by rewrite !string_app_assoc. }
  assert (Hlen1 : String.length (indent ++ "at ") = ni + 3).
  { rewrite string_length_app. reflexivity. }
  assert (Hlen2 : String.length (indent ++ "at " ++ fn ++ " (") = ni + 3 + nf + 2).
  { rewrite !string_length_app. cbn [String.length]. subst ni nf. lia. }
  assert (Hat : indexOf frame "at " 0 = Z.of_nat ni).
  { unfold indexOf. cbn [Z.to_nat]. rewrite drop_chars_0. unfold frame.
    rewrite first_occurrence_at by exact Hindent. reflexivity. }
  assert (Hparen : indexOf frame " (" (Z.of_nat ni + 3) = Z.of_nat (ni + 3 + nf)).
  { unfold indexOf. replace (Z.to_nat (Z.of_nat ni + 3)) with (ni + 3) by lia.
    rewrite Hframe1 at 1. rewrite <- Hlen1 at 1. rewrite drop_chars_app.
    rewrite first_occurrence_paren by exact Hfn. reflexivity. }
  assert (Hname : slice frame (Z.of_nat ni + 3) (Z.of_nat (ni + 3 + nf)) = fn).
  { rewrite Hframe1. apply slice_parts; rewrite Hlen1; subst nf; lia. }
  assert (Hclose : lastIndexOf frame ")" None
                   = Z.of_nat (ni + 3 + nf + 2 + String.length path)).
  { assert (Hshape : frame = ((indent ++ "at " ++ fn ++ " (" ++ path) ++ String ")" "")%string).
    { unfold frame, path. by rewrite !string_app_assoc. }
    rewrite Hshape, lastIndexOf_last by reflexivity.
    f_equal. rewrite <- Hlen2, <- string_length_app. f_equal. by rewrite !string_app_assoc. }
  assert (Hpath : slice frame (Z.of_nat (ni + 3 + nf) + 2)
                    (Z.of_nat (ni + 3 + nf + 2 + String.length path)) = path).
  { rewrite Hframe2. apply slice_parts; rewrite Hlen2; lia. }
  assert (Hlast : lastIndexOf path ":" None
                  = Z.of_nat (String.length file + 1 + String.length L)).
  { assert (Hshape : path = ((file ++ ":" ++ L) ++ String ":" C)%string).
    { unfold path. by rewrite !string_app_assoc. }
    rewrite Hshape, lastIndexOf_last by exact HCc.
    f_equal. rewrite !string_length_app. cbn [String.length]. lia. }
  assert (Hsecond : lastIndexOf path ":"
                      (Some (Z.of_nat (String.length file + 1 + String.length L) - 1)%Z)
                    = Z.of_nat (String.length file)).
  { change path with (file ++ String ":" (L ++ ":" ++ C))%string.
    apply lastIndexOf_before; [exact HLc | lia]. }
  assert (Hfile : slice path 0 (Z.of_nat (String.length file)) = file).
  { change path with ("" ++ file ++ ":" ++ L ++ ":" ++ C)%string.
    apply slice_parts; reflexivity. }
  assert (Hline : slice path (Z.of_nat (String.length file) + 1)
                    (Z.of_nat (String.length file + 1 + String.length L)) = L).
  { assert (Hshape : path = ((file ++ ":") ++ L ++ ":" ++ C)%string).
    { unfold path. by rewrite !string_app_assoc. }
    rewrite Hshape. apply slice_parts; rewrite string_length_app; cbn [String.length]; lia. }
  assert (Hcolumn : slice path (Z.of_nat (String.length file + 1 + String.length L) + 1)
                      (Z.of_nat (String.length path)) = C).
  { assert (Hshape : path = ((file ++ ":" ++ L ++ ":") ++ C ++ "")%string).
    { unfold path. by rewrite string_app_nil_r, !string_app_assoc. }
    rewrite Hshape at 1. apply slice_parts.
    - rewrite !string_length_app. cbn [String.length]. lia.
    - unfold path. rewrite !string_length_app. cbn [String.length]. lia. }
  unfold StackFrames.fromStackFrame. fold frame. rewrite Hat, of_nat_not_minus_one.
  cbv zeta. rewrite Hparen, of_nat_not_minus_one. cbn [negb].
  rewrite Hname, Hclose, Hpath, Hlast, of_nat_not_minus_one, Hsecond, of_nat_not_minus_one.
  rewrite Hfile, Hline, Hcolumn, HLp, HCp.
  rewrite !safe_integers_exact by lia. reflexivity.
Qed.

End StackFrameProperties.

Lemma nearest_double_safe (z : Z) :
  (Z.abs z <= StackFrames.SAFE_LIMIT)%Z -> StackFrames.nearest_double z = z.
Proof.
  intros Hz. unfold StackFrames.nearest_double.
  destruct (Z.leb_spec (Z.abs z) StackFrames.SAFE_LIMIT); [reflexivity | lia].
Qed.

Lemma fromStackFrame_reads_frame_line_witness :
  StackFrames.fromStackFrame StackFrames.nearest_double
    "    at async handleOrder (file:///C:/src/handler.ts:10:5)" None
  = Caller.mkCaller (Some "/C:/src/handler.ts") (Some "handleOrder") (Some 10%Z) (Some 5%Z)
      None.
Proof.
  apply (fromStackFrame_reads_frame_line StackFrames.nearest_double nearest_double_safe
           "    " "async handleOrder" "file:///C:/src/handler.ts" 10 5 None eq_refl eq_refl).
  - vm_compute. discriminate.
  - vm_compute. discriminate.
Defined.



(* ===================================================================== *)
(** * Properties of the structured logger                                 *)
(* ===================================================================== *)

Section LoggingProperties.
Import JsObject SpanEngine Exporter Logs Logging.

Variable Number : Type.
Variable Date : Type.
Variable Other : Type.
Variable LogHandler : Type.

Local Abbreviation Attrs := (props (value Number Date Other)).


End LoggingProperties.



(* ===================================================================== *)
(** * Properties of running a handler under a span                        *)
(* ===================================================================== *)

Section HandlerProperties.
Import JsObject SpanEngine Handlers.

Variable message_of : N -> option string.
Variable nullish : N -> bool.
Variable property_read_error : Thrown.
Variable logger_error : Thrown -> Completion unit.

Local Abbreviation log_unhandled :=
  (Handlers.log_unhandled message_of nullish property_read_error logger_error).
Local Abbreviation reaction :=
  (runWithSpan_reaction message_of nullish property_read_error logger_error).
Local Abbreviation outcome :=
  (runWithSpan_outcome message_of nullish property_read_error logger_error).
Local Abbreviation callback :=
  (runWithSpan_callback message_of nullish property_read_error logger_error).

(** When the error has been logged, its message can be read. *)
Lemma logged_message (e : Thrown) (v : unit) :
  log_unhandled e = Normal v ->
  read_message message_of nullish property_read_error e = Normal (error_message message_of e).
Proof.
  unfold Handlers.log_unhandled, read_message.
  destruct e as [s|n m st|tag]; try reflexivity.
  destruct (nullish tag); [discriminate | reflexivity].
Qed.

Lemma settle_and_end_runWithSpan {T} (u : UserFn T) (sp : Span) (w : World) :
  settle_and_end (callback (on_active_span u)) sp (Some sp) w
  = (apply_ops sp (tracer_reaction (outcome (fn_completion u)))
       (apply_ops sp (reaction (fn_completion u)) (apply_ops sp (fn_ops u) w)),
     outcome (fn_completion u)).
Proof.
  unfold settle_and_end, runWithSpan_callback, try_catch, bind, on_active_span,
    log_and_rethrow, record_and_rethrow, getSpan, promise_then, promise_catch, lift, ret,
    throw, call, runWithSpan_reaction, runWithSpan_outcome.
  destruct (fn_completion u) as [[v|[v|e]]|e]; cbn [failure_of]; try reflexivity;
    destruct (log_unhandled e) as [[]|e'] eqn:Hlog; try reflexivity;
    rewrite (logged_message e tt Hlog); reflexivity.
Qed.

(** X26. A handler that fails under [runWithSpan]. When the handler throws
    or its promise rejects, and has not ended the span itself, the wrapper
    first logs the error. When that goes through, it records the exception
    once, sets the status to [ERROR] with the error's message, and ends the
    span; the same failure is handed on, and the reaction of
    [startActiveSpan] that follows finds the span ended, so the message
    stays and the exception is not recorded twice. When logging itself
    throws, as it does for a thrown [null] or [undefined], whose [message]
    cannot be read, the wrapper has not touched the span and it is that
    second error which is handed on, the same way; [startActiveSpan]
    records it and sets the status to [ERROR] without a message. Either
    way the span is ended and reaches the processor once. *)
Theorem runWithSpan_failure_keeps_message {T : Type} (u : UserFn T) (e : Thrown)
  (name : string) (kind : SpanKind) (parentSpanContext : option SpanContext)
  (active : Context) (w : World) :
  failure_of (fn_completion u) = Some e ->
  existsb is_end (fn_ops u) = false ->
  let parentContext :=
    match parentSpanContext with
    | Some sc => setSpan active (wrapSpanContext sc)
    | None => active
    end in
  let created :=
    startSpan name (Some (mkSpanOptions (Some kind) None None None)) None parentContext w in
  let r := List.length (heap w) in
  let w2 := apply_ops (Recording r) (fn_ops u) (snd created) in
  let out :=
    runWithSpan message_of nullish property_read_error logger_error name kind
      parentSpanContext (on_active_span u) active w in
  (forall tag, e = ThrownOther tag -> nullish tag = true ->
     log_unhandled e = Throw property_read_error) /\
  activeSpanProcessor (fst out) = (fun l => l ++ [r]) <$> activeSpanProcessor w /\
  exists this2 this3 t,
    heap w2 !! r = Some this2 /\
    heap (fst out) !! r = Some this3 /\
    _ended this3 = true /\
    _kind this3 = kind /\
    match log_unhandled e with
    | Normal _ =>
        snd out = fn_completion u /\
        _status this3 = mkStatus ERROR (error_message message_of e) /\
        _events this3
        = _events this2 ++ [mkEvent "exception" t (Some (exception_attributes e))]
    | Throw e' =>
        snd out = match fn_completion u with
                  | Throw _ => Throw e'
                  | _ => Normal (Promise (Rejected e'))
                  end /\
        _status this3 = mkStatus ERROR None /\
        _events this3
        = _events this2 ++ [mkEvent "exception" t (Some (exception_attributes e'))]
    end.
Proof.
  intros Hfail Hlive parentContext created r w2 out. subst created w2 out.
  split.
  { intros tag -> Hnull. unfold Handlers.log_unhandled, read_message. by rewrite Hnull. }
  unfold runWithSpan, context_with. fold parentContext.
  set (options := Some (mkSpanOptions (Some kind) None None None)).
  rewrite startActiveSpan_runs_callback.
  destruct (startSpan_fresh name options None parentContext w)
    as (this0 & Hsp & H0 & E0 & _ & _ & P0).
  assert (Hkind : _kind this0 = kind).
  { revert H0. unfold startSpan, getSpan, generateTraceId, generateSpanId, getRandomValues,
      new_CloudflareSpan.
    destruct (default parentContext None ≫= spanContext w) as [psc|];
      cbn [entropy entropy_pos heap options]; cbn;
      rewrite list_lookup_middle by reflexivity; by intros [= <-]. }
  rewrite Hsp. fold r. fold r in H0.
  set (w1 := snd (startSpan name options None parentContext w)) in *.
  rewrite settle_and_end_runWithSpan. cbn [fst snd].
  destruct (ops_spec r (fn_ops u) w1 this0 H0) as (this2 & H2 & _ & E2 & P2 & _ & _ & K2 & _).
  rewrite E0, Hlive in E2, P2. cbn in E2, P2.
  set (w2 := apply_ops (Recording r) (fn_ops u) w1) in *.
  assert (Hout : outcome (fn_completion u)
                 = match log_unhandled e with
                   | Normal _ => fn_completion u
                   | Throw e' => match fn_completion u return Completion (Returned T) with
                                 | Throw _ => Throw e'
                                 | _ => Normal (Promise (Rejected e'))
                                 end
                   end).
  { unfold runWithSpan_outcome.
    destruct (fn_completion u) as [[v|[v|e0]]|e0]; cbn in Hfail; try discriminate;
      injection Hfail as ->; by destruct (log_unhandled e). }
  rewrite Hout. unfold runWithSpan_reaction. rewrite Hfail.
  destruct (log_unhandled e) as [[]|e'] eqn:Hlog.
  - set (mine := [OpRecordException e None;
                  OpSetStatus (mkStatus ERROR (error_message message_of e)); OpEnd None]).
    pose proof (recordException_exact r this2 e w2 H2 E2) as H3.
    pose proof (setStatus_exact r _ (mkStatus ERROR (error_message message_of e)) _ H3 E2)
      as H4.
    pose proof (span_end_exact r _ _ H4 E2) as H5.
    change (span_end (Recording r) None
              (setStatus (Recording r) (mkStatus ERROR (error_message message_of e))
                 (recordException (Recording r) e None w2)))
      with (apply_ops (Recording r) mine w2) in H5.
    destruct (ops_spec r mine w2 this2 H2) as (this3 & H3' & _ & _ & P3 & _).
    rewrite E2 in P3. change (existsb is_end mine) with true in P3. cbn [negb andb] in P3.
    rewrite H5 in H3'. injection H3' as <-.
    rewrite (ended_ops_noop r _ (tracer_reaction (fn_completion u)) _ H5 eq_refl).
    split; [by rewrite P3, P2, P0|].
    eexists this2, _, _. split; [exact H2|]. split; [exact H5|].
    cbn. repeat split. by rewrite K2.
  - change (apply_ops (Recording r) [] w2) with w2.
    assert (Hreact : tracer_reaction (match fn_completion u return Completion (Returned T) with
                                      | Throw _ => Throw e'
                                      | _ => Normal (Promise (Rejected e'))
                                      end)
                     = [OpRecordException e' None; OpSetStatus (mkStatus ERROR None);
                        OpEnd None]).
    { destruct (fn_completion u) as [[v|[v|e0]]|e0]; reflexivity. }
    rewrite Hreact.
    set (theirs := [OpRecordException e' None; OpSetStatus (mkStatus ERROR None); OpEnd None]).
    destruct (tracer_failure_recording r this2 e' w2 H2 E2) as (this3 & t & H3 & E3 & S3 & V3).
    fold theirs in H3.
    destruct (ops_spec r theirs w2 this2 H2) as (this3' & H3' & _ & _ & P3 & _ & _ & K3 & _).
    rewrite E2 in P3. change (existsb is_end theirs) with true in P3. cbn [negb andb] in P3.
    assert (this3' = this3) by congruence. subst this3'.
    split; [by rewrite P3, P2, P0|].
    exists this2, this3, t. split; [exact H2|]. split; [exact H3|]. split; [exact E3|].
    split; [by rewrite K3, K2|]. split; [reflexivity|]. split; [exact S3 | exact V3].
Qed.

End HandlerProperties.

Lemma runWithSpan_failure_keeps_message_witness :
  let u : SpanEngine.UserFn unit :=
    SpanEngine.mkUserFn [SpanEngine.OpSetAttribute "step" (SpanEngine.AString "charge")]
      (Effects.Normal (Effects.Promise (Effects.Rejected SpanEngine.sample_error))) in
  let out :=
    Handlers.runWithSpan (fun _ => None) (N.eqb 0) Handlers.null_read_error
      Handlers.quiet_logger "fetch" SpanEngine.SERVER None
      (Handlers.on_active_span u) SpanEngine.ROOT_CONTEXT SpanEngine.sample_world in
  exists this3,
    SpanEngine.heap (fst out) !! 0 = Some this3 /\
    SpanEngine._ended this3 = true /\
    SpanEngine._status this3 = SpanEngine.mkStatus SpanEngine.ERROR (Some "bad input").
Proof.
  intros u out.
  destruct (runWithSpan_failure_keeps_message (fun _ => None) (N.eqb 0)
              Handlers.null_read_error Handlers.quiet_logger u SpanEngine.sample_error
              "fetch" SpanEngine.SERVER None SpanEngine.ROOT_CONTEXT SpanEngine.sample_world
              eq_refl eq_refl)
    as (_ & _ & this2 & this3 & t & _ & H3 & E3 & _ & _ & S3 & _).
  exists this3. split; [exact H3|]. split; [exact E3 | exact S3].
Defined.

(** [throw null] in a handler: the caller of [runWithSpan] gets the
    [TypeError] of the failed read of [message], and that is what the span
    records. *)
Example runWithSpan_thrown_null :
  snd (Handlers.runWithSpan (fun _ => None) (N.eqb 0) Handlers.null_read_error
         Handlers.quiet_logger "fetch" SpanEngine.SERVER None
         (Handlers.on_active_span
            (SpanEngine.mkUserFn (T:=unit) [] (Effects.Throw Handlers.thrown_null)))
         SpanEngine.ROOT_CONTEXT SpanEngine.sample_world)
  = Effects.Throw Handlers.null_read_error /\
  (fun this => (SpanEngine._status this,
                List.map SpanEngine.ev_attributes (SpanEngine._events this)))
    <$> SpanEngine.heap
          (fst (Handlers.runWithSpan (fun _ => None) (N.eqb 0) Handlers.null_read_error
                  Handlers.quiet_logger "fetch" SpanEngine.SERVER None
                  (Handlers.on_active_span
                     (SpanEngine.mkUserFn (T:=unit) [] (Effects.Throw Handlers.thrown_null)))
                  SpanEngine.ROOT_CONTEXT SpanEngine.sample_world)) !! 0
  = Some (SpanEngine.mkStatus SpanEngine.ERROR None,
          [Some (SpanEngine.exception_attributes Handlers.null_read_error)]).
Proof. split; vm_compute; reflexivity. Qed.


(* ===================================================================== *)
(** * Properties of span export requests                                  *)
(* ===================================================================== *)

Section TraceExportProperties.
Import JsObject SpanEngine Exporter Timestamps Lifecycle TraceExport.

Variable Number_toString : Q -> string.
Variable Date : Type.
Variable toISOString : Date -> string.
Variable Other : Type.
Variable String_of : Other -> string.
Variable JSON_stringify : value Q Date Other -> string.

Local Abbreviation spanToOTLP' :=
  (spanToOTLP Number_toString Date toISOString Other String_of JSON_stringify).
Local Abbreviation map_spanToOTLP' :=
  (map_spanToOTLP Number_toString Date toISOString Other String_of JSON_stringify).
Local Abbreviation buildTraceExportRequest' :=
  (buildTraceExportRequest Number_toString Date toISOString Other String_of JSON_stringify).

(** Spans that have an end time are converted without reading the
    clock. *)
Lemma map_spanToOTLP_ended (exported : list CloudflareSpan) (w : World) :
  Forall (fun s => is_Some (_endTime s)) exported ->
  map_spanToOTLP' exported w = (List.map (fun s => fst (spanToOTLP' s w)) exported, w).
Proof.
  induction 1 as [|s rest [t Ht] _ IH]; [reflexivity|].
  cbn [map_spanToOTLP List.map].
  destruct (spanToOTLP' s w) as [o w1] eqn:Hs.
  assert (w1 = w) by (unfold spanToOTLP in Hs; rewrite Ht in Hs; by injection Hs).
  subst w1. by rewrite IH.
Qed.

Lemma omap_total {A B : Type} (f : A -> option B) (l : list A) :
  (forall x, x ∈ l -> is_Some (f x)) ->
  List.length (omap f l) = List.length l /\
  forall i x, l !! i = Some x -> omap f l !! i = f x.
Proof.
  induction l as [|a l IH]; intros Hall; [split; [reflexivity | intros i x; discriminate]|].
  destruct (Hall a ltac:(left)) as [b Hb].
  destruct IH as [Hlen Hlook]; [intros x Hx; apply Hall; by right|].
  cbn [omap list_omap]. rewrite Hb. split; [cbn; by rewrite Hlen|].
  intros [|i] x Hi; cbn in *; [by injection Hi as <- | by apply Hlook].
Qed.

(** X27. The export request for the collected spans. While the buffer of
    the processor holds only ended spans with their end time set (the
    invariant of X6), building the request converts every buffered span, in
    buffer order, and never reads the clock: each converted span carries
    the ids, kind and status code of its span, its start time, and its own
    end time, not the time of the export. *)
Theorem collected_spans_export_without_clock (serviceName : string)
  (resourceAttributes : option (props string)) (version : option string) (w : World) :
  collected_are_ended w ->
  exists attrs converted,
    buildTraceExportRequest' (getSpans w) serviceName resourceAttributes version w
    = ([mkResourceSpans attrs
          [mkScopeSpans "otel-cloudflare" (default "5.3.0" version) converted]], w) /\
    List.length converted = List.length (default [] (getSpanProcessor w)) /\
    forall i r, default [] (getSpanProcessor w) !! i = Some r ->
      exists this t o,
        heap w !! r = Some this /\ _endTime this = Some t /\
        converted !! i = Some o /\
        otlp_traceId o = sc_traceId (_spanContext this) /\
        otlp_spanId o = sc_spanId (_spanContext this) /\
        otlp_parentSpanId o = _parentSpanId this /\
        otlp_kind o = spanKindToOTLP (_kind this) /\
        startTimeUnixNano o = msToNanoString (_startTime this) /\
        endTimeUnixNano o = msToNanoString t /\
        status_code (otlp_status o) = statusCodeToOTLP (code (_status this)).
Proof.
  intros Hinv.
  set (refs := default [] (getSpanProcessor w)).
  assert (Hrefs : forall r, r ∈ refs ->
             exists this, heap w !! r = Some this /\ _ended this = true /\
                          is_Some (_endTime this)).
  { subst refs. destruct (getSpanProcessor w) as [l|] eqn:Hp.
    - intros r Hr. by apply (proj2 (Hinv l Hp)).
    - intros r Hr. by apply elem_of_nil in Hr. }
  destruct (omap_total (fun r => heap w !! r) refs) as [Hlen Hlook].
  { intros r Hr. destruct (Hrefs r Hr) as (this & Hthis & _). by exists this. }
  assert (Hended : Forall (fun s => is_Some (_endTime s)) (getSpans w)).
  { unfold getSpans. fold refs. apply Forall_forall. intros s Hs.
    apply list_elem_of_omap in Hs as (r & Hr & Hs).
    destruct (Hrefs r Hr) as (this & Hthis & _ & Ht). congruence. }
  unfold buildTraceExportRequest. rewrite (map_spanToOTLP_ended _ w Hended).
  eexists _, _. split; [reflexivity|]. split.
  { rewrite length_map. unfold getSpans. fold refs. exact Hlen. }
  intros i r Hi.
  destruct (Hrefs r (list_elem_of_lookup_2 _ _ _ Hi)) as (this & Hthis & _ & [t Ht]).
  exists this, t. eexists. split; [exact Hthis|]. split; [exact Ht|].
  split.
  { rewrite list_lookup_fmap. unfold getSpans. fold refs.
    rewrite (Hlook i r Hi), Hthis. reflexivity. }
  unfold spanToOTLP. rewrite Ht. cbn. repeat split.
Qed.

End TraceExportProperties.

Lemma collected_spans_export_without_clock_witness :
  let w :=
    SpanEngine.apply_ops (SpanEngine.Recording 0) [SpanEngine.OpEnd None]
      Propagation.world_with_span in
  exists attrs converted,
    TraceExport.buildTraceExportRequest (fun _ => "") unit (fun _ => "") unit (fun _ => "")
      (fun _ => "") (TraceExport.getSpans w) "checkout" None None w
    = ([TraceExport.mkResourceSpans attrs
          [TraceExport.mkScopeSpans "otel-cloudflare" "5.3.0" converted]], w) /\
    List.length converted = 1.
Proof.
  intros w.
  destruct (collected_spans_export_without_clock (fun _ => "") unit (fun _ => "") unit
              (fun _ => "") (fun _ => "") "checkout" None None w)
    as (attrs & converted & H & Hlen & _).
  - apply ops_keep_collected. unfold Propagation.world_with_span.
    apply startSpan_keeps_collected.
    intros buffered [= <-]. split; [apply NoDup_nil_2|].
    intros r Hr. by apply elem_of_nil in Hr.
  - exists attrs, converted. split; [exact H | exact Hlen].
Defined.


(* ===================================================================== *)
(** * Properties of the exporter configuration                            *)
(* ===================================================================== *)

Section ConfigurationProperties.
Import JsObject Environment Exporter Configuration.
Local Arguments String.append !s1 s2 /.

Variable btoa : string -> string.

Lemma until_line_end_all (v : string) :
  existsb is_line_terminator (list_ascii_of_string v) = false -> until_line_end v = v.
Proof.
  induction v as [|c v IH]; cbn; [reflexivity|]. intros H.
  apply orb_false_iff in H as [Hc Hv]. by rewrite Hc, IH.
Qed.

Lemma match_Authorization_exact (v : string) :
  v <> "" -> existsb is_line_terminator (list_ascii_of_string v) = false ->
  match_Authorization ("Authorization=" ++ v) = Some v.
Proof.
  intros Hne Hv. simpl. rewrite until_line_end_all by exact Hv.
  destruct (String.eqb_spec v "") as [->|_]; [congruence | reflexivity].
Qed.

(** X28. Where the exporter configuration comes from. [disableExport]
    turns the export off whatever else is given. An explicit [exporter] is
    used as it is, the environment is not consulted, and its own service
    name wins over the options' name. Otherwise the environment decides:
    without an endpoint there is no configuration; with an endpoint and
    [OTEL_EXPORTER_OTLP_HEADERS] of the form [Authorization=value], the
    value (one line, not empty) is the Authorization header verbatim,
    Grafana credentials are not used, one trailing slash of the endpoint is
    removed, and a non-empty service name of the options replaces the one
    from the environment. *)
Theorem exporter_config_resolution (opts : InstrumentOptionsObject) (env : Env) :
  (disableExport opts = Some true -> getExporterConfig btoa opts env = None) /\
  (default false (disableExport opts) = false ->
   forall given, exporter opts = Some given ->
     getExporterConfig btoa opts env
     = Some (mkConfig (endpoint given) (headers given)
               (match serviceName given with
                | Some name => Some name
                | None => opts_serviceName opts
                end)
               (resourceAttributes given))) /\
  (truthy (OTEL_EXPORTER_OTLP_ENDPOINT env) = false ->
   getOTLPConfigFromEnv btoa env = None) /\
  (forall e v,
     OTEL_EXPORTER_OTLP_ENDPOINT env = Some e -> e <> "" ->
     OTEL_EXPORTER_OTLP_HEADERS env = Some ("Authorization=" ++ v)%string ->
     v <> "" -> existsb is_line_terminator (list_ascii_of_string v) = false ->
     getOTLPConfigFromEnv btoa env
     = Some (mkConfig (strip_trailing_slash e) [("Authorization", v)]
               (OTEL_SERVICE_NAME env)
               (Some (parseResourceAttributes (OTEL_RESOURCE_ATTRIBUTES env)))) /\
     (default false (disableExport opts) = false -> exporter opts = None ->
      exists config,
        getExporterConfig btoa opts env = Some config /\
        endpoint config = strip_trailing_slash e /\
        obj_get "Authorization" (headers config) = Some v /\
        serviceName config
        = if truthy (opts_serviceName opts) then opts_serviceName opts
          else OTEL_SERVICE_NAME env)).
Proof.
  split; [|split; [|split]].
  - intros H. unfold getExporterConfig. by rewrite H.
  - intros Hon given Hgiven. unfold getExporterConfig. by rewrite Hon, Hgiven.
  - unfold getOTLPConfigFromEnv, truthy.
    destruct (OTEL_EXPORTER_OTLP_ENDPOINT env) as [e|]; [|reflexivity].
    destruct (String.eqb e ""); [reflexivity | discriminate].
  - intros e v He Hne Hh Hv Hline.
    assert (Henv : getOTLPConfigFromEnv btoa env
                   = Some (mkConfig (strip_trailing_slash e) [("Authorization", v)]
                             (OTEL_SERVICE_NAME env)
                             (Some (parseResourceAttributes (OTEL_RESOURCE_ATTRIBUTES env))))).
    { unfold getOTLPConfigFromEnv. rewrite He, Hh.
      destruct (String.eqb_spec e "") as [->|_]; [congruence|].
      change (String.eqb ("Authorization=" ++ v) "") with false. cbv iota.
      rewrite match_Authorization_exact by assumption.
      unfold truthy. destruct (String.eqb_spec v "") as [->|_]; [congruence|].
      cbn [negb]. destruct (String.eqb_spec v "") as [->|_]; [congruence|].
      reflexivity. }
    split; [exact Henv|].
    intros Hon Hnone. unfold getExporterConfig. rewrite Hon, Hnone, Henv.
    destruct (truthy (opts_serviceName opts)); eexists; repeat split.
Qed.

End ConfigurationProperties.


(* ===================================================================== *)
(** * Properties of deterministic workflow keys                           *)
(* ===================================================================== *)

Section WorkflowKeyProperties.
Import JsObject Exporter WorkflowKeys.

Variable Number : Type.
Variable Date : Type.
Variable toISOString : Date -> string.
Variable Other : Type.
Variable JSON_stringify : value Number Date Other -> string.

Local Abbreviation Value := (value Number Date Other).
Local Abbreviation sortObjectKeys' := (sortObjectKeys Number Date toISOString Other).

Lemma compare_lt_trans (a : string) :
  forall b c, String.compare a b = Lt -> String.compare b c = Lt -> String.compare a c = Lt.
Proof.
  induction a as [|x a IH]; intros [|y b] [|z c]; cbn; try discriminate; try reflexivity.
  unfold Ascii.compare.
  destruct (N.compare_spec (N_of_ascii x) (N_of_ascii y)) as [Hxy|Hxy|Hxy]; try discriminate;
    destruct (N.compare_spec (N_of_ascii y) (N_of_ascii z)) as [Hyz|Hyz|Hyz];
    try discriminate; intros H1 H2.
  - rewrite Hxy, Hyz, N.compare_refl. by apply (IH b c).
  - assert (H : (N_of_ascii x ?= N_of_ascii z)%N = Lt) by (apply N.compare_lt_iff; lia).
    by rewrite H.
  - assert (H : (N_of_ascii x ?= N_of_ascii z)%N = Lt) by (apply N.compare_lt_iff; lia).
    by rewrite H.
  - assert (H : (N_of_ascii x ?= N_of_ascii z)%N = Lt) by (apply N.compare_lt_iff; lia).
    by rewrite H.
Qed.

Lemma compare_refl (a : string) : String.compare a a = Eq.
Proof.
  induction a as [|x a IH]; cbn; [reflexivity|].
  unfold Ascii.compare. by rewrite N.compare_refl.
Qed.

#[local] Instance string_le_trans : Transitive string_le.
Proof.
  intros a b c. unfold string_le, String.leb.
  destruct (String.compare a b) eqn:Hab; try discriminate;
    destruct (String.compare b c) eqn:Hbc; try discriminate; intros _ _.
  - apply String.compare_eq_iff in Hab, Hbc. subst. by rewrite compare_refl.
  - apply String.compare_eq_iff in Hab. subst. by rewrite Hbc.
  - apply String.compare_eq_iff in Hbc. subst. by rewrite Hab.
  - by rewrite (compare_lt_trans a b c Hab Hbc).
Qed.

#[local] Instance string_le_total : Total string_le.
Proof. intros a b. apply String.leb_total. Qed.

#[local] Instance string_le_antisym : AntiSymm eq string_le.
Proof. intros a b. apply String.leb_antisym. Qed.

(** Sorting forgets the order the keys came in. *)
Lemma sorted_keys_perm (k1 k2 : list string) :
  k1 ≡ₚ k2 -> merge_sort string_le k1 = merge_sort string_le k2.
Proof.
  intros Hperm. apply (Sorted_unique string_le).
  - apply Sorted_merge_sort, _.
  - apply Sorted_merge_sort, _.
  - by rewrite !merge_sort_Permutation.
Qed.

(** Reading a key does not depend on the order of the entries. *)
Lemma obj_get_perm {A : Type} (q : string) (o1 o2 : props A) :
  NoDup (List.map fst o1) -> o1 ≡ₚ o2 -> obj_get q o1 = obj_get q o2.
Proof.
  intros Hnd Hperm.
  assert (Hnd2 : NoDup (List.map fst o2)) by (by rewrite <- Hperm).
  destruct (obj_get q o1) as [v|] eqn:H1.
  - symmetry. apply (obj_get_In q v o2 Hnd2).
    apply list_elem_of_In. rewrite <- Hperm. apply list_elem_of_In.
    by apply (obj_get_In q v o1 Hnd).
  - destruct (obj_get q o2) as [v|] eqn:H2; [|reflexivity].
    apply (obj_get_In q v o2 Hnd2) in H2.
    apply list_elem_of_In in H2. rewrite <- Hperm in H2. apply list_elem_of_In in H2.
    apply (obj_get_In q v o1 Hnd) in H2. congruence.
Qed.

Lemma sorted_values_map (entries : list (string * Value)) :
  (fix each (es : list (string * Value)) : list (string * Value) :=
     match es with
     | [] => []
     | (key, v) :: rest => (key, sortObjectKeys' v) :: each rest
     end) entries
  = List.map (fun kv => (fst kv, sortObjectKeys' (snd kv))) entries.
Proof. induction entries as [|[k v] rest IH]; [reflexivity|]. cbn. by rewrite IH. Qed.

(** X29. [generateDeterministicKey] does not depend on the order in which
    the properties of its argument were created: two objects with the same
    entries in different orders give the same key. *)
Theorem deterministic_key_ignores_property_order (e1 e2 : list (string * Value)) :
  NoDup (List.map fst e1) -> e1 ≡ₚ e2 ->
  generateDeterministicKey Number Date toISOString Other JSON_stringify (VObject e1)
  = generateDeterministicKey Number Date toISOString Other JSON_stringify (VObject e2).
Proof.
  intros Hnd Hperm. unfold generateDeterministicKey. f_equal.
  cbn [sortObjectKeys List.map]. f_equal. f_equal. f_equal.
  rewrite !sorted_values_map.
  rewrite (sorted_keys_perm (List.map fst e1) (List.map fst e2)) by (by rewrite Hperm).
  set (m1 := List.map (fun kv => (fst kv, sortObjectKeys' (snd kv))) e1).
  set (m2 := List.map (fun kv => (fst kv, sortObjectKeys' (snd kv))) e2).
  assert (Hm : forall q, obj_get q m1 = obj_get q m2).
  { intros q. apply obj_get_perm.
    - subst m1. rewrite List.map_map. cbn. exact Hnd.
    - subst m1 m2. by rewrite Hperm. }
  generalize (merge_sort string_le (List.map fst e2)).
  generalize (@nil (string * Value)).
  intros acc keys. revert acc. induction keys as [|k keys IH]; intros acc; [reflexivity|].
  cbn [List.fold_left]. rewrite Hm. apply IH.
Qed.

End WorkflowKeyProperties.

Lemma deterministic_key_ignores_property_order_witness :
  WorkflowKeys.generateDeterministicKey nat unit (fun _ => "") unit (fun _ => "")
    (Exporter.VObject [("b", Exporter.VNumber 1); ("a", Exporter.VString "x")])
  = WorkflowKeys.generateDeterministicKey nat unit (fun _ => "") unit (fun _ => "")
      (Exporter.VObject [("a", Exporter.VString "x"); ("b", Exporter.VNumber 1)]).
Proof.
  apply (deterministic_key_ignores_property_order nat unit (fun _ => "") unit (fun _ => "")).
  - apply (bool_decide_unpack _). vm_compute. reflexivity.
  - apply perm_swap.
Defined.


(* ===================================================================== *)
(** * Properties of patching the global fetch                             *)
(* ===================================================================== *)

Section FetchPatchProperties.
Import FetchPatch.

(** X30. The exporter never goes through the traced fetch. Starting from
    an unpatched global fetch, after any sequence of [patchGlobalFetch]
    and [unpatchGlobalFetch] calls the transport the exporter picks is the
    fetch that was there at the start, and the global fetch is either that
    fetch or a single traced wrapper around it, never a wrapper around a
    wrapper. Patching twice is patching once, and unpatching after
    patching restores the start. *)
Theorem exporter_uses_the_original_fetch (f : Fetch) (calls : list Call) :
  let g := run calls (mkGlobals f None) in
  fetchFn g = f /\
  (globalThis_fetch g = f /\ originalFetch g = None \/
   globalThis_fetch g = Traced f /\ originalFetch g = Some f) /\
  patchGlobalFetch (patchGlobalFetch g) = patchGlobalFetch g /\
  unpatchGlobalFetch (patchGlobalFetch g) = unpatchGlobalFetch g /\
  unpatchGlobalFetch (patchGlobalFetch (mkGlobals f None)) = mkGlobals f None.
Proof.
  intros g.
  assert (Hstep : forall calls g0,
             (globalThis_fetch g0 = f /\ originalFetch g0 = None \/
              globalThis_fetch g0 = Traced f /\ originalFetch g0 = Some f) ->
             globalThis_fetch (run calls g0) = f /\ originalFetch (run calls g0) = None \/
             globalThis_fetch (run calls g0) = Traced f /\
             originalFetch (run calls g0) = Some f).
  { clear g calls. induction calls as [|call calls IH]; intros g0 Hg0; [exact Hg0|].
    change (run (call :: calls) g0)
      with (run calls (match call with
                       | Patch => patchGlobalFetch g0
                       | Unpatch => unpatchGlobalFetch g0
                       end)).
    apply IH. unfold patchGlobalFetch, unpatchGlobalFetch.
    destruct call, g0 as [gf [o|]], Hg0 as [[Hf Ho]|[Hf Ho]]; cbn in *;
      try discriminate; subst; auto.
    injection Ho as ->. auto. }
  assert (Hinv : globalThis_fetch g = f /\ originalFetch g = None \/
                 globalThis_fetch g = Traced f /\ originalFetch g = Some f).
  { subst g. apply Hstep. by left. }
  split; [|split; [exact Hinv|]].
  - unfold fetchFn, getOriginalFetch. by destruct Hinv as [[-> ->]|[-> ->]].
  - split; [|split; [|reflexivity]].
    + unfold patchGlobalFetch. destruct g as [gf [o|]]; reflexivity.
    + unfold patchGlobalFetch, unpatchGlobalFetch.
      destruct g as [gf [o|]]; cbn in *; [reflexivity|].
      by destruct Hinv as [[-> _]|[_ ?]].
Qed.

End FetchPatchProperties.
